(** * Directory prefix renamer: a shallow embedding of [app/renamer.py]

    The development follows the module top to bottom: [natural_key],
    [_iter_subdirs_natural], [get_folder_index_among_siblings],
    [_prefix_files_in_dir], [_safe_rename] and [rename_files_in_tree];
    then the worker thread and the event loop of [app/ui.py].

    Conventions.
    - A Python [str] is a [string] whose characters are the code points
      U+0000..U+00FF (every such string is a Python string, and the
      character tables below are Python's on that range). Names with
      other characters are not names of the model.
    - A [pathlib.Path] is the list of its components from the root of the
      file system; the empty list is the root, which is its own parent.
      Paths are resolved, and two names are the same entry of a directory
      when they are the same string.
    - Exceptions are values of [exn]; a computation that may raise returns a
      [result].
    - The interpreter nests the generators of the walk to a depth it
      limits; the limit is an argument of the walk and of the run. *)

From Stdlib Require Import List String Ascii Bool Arith NArith Lia.
From Stdlib Require Import DecimalString DecimalNat.
From Stdlib Require Import Permutation Sorting.Sorted.
Import ListNotations.
Local Open Scope string_scope.
Local Open Scope list_scope.

(** ** Exceptions and results *)

Inductive exn : Type :=
| FileNotFoundError
| NotADirectoryError
| IsADirectoryError
| FileExistsError
| PermissionError
| OSError
| ValueError
| TypeError
| RecursionError.

Inductive result (A : Type) : Type :=
| Ok (a : A)
| Raise (e : exn).
Arguments Ok {A} a.
Arguments Raise {A} e.

Definition bind {A B} (m : result A) (k : A -> result B) : result B :=
  match m with
  | Ok a => k a
  | Raise e => Raise e
  end.

Notation "x <- m ;; k" := (bind m (fun x => k))
  (at level 61, m at next level, right associativity).

Fixpoint mapM {A B} (f : A -> result B) (l : list A) : result (list B) :=
  match l with
  | [] => Ok []
  | a :: l' => b <- f a ;; bs <- mapM f l' ;; Ok (b :: bs)
  end.

(** ** Characters

    [is_decimal] is the regular expression class [\d] (Unicode category Nd),
    [is_digit_char] is the per-character test of [str.isdigit] (Numeric_Type
    Digit or Decimal: on this range the ten decimal digits and the
    superscripts U+00B2, U+00B3 and U+00B9), [lower_char] is [str.lower]. *)

Definition code (c : ascii) : N := N_of_ascii c.

Definition is_decimal (c : ascii) : bool :=
  ((48 <=? code c) && (code c <=? 57))%N.

Definition is_digit_char (c : ascii) : bool :=
  is_decimal c
  || (code c =? 178)%N || (code c =? 179)%N || (code c =? 185)%N.

Definition lower_char (c : ascii) : ascii :=
  if ((65 <=? code c) && (code c <=? 90)
      || (192 <=? code c) && (code c <=? 214)
      || (216 <=? code c) && (code c <=? 222))%N
  then ascii_of_N (code c + 32)
  else c.

Fixpoint lower (s : string) : string :=
  match s with
  | EmptyString => EmptyString
  | String c s' => String (lower_char c) (lower s')
  end.

Fixpoint forallb_string (f : ascii -> bool) (s : string) : bool :=
  match s with
  | EmptyString => true
  | String c s' => f c && forallb_string f s'
  end.

Definition nonempty (s : string) : bool :=
  match s with
  | EmptyString => false
  | String _ _ => true
  end.

(** [p.isdigit()]: at least one character, and every character a digit. *)
Definition isdigit (s : string) : bool :=
  nonempty s && forallb_string is_digit_char s.

Fixpoint int_digits (acc : N) (s : string) : N :=
  match s with
  | EmptyString => acc
  | String c s' => int_digits (acc * 10 + (code c - 48)) s'
  end.

(** [int(p)] on a string of digit characters: the decimal value, and
    [ValueError] as soon as a character is not a decimal digit. The limit
    the interpreter sets on the number of digits (4300 unless it is
    changed) is left out: no file name is that long. *)
Definition int (s : string) : result N :=
  if nonempty s && forallb_string is_decimal s
  then Ok (int_digits 0 s)
  else Raise ValueError.

(** ** natural_key *)

Inductive token : Type :=
| TInt (n : N)
| TStr (s : string).

Definition snoc (s : string) (c : ascii) : string :=
  (s ++ String c EmptyString)%string.

(** [_DIGIT_REGEX.split(text)] for the pattern [(\d+)]: the text before the
    first digit run, then each digit run followed by the text after it.
    [cur] is the part being read and [in_digits] tells which kind it is. *)
Fixpoint split_scan (s : string) (in_digits : bool) (cur : string)
  : list string :=
  match s with
  | EmptyString => if in_digits then [cur; EmptyString] else [cur]
  | String c s' =>
      if is_decimal c then
        if in_digits then split_scan s' true (snoc cur c)
        else cur :: split_scan s' true (String c EmptyString)
      else
        if in_digits then cur :: split_scan s' false (String c EmptyString)
        else split_scan s' false (snoc cur c)
  end.

Definition regex_split (text : string) : list string :=
  split_scan text false EmptyString.

Definition key_token (p : string) : result token :=
  if isdigit p then n <- int p ;; Ok (TInt n) else Ok (TStr (lower p)).

Definition natural_key (text : string) : result (list token) :=
  mapM key_token (regex_split text).

(** ** Comparing keys

    Python compares two lists by the first position where the elements are
    not [==]; an [int] and a [str] are never [==], and ordering them with
    [<] raises [TypeError]. A list that is a strict prefix of the other is
    the smaller one. *)

Definition token_eqb (a b : token) : bool :=
  match a, b with
  | TInt x, TInt y => (x =? y)%N
  | TStr x, TStr y => String.eqb x y
  | _, _ => false
  end.

Definition token_lt (a b : token) : result bool :=
  match a, b with
  | TInt x, TInt y => Ok (x <? y)%N
  | TStr x, TStr y => Ok (String.ltb x y)
  | _, _ => Raise TypeError
  end.

Fixpoint key_lt (a b : list token) : result bool :=
  match a, b with
  | [], [] => Ok false
  | [], _ :: _ => Ok true
  | _ :: _, [] => Ok false
  | x :: a', y :: b' => if token_eqb x y then key_lt a' b' else token_lt x y
  end.

(** [names.sort(key=natural_key)] compares two names through their keys. *)
Definition name_lt (a b : string) : result bool :=
  ka <- natural_key a ;; kb <- natural_key b ;; key_lt ka kb.

(** ** list.sort(key=...)

    The keys are computed first, once per element; the sort is stable. It is
    written here as an insertion sort: an element goes in front of the
    sorted rest, after the elements that are smaller than it. *)

Section Sort.
Context {A K : Type}.
Variable key : A -> result K.
Variable lt : K -> K -> result bool.

Fixpoint insert_sorted (x : K * A) (l : list (K * A))
  : result (list (K * A)) :=
  match l with
  | [] => Ok [x]
  | y :: l' =>
      b <- lt (fst y) (fst x) ;;
      if b then r <- insert_sorted x l' ;; Ok (y :: r)
      else Ok (x :: y :: l')
  end.

Fixpoint sort_decorated (l : list (K * A)) : result (list (K * A)) :=
  match l with
  | [] => Ok []
  | x :: l' => s <- sort_decorated l' ;; insert_sorted x s
  end.

Definition decorate (a : A) : result (K * A) :=
  k <- key a ;; Ok (k, a).

Definition sort_by (l : list A) : result (list A) :=
  d <- mapM decorate l ;; s <- sort_decorated d ;; Ok (map snd s).
End Sort.

(** ** The file system

    A directory holds its entries in the order [iterdir] reports them. A
    file may be locked (it cannot be renamed) and a directory may be
    unlistable (reading it is denied). *)

#[local] Unset Elimination Schemes.
Inductive node : Type :=
| File (locked : bool) (data : string)
| Dir (listable : bool) (entries : list (string * node)).
#[local] Set Elimination Schemes.

Definition path := list string.

Definition parent (p : path) : path := removelast p.
Definition name (p : path) : string := last p EmptyString.
Definition with_name (p : path) (n : string) : path := parent p ++ [n].

Definition path_eqb (p q : path) : bool :=
  if list_eq_dec string_dec p q then true else false.

Fixpoint assoc (c : string) (es : list (string * node)) : option node :=
  match es with
  | [] => None
  | (k, v) :: es' => if String.eqb k c then Some v else assoc c es'
  end.

Fixpoint lookup (n : node) (p : path) : option node :=
  match p with
  | [] => Some n
  | c :: p' =>
      match n with
      | File _ _ => None
      | Dir _ es =>
          match assoc c es with
          | Some n' => lookup n' p'
          | None => None
          end
      end
  end.

Definition exists_ (fs : node) (p : path) : bool :=
  match lookup fs p with
  | Some _ => true
  | None => false
  end.

Definition is_dir (fs : node) (p : path) : bool :=
  match lookup fs p with
  | Some (Dir _ _) => true
  | _ => false
  end.

Definition is_file (fs : node) (p : path) : bool :=
  match lookup fs p with
  | Some (File _ _) => true
  | _ => false
  end.

(** [p.iterdir()], read to the end. *)
Definition iterdir (fs : node) (p : path) : result (list path) :=
  match lookup fs p with
  | None => Raise FileNotFoundError
  | Some (File _ _) => Raise NotADirectoryError
  | Some (Dir false _) => Raise PermissionError
  | Some (Dir true es) => Ok (map (fun e => p ++ [fst e]) es)
  end.

(** The entries without the one called [c]. *)
Definition remove_entry (c : string) (es : list (string * node))
  : list (string * node) :=
  filter (fun e => negb (String.eqb (fst e) c)) es.

Fixpoint map_first (c : string) (g : node -> node)
  (es : list (string * node)) : list (string * node) :=
  match es with
  | [] => []
  | (k, v) :: es' =>
      if String.eqb k c then (k, g v) :: es' else (k, v) :: map_first c g es'
  end.

(** Apply [f] to the entries of the directory at [p]. *)
Fixpoint modify (f : list (string * node) -> list (string * node))
  (p : path) (n : node) : node :=
  match n with
  | File _ _ => n
  | Dir l es =>
      match p with
      | [] => Dir l (f es)
      | c :: p' => Dir l (map_first c (modify f p') es)
      end
  end.

Definition del (p : path) (fs : node) : node :=
  modify (remove_entry (name p)) (parent p) fs.

Definition put (p : path) (n : node) (fs : node) : node :=
  modify (fun es => es ++ [(name p, n)]) (parent p) fs.

Definition is_locked (n : node) : bool :=
  match n with
  | File l _ => l
  | Dir _ _ => false
  end.

Fixpoint is_prefix (p q : path) : bool :=
  match p, q with
  | [], _ => true
  | _ :: _, [] => false
  | a :: p', b :: q' => String.eqb a b && is_prefix p' q'
  end.

(** [os.rename] replaces an existing destination file on POSIX and refuses
    an existing destination on Windows. *)
Inductive platform : Type := Posix | Windows.

Definition is_root (p : path) : bool :=
  match p with
  | [] => true
  | _ :: _ => false
  end.

Definition os_rename (pf : platform) (fs : node) (src dst : path)
  : result node :=
  if is_root src || is_root dst then Raise OSError
  else
    match lookup fs src with
    | None => Raise FileNotFoundError
    | Some n =>
        if is_locked n then Raise PermissionError
        else
          match lookup fs dst with
          | None =>
              if is_dir fs (parent dst) then
                if is_prefix src dst then Raise OSError
                else Ok (put dst n (del src fs))
              else Raise FileNotFoundError
          | Some m =>
              if path_eqb src dst then Ok fs
              else
                match pf with
                | Windows => Raise FileExistsError
                | Posix =>
                    match n, m with
                    | File _ _, File _ _ =>
                        Ok (put dst n (del dst (del src fs)))
                    | File _ _, Dir _ _ => Raise IsADirectoryError
                    | Dir _ _, File _ _ => Raise NotADirectoryError
                    | Dir _ _, Dir _ [] =>
                        if is_prefix src dst then Raise OSError
                        else Ok (put dst n (del dst (del src fs)))
                    | Dir _ _, Dir _ (_ :: _) => Raise OSError
                    end
                end
          end
    end.

Fixpoint height (n : node) : nat :=
  match n with
  | File _ _ => 0
  | Dir _ es => S (fold_right (fun e m => Nat.max (height (snd e)) m) 0 es)
  end.

(** ** The run: file system, progress sink and random source

    The progress sink receives one string per call; an [event] stands for
    the string the source formats:
    - [LogProcessingRoot d i]: "Processing root files in d with index i",
    - [LogProcessing d i]: "Processing d (index among siblings: i)",
    - [LogRenamed s d]: "RENAMED: s -> d",
    - [LogError s e]: "ERROR: Failed to rename s: e",
    - [LogDone n]: "DONE. Total files renamed: n". *)

Inductive event : Type :=
| LogProcessingRoot (d : path) (idx : nat)
| LogProcessing (d : path) (idx : nat)
| LogRenamed (src dst : path)
| LogError (src : path) (exc : exn)
| LogDone (total : nat).

Record world : Type := mkWorld {
  w_fs : node;
  w_out : list event;
  w_drawn : nat
}.

(** A stateful computation; what was done to the world before an exception
    was raised stays done. *)
Definition M (A : Type) : Type := world -> result A * world.

Definition ret {A} (a : A) : M A := fun w => (Ok a, w).

Definition raise {A} (e : exn) : M A := fun w => (Raise e, w).

Definition bindM {A B} (m : M A) (k : A -> M B) : M B :=
  fun w =>
    match m w with
    | (Ok a, w') => k a w'
    | (Raise e, w') => (Raise e, w')
    end.

Notation "x <~ m ;; k" := (bindM m (fun x => k))
  (at level 61, m at next level, right associativity).

(** [try: m except Exception as exc: h exc] *)
Definition try_except {A} (m : M A) (h : exn -> M A) : M A :=
  fun w =>
    match m w with
    | (Ok a, w') => (Ok a, w')
    | (Raise e, w') => h e w'
    end.

(** A read of the file system that may raise. *)
Definition read {A} (f : node -> result A) : M A :=
  fun w => (f (w_fs w), w).

Definition str (n : nat) : string :=
  NilEmpty.string_of_uint (Nat.to_uint n).

(** [siblings.index(folder)] *)
Fixpoint index (x : path) (l : list path) : option nat :=
  match l with
  | [] => None
  | y :: l' =>
      if path_eqb y x then Some 0
      else match index x l' with
           | Some i => Some (S i)
           | None => None
           end
  end.

(** [ps.sort(key=lambda p: natural_key(p.name))] *)
Definition sort_natural (ps : list path) : result (list path) :=
  sort_by (fun p => natural_key (name p)) key_lt ps.

(** [[p for p in d.iterdir() if p.is_dir()]] and its twin for files. *)
Definition list_subdirs (d : path) (fs : node) : result (list path) :=
  ps <- iterdir fs d ;; Ok (filter (is_dir fs) ps).

Definition list_files (d : path) (fs : node) : result (list path) :=
  ps <- iterdir fs d ;; Ok (filter (is_file fs) ps).

Definition get_folder_index_among_siblings (fs : node) (folder : path)
  : result nat :=
  if path_eqb (parent folder) folder then Ok 1
  else
    match list_subdirs (parent folder) fs with
    | Raise FileNotFoundError => Ok 1
    | Raise e => Raise e
    | Ok siblings =>
        sorted <- sort_natural siblings ;;
        match index folder sorted with
        | Some i => Ok (i + 1)
        | None => Ok 1
        end
    end.

(** The body of [list(...)]: keep what the generator yields. *)
Definition collect (sd : path) (acc : list path) : M (list path) :=
  ret (acc ++ [sd]).

Section Run.
(** The platform of [os.rename] and the stream [uuid4().hex] draws from. *)
Variable pf : platform.
Variable uuid4_hex : nat -> string.

(** [log] is [true] when a progress sink was given. *)
Definition emit (log : bool) (e : event) : M unit :=
  fun w =>
    (Ok tt,
     if log then mkWorld (w_fs w) (w_out w ++ [e]) (w_drawn w) else w).

Definition rename (src dst : path) : M unit :=
  fun w =>
    match os_rename pf (w_fs w) src dst with
    | Ok fs' => (Ok tt, mkWorld fs' (w_out w) (w_drawn w))
    | Raise e => (Raise e, w)
    end.

Definition uuid4 : M string :=
  fun w =>
    (Ok (uuid4_hex (w_drawn w)),
     mkWorld (w_fs w) (w_out w) (S (w_drawn w))).

Definition _safe_rename (src dst : path) : M unit :=
  if path_eqb src dst then ret tt
  else
    dst_exists <~ read (fun fs => Ok (exists_ fs dst)) ;;
    if dst_exists then
      u <~ uuid4 ;;
      let temp :=
        with_name src ("__renaming__" ++ u ++ "__" ++ name src)%string in
      _ <~ rename src temp ;;
      rename temp dst
    else rename src dst.

(** The loop of [_prefix_files_in_dir] over the sorted entries. *)
Fixpoint prefix_loop (prefix_index : nat) (log : bool)
  (entries : list path) (changed : nat) : M nat :=
  match entries with
  | [] => ret changed
  | file_path :: rest =>
      let new_name := (str prefix_index ++ "_" ++ name file_path)%string in
      let dst := with_name file_path new_name in
      changed' <~ try_except
        (_ <~ _safe_rename file_path dst ;;
         _ <~ emit log (LogRenamed file_path dst) ;;
         ret (changed + 1))
        (fun exc =>
           _ <~ emit log (LogError file_path exc) ;;
           ret changed) ;;
      prefix_loop prefix_index log rest changed'
  end.

Definition _prefix_files_in_dir (directory : path) (prefix_index : nat)
  (log : bool) : M nat :=
  fun w =>
    match list_files directory (w_fs w) with
    | Raise FileNotFoundError => (Ok 0, w)
    | Raise e => (Raise e, w)
    | Ok entries =>
        (sorted <~ read (fun _ => sort_natural entries) ;;
         prefix_loop prefix_index log sorted 0) w
    end.

(** [for d in _iter_subdirs_natural(root): acc = body d acc]. The
    generator is lazy: the entries of a directory are read when the loop
    reaches it, after the body ran on everything yielded before. The
    generator of a subdirectory runs inside the generators of the
    directories above it: [limit] is the number of generators the
    interpreter can still nest before it raises [RecursionError], which no
    handler of the walk catches. The walk always returns or raises: the
    result is never [None]. *)
Section Walk.
Context {A : Type}.
Variable body : path -> A -> M A.

(** The loop over the sorted subdirectories of one level; [descend] is
    the generator started on a subdirectory. *)
Fixpoint each_subdir
  (descend : path -> A -> world -> option (result A * world))
  (sds : list path) (acc : A) (w : world)
  : option (result A * world) :=
  match sds with
  | [] => Some (Ok acc, w)
  | sd :: rest =>
      match body sd acc w with
      | (Raise e, w1) => Some (Raise e, w1)
      | (Ok acc1, w1) =>
          match descend sd acc1 w1 with
          | Some (Ok acc2, w2) => each_subdir descend rest acc2 w2
          | other => other
          end
      end
  end.

Fixpoint for_subdirs (limit : nat) (root : path) (acc : A) (w : world)
  : option (result A * world) :=
  match limit with
  | O => Some (Raise RecursionError, w)
  | S limit' =>
      match list_subdirs root (w_fs w) with
      | Raise FileNotFoundError => Some (Ok acc, w)
      | Raise e => Some (Raise e, w)
      | Ok subdirs =>
          match sort_natural subdirs with
          | Raise e => Some (Raise e, w)
          | Ok sorted => each_subdir (for_subdirs limit') sorted acc w
          end
      end
  end.
End Walk.

(** [list(_iter_subdirs_natural(root))] *)
Definition _iter_subdirs_natural (limit : nat) (fs : node) (root : path)
  : option (result (list path)) :=
  match
    for_subdirs collect limit root [] (mkWorld fs [] 0)
  with
  | Some (r, _) => Some r
  | None => None
  end.

Definition process_dir (log : bool) (current_dir : path)
  (total_changed : nat) : M nat :=
  idx <~ read (fun fs => get_folder_index_among_siblings fs current_dir) ;;
  _ <~ emit log (LogProcessing current_dir idx) ;;
  n <~ _prefix_files_in_dir current_dir idx log ;;
  ret (total_changed + n).

Definition process_root (log : bool) (root_path : path) : M nat :=
  idx <~ read (fun fs => get_folder_index_among_siblings fs root_path) ;;
  _ <~ emit log (LogProcessingRoot root_path idx) ;;
  _prefix_files_in_dir root_path idx log.

Definition rename_files_in_tree (limit : nat) (root : path)
  (include_root_files : bool) (log : bool) (w : world)
  : option (result nat * world) :=
  if negb (exists_ (w_fs w) root) || negb (is_dir (w_fs w) root)
  then Some (Raise NotADirectoryError, w)
  else
    match
      (if include_root_files then process_root log root else ret 0) w
    with
    | (Raise e, w1) => Some (Raise e, w1)
    | (Ok total0, w1) =>
        match for_subdirs (process_dir log) limit root total0 w1 with
        | Some (Ok total, w2) =>
            Some ((_ <~ emit log (LogDone total) ;; ret total) w2)
        | other => other
        end
    end.

(** A run on the file system [fs], with no event sent and no temporary
    name drawn yet; [limit] is the depth of nested generators the
    interpreter allows when the walk starts. *)
Definition rename_tree (limit : nat) (root : path)
  (include_root_files log : bool) (fs : node)
  : option (result nat * world) :=
  rename_files_in_tree limit root include_root_files log
    (mkWorld fs [] 0).
End Run.

(** ** Shapes used by the statements *)

(** The parts [regex_split] returns: text and digit runs in turn; [d] tells
    that a digit run is expected next, and the list ends after a text. *)
Fixpoint parts_alt (d : bool) (ps : list string) : bool :=
  match ps with
  | [] => d
  | p :: ps' =>
      (if d then nonempty p && forallb_string is_decimal p
       else forallb_string (fun c => negb (is_decimal c)) p)
      && parts_alt (negb d) ps'
  end.

Definition is_text (t : token) : bool :=
  match t with
  | TStr s =>
      forallb_string (fun c => negb (is_decimal c)) s && String.eqb (lower s) s
  | TInt _ => false
  end.

Definition is_int (t : token) : bool :=
  match t with
  | TInt _ => true
  | TStr _ => false
  end.

(** A key whose tokens are text and integer in turn; [d] tells that an
    integer is expected next, and the key ends after a text. *)
Fixpoint key_alt (d : bool) (k : list token) : bool :=
  match k with
  | [] => d
  | t :: k' => (if d then is_int t else is_text t) && key_alt (negb d) k'
  end.

Definition is_ascii (c : ascii) : bool := (code c <? 128)%N.

Section SortSpec.
Context {A K : Type}.
Variable key : A -> result K.
Variable lt : K -> K -> result bool.

(** [y] may stand after [x]: it is not smaller. *)
Definition not_before (x y : K * A) : Prop :=
  lt (fst y) (fst x) = Ok false.

(** In a sorted list no element is smaller than one before it. *)
Definition key_sorted (s : list A) : Prop :=
  StronglySorted
    (fun a b => exists ka kb,
       key a = Ok ka /\ key b = Ok kb /\ lt kb ka = Ok false) s.
End SortSpec.

(** The keys [natural_key] returns, and the names that have one. *)
Definition good_key (k : list token) : Prop := key_alt false k = true.

Definition has_key (s : string) : Prop := exists k, natural_key s = Ok k.

(** What is left of an entry when only directories are looked at. *)
Definition dir_part (o : option node) : option node :=
  match o with
  | Some (Dir l es) => Some (Dir l es)
  | _ => None
  end.

(** A computation that leaves every directory where it is, when started in
    a world that satisfies [pre]. *)
Definition keeps_dirs {A} (pre : world -> Prop) (m : M A) : Prop :=
  forall w r w', pre w -> m w = (r, w') ->
  forall q, is_dir (w_fs w') q = is_dir (w_fs w) q.

(** No directory lies more than [k] levels below [root]. *)
Definition depth_bound (fs : node) (root : path) (k : nat) : Prop :=
  forall q, is_dir fs (root ++ q) = true -> List.length q <= k.

(** What the loop needs to know of a directory it is about to enter. *)
Definition enterable (k : nat) (w : world) (sd : path) : Prop :=
  is_dir (w_fs w) sd = true /\ depth_bound (w_fs w) sd k.

(** ** What a run leaves behind *)

(** The destination [_prefix_files_in_dir] computes for a file. *)
Definition prefixed (prefix_index : nat) (file_path : path) : path :=
  with_name file_path (str prefix_index ++ "_" ++ name file_path)%string.

(** The event one round of the loop over the files sends for [f]. *)
Definition attempt (prefix_index : nat) (f : path) (e : event) : Prop :=
  e = LogRenamed f (prefixed prefix_index f) \/ exists x, e = LogError f x.

Definition is_renamed (e : event) : bool :=
  match e with
  | LogRenamed _ _ => true
  | _ => false
  end.

Definition renamed_count (evs : list event) : nat :=
  List.length (filter is_renamed evs).

(** The path an event says was handed to [_safe_rename], if any. *)
Definition renamed_source (e : event) : option path :=
  match e with
  | LogRenamed src _ => Some src
  | LogError src _ => Some src
  | _ => None
  end.

(** No event speaks of renaming a directory of [fs]. *)
Definition event_ok (fs : node) (e : event) : Prop :=
  match renamed_source e with
  | Some src => is_dir fs src = false
  | None => True
  end.

(** The exceptions that escape a run on a directory, when the walk stays
    within the depth the interpreter allows. *)
Definition escapes (e : exn) : Prop := e = PermissionError \/ e = ValueError.

(** A piece of a run, with the progress sink on or off: the directories
    stay, only [escapes] get out, the events speak of files only, and the
    counter grows by the number of RENAMED events (sent or not). *)
Definition run_step (log : bool) (a : nat) (w : world) (r : result nat)
  (w' : world) : Prop :=
  (forall q, is_dir (w_fs w') q = is_dir (w_fs w) q) /\
  (forall e, r = Raise e -> escapes e) /\
  exists evs,
    w_out w' = w_out w ++ (if log then evs else []) /\
    Forall (event_ok (w_fs w)) evs /\
    forall n, r = Ok n -> n = a + renamed_count evs.

(** The same of a piece of a run on a tree of any depth: [RecursionError]
    gets out as well. *)
Definition run_piece (log : bool) (a : nat) (w : world) (r : result nat)
  (w' : world) : Prop :=
  (forall q, is_dir (w_fs w') q = is_dir (w_fs w) q) /\
  (forall e, r = Raise e -> escapes e \/ e = RecursionError) /\
  exists evs,
    w_out w' = w_out w ++ (if log then evs else []) /\
    Forall (event_ok (w_fs w)) evs /\
    forall n, r = Ok n -> n = a + renamed_count evs.

(** ** Depth-first order, as the specification words it

    At each level the immediate subdirectories are listed and sorted by the
    natural key of their names; each sibling is followed by its entire
    subtree before the next sibling. *)

Definition interleave (sds : list path) (subs : list (list path))
  : list path :=
  flat_map (fun x => fst x :: snd x) (combine sds subs).

#[local] Unset Elimination Schemes.
Inductive dfs_order (fs : node) : path -> list path -> Prop :=
| dfs_level root siblings sorted subtrees :
    list_subdirs root fs = Ok siblings ->
    Permutation siblings sorted ->
    key_sorted (fun p => natural_key (name p)) key_lt sorted ->
    Forall2 (dfs_order fs) sorted subtrees ->
    dfs_order fs root (interleave sorted subtrees).
#[local] Set Elimination Schemes.

(** [p] is a directory strictly under [root]. *)
Definition below (fs : node) (root p : path) : Prop :=
  is_dir fs p = true /\ exists q, q <> [] /\ p = root ++ q.

(** Every directory at or under [root] can be listed. *)
Definition listable_below (fs : node) (root : path) : Prop :=
  forall q, is_dir fs (root ++ q) = true ->
  exists ps, iterdir fs (root ++ q) = Ok ps.

(** Every directory strictly under [root] has a name with a key. *)
Definition keys_below (fs : node) (root : path) : Prop :=
  forall q c, is_dir fs (root ++ q ++ [c]) = true -> has_key c.


(** What is yielded from [sd]: in depth-first order, and exactly the
    directories strictly under it. *)
Definition yields (fs : node) (sd : path) (sub : list path) : Prop :=
  dfs_order fs sd sub /\ forall p, In p sub <-> below fs sd p.

(** ** Trees used in the examples *)

Definition file (data : string) : node := File false data.

Definition locked_file (data : string) : node := File true data.

Definition empty_dir (c : string) : string * node := (c, Dir true []).

(** The superscript two, U+00B2. *)
Definition superscript_two : string := String (ascii_of_N 178) EmptyString.

(** [t] holds the seven sibling directories of the fixture generator. *)
Definition tree_seven : node :=
  Dir true
    [("t", Dir true (map empty_dir ["1"; "2"; "10"; "A"; "B2"; "B10"; "b1"]))].

(** [top] with three nested directories, next to a sibling [zed]. *)
Definition tree_nested : node :=
  Dir true
    [("zed", Dir true []);
     ("top", Dir true (map empty_dir ["sub1"; "sub10"; "sub2"]))].

(** [r/a] cannot be listed; [r/b] holds a file. *)
Definition tree_denied : node :=
  Dir true
    [("r", Dir true
        [("a", Dir false [("x.txt", file "x")]);
         ("b", Dir true [("y.txt", file "y")])])].

(** [home] cannot be listed, [home/alice] can. *)
Definition tree_home : node :=
  Dir true [("home", Dir false [("alice", Dir true [("n.txt", file "n")])])].

(** A leftover [2_file.txt] next to [file.txt]. *)
Definition tree_collision : node :=
  Dir true
    [("d", Dir true [("file.txt", file "A"); ("2_file.txt", file "B")])].

(** [r/b] is the second directory of [r] and holds [1.txt] next to a
    leftover [2_1.txt]. *)
Definition tree_leftover : node :=
  Dir true
    [("r", Dir true
        [("a", Dir true []);
         ("b", Dir true [("1.txt", file "A"); ("2_1.txt", file "B")])])].

(** Three files, one of them locked, in the second directory of [r]. *)
Definition tree_locked : node :=
  Dir true
    [("r", Dir true
        [("a", Dir true []);
         ("top", Dir true
            [("file.txt", file "f");
             ("readme.md", locked_file "r");
             ("log10.log", file "l")])])].

(** A body that removes the directory it is given. *)
Definition remove_dir (sd : path) (acc : list path) : M (list path) :=
  fun w => (Ok (acc ++ [sd]), mkWorld (del sd (w_fs w)) (w_out w) (w_drawn w)).

(** The file at a path: its lock and its data. *)
Definition file_at (fs : node) (p : path) : option (bool * string) :=
  match lookup fs p with
  | Some (File l d) => Some (l, d)
  | _ => None
  end.

(** The name [_prefix_files_in_dir] gives to the file called [c]. *)
Definition pre (prefix_index : nat) (c : string) : string :=
  (str prefix_index ++ "_" ++ c)%string.

(** An entry the loop can rename: a file that is not locked. *)
Definition renamable (es : list (string * node)) (c : string) : bool :=
  match assoc c es with
  | Some (File false _) => true
  | _ => false
  end.

Definition is_file_entry (es : list (string * node)) (c : string) : bool :=
  match assoc c es with
  | Some (File _ _) => true
  | _ => false
  end.

Definition is_dir_node (e : string * node) : bool :=
  match snd e with
  | Dir _ _ => true
  | File _ _ => false
  end.

(** The temporary name [_safe_rename] hops through. *)
Definition temp_name (u : string) (c : string) : string :=
  ("__renaming__" ++ u ++ "__" ++ c)%string.

(** The world [w] once the directory [d] holds the entries [es']. *)
Definition with_entries (w : world) (d : path) (es' : list (string * node))
  (drawn : nat) : world :=
  mkWorld (modify (fun _ => es') d (w_fs w)) (w_out w) drawn.

(** What the loop over the files called [L] makes of the entries [es] of a
    directory when no destination name is taken: a file that is not locked
    is found under its prefixed name and no longer under its own, a locked
    file stays, every other entry stays, the names stay distinct and the
    subdirectories stay in their order. *)
Definition loop_effect (idx : nat) (L : list string)
  (es es' : list (string * node)) : Prop :=
  (forall c, In c L -> renamable es c = true ->
     assoc (pre idx c) es' = assoc c es /\ assoc c es' = None) /\
  (forall c, In c L -> renamable es c = false ->
     assoc c es' = assoc c es /\ assoc (pre idx c) es' = None) /\
  (forall x, ~ In x L -> (forall c, In c L -> x <> pre idx c) ->
     assoc x es' = assoc x es) /\
  NoDup (map fst es') /\
  filter is_dir_node es' = filter is_dir_node es.

(** The event of each file of [L], in order. *)
Definition loop_event (idx : nat) (d : path) (es : list (string * node))
  (c : string) : event :=
  if renamable es c then LogRenamed (d ++ [c]) (d ++ [pre idx c])
  else LogError (d ++ [c]) PermissionError.

(** ** Checks over a whole tree, for the examples *)

(** [check l es] holds of every directory of the tree. *)
Fixpoint forall_dirs (check : bool -> list (string * node) -> bool)
  (n : node) : bool :=
  match n with
  | File _ _ => true
  | Dir l es => check l es && forallb (fun e => forall_dirs check (snd e)) es
  end.

Definition has_keyb (s : string) : bool :=
  match natural_key s with
  | Ok _ => true
  | Raise _ => false
  end.

Definition check_listable (l : bool) (es : list (string * node)) : bool := l.

Definition check_dir_keys (l : bool) (es : list (string * node)) : bool :=
  forallb (fun e => negb (is_dir_node e) || has_keyb (fst e)) es.

Fixpoint nodupb (xs : list string) : bool :=
  match xs with
  | [] => true
  | x :: xs' => negb (existsb (String.eqb x) xs') && nodupb xs'
  end.

Definition check_unique (l : bool) (es : list (string * node)) : bool :=
  nodupb (map fst es).

(** A stream of draws for the examples. *)
Definition draws (n : nat) : string := str n.

(** In every directory the names are distinct. *)
Definition names_unique (fs : node) : Prop :=
  forall p l es, lookup fs p = Some (Dir l es) -> NoDup (map fst es).

(** Neither path is a prefix of the other. *)
Definition apart (d p : path) : Prop :=
  (forall r, p <> d ++ r) /\ (forall r, d <> p ++ r).

(** ** What a run makes of a tree *)

(** The directories a run works on: those strictly under the root, and the
    root itself when its files are included. *)
Definition visited (fs : node) (root : path) (include_root_files : bool)
  (d : path) : Prop :=
  below fs root d \/ (include_root_files = true /\ d = root).

(** Every file of a visited directory has a name with a key. *)
Definition file_keys (fs : node) (root : path) (include_root_files : bool)
  : Prop :=
  forall d c, visited fs root include_root_files d ->
  is_file fs (d ++ [c]) = true -> has_key c.

(** No file of a visited directory finds its prefixed name taken. *)
Definition no_collision (fs : node) (root : path) (include_root_files : bool)
  : Prop :=
  forall d idx c, visited fs root include_root_files d ->
  get_folder_index_among_siblings fs d = Ok idx ->
  is_file fs (d ++ [c]) = true -> lookup fs (d ++ [pre idx c]) = None.

(** Nor the name with two prefixes. *)
Definition no_collision_twice (fs : node) (root : path)
  (include_root_files : bool) : Prop :=
  forall d idx c, visited fs root include_root_files d ->
  get_folder_index_among_siblings fs d = Ok idx ->
  is_file fs (d ++ [c]) = true ->
  lookup fs (d ++ [pre idx (pre idx c)]) = None.

(** When the files of the root are included, its index can be computed. *)
Definition root_indexed (fs : node) (root : path) (include_root_files : bool)
  : Prop :=
  include_root_files = true ->
  exists idx, get_folder_index_among_siblings fs root = Ok idx.

(** A tree on which a run meets no obstacle but locked files. *)
Definition ready (fs : node) (root : path) (include_root_files : bool)
  : Prop :=
  is_dir fs root = true /\
  names_unique fs /\
  listable_below fs root /\
  keys_below fs root /\
  file_keys fs root include_root_files /\
  no_collision fs root include_root_files /\
  root_indexed fs root include_root_files.

(** The files of [d] in [fs'] are those of [d] in [fs] after the loop of
    [_prefix_files_in_dir]: each file that is not locked under its prefixed
    name, each locked file under its own, and no other file. *)
Definition renamed_dir (fs fs' : node) (d : path) (idx : nat) : Prop :=
  (forall c a, file_at fs (d ++ [c]) = Some (false, a) ->
     file_at fs' (d ++ [pre idx c]) = Some (false, a)) /\
  (forall c a, file_at fs (d ++ [c]) = Some (true, a) ->
     file_at fs' (d ++ [c]) = Some (true, a)) /\
  (forall x lk a, file_at fs' (d ++ [x]) = Some (lk, a) ->
     (lk = true /\ file_at fs (d ++ [x]) = Some (true, a)) \/
     (lk = false /\
      exists c, x = pre idx c /\ file_at fs (d ++ [c]) = Some (false, a))).

Definition is_unlocked (e : string * node) : bool :=
  match snd e with
  | File false _ => true
  | _ => false
  end.

(** The number of files of [d] that are not locked. *)
Definition unlocked (fs : node) (d : path) : nat :=
  match lookup fs d with
  | Some (Dir _ es) => List.length (filter is_unlocked es)
  | _ => 0
  end.

(** The event the loop sends for the file [c] of [d]. *)
Definition file_event (idx : nat) (d : path) (c : string) (locked : bool)
  : event :=
  if locked then LogError (d ++ [c]) PermissionError
  else LogRenamed (d ++ [c]) (d ++ [pre idx c]).

(** What holds of the counter [a] and the world [w] once the directories
    [P] of [fs] were worked on: the directories and their listings are
    those of [fs], the files of a directory not worked on are those of
    [fs], those of a directory worked on are renamed, the counter is the
    number of files that were not locked, and each file got its event. *)
Definition tree_inv (fs : node) (log : bool) (P : list path) (a : nat)
  (w : world) : Prop :=
  (forall q, is_dir (w_fs w) q = is_dir fs q) /\
  names_unique (w_fs w) /\
  (forall p, is_dir fs p = true ->
     list_subdirs p (w_fs w) = list_subdirs p fs) /\
  (forall d x, ~ In d P ->
     file_at (w_fs w) (d ++ [x]) = file_at fs (d ++ [x])) /\
  (forall d idx, In d P -> get_folder_index_among_siblings fs d = Ok idx ->
     renamed_dir fs (w_fs w) d idx) /\
  a = list_sum (map (unlocked fs) P) /\
  (forall d idx c lk x, In d P ->
     get_folder_index_among_siblings fs d = Ok idx ->
     file_at fs (d ++ [c]) = Some (lk, x) -> log = true ->
     In (file_event idx d c lk) (w_out w)).

(** A name that reads as a prefixed one: decimal digits, then an
    underscore. *)
Fixpoint drop_decimal (s : string) : string :=
  match s with
  | EmptyString => EmptyString
  | String c s' => if is_decimal c then drop_decimal s' else s
  end.

Definition looks_prefixed (s : string) : bool :=
  match drop_decimal s with
  | String c _ => Ascii.eqb c "_"
  | EmptyString => false
  end.

Definition check_plain (l : bool) (es : list (string * node)) : bool :=
  forallb (fun e => negb (looks_prefixed (fst e))) es.

Definition check_file_keys (l : bool) (es : list (string * node)) : bool :=
  forallb (fun e => is_dir_node e || has_keyb (fst e)) es.

(** ** Names that [natural_key] accepts *)

(** A digit of [str.isdigit] that is no decimal digit: on this range the
    superscripts U+00B2, U+00B3 and U+00B9. *)
Definition is_superscript (c : ascii) : bool :=
  is_digit_char c && negb (is_decimal c).

(** A name of the model that holds no such character. This speaks of the
    names made of the characters U+0000 to U+00FF only: beyond that range
    [str.isdigit] holds of other characters that [int] rejects (U+2074,
    U+2460 and more), and a name that holds one of them is not a name of
    the model. *)
Definition plain (s : string) : bool :=
  forallb_string (fun c => negb (is_superscript c)) s.

(** ** Names the file system accepts

    A file system refuses a name or a path that is too long. [name_bytes]
    is the length of a name in UTF-8 (two bytes for a character from
    U+0080 on), and [path_bytes] the length of a path, with a separator
    before each component. A path of at most 255 bytes is within what
    both platforms accept. *)

Fixpoint name_bytes (s : string) : nat :=
  match s with
  | EmptyString => 0
  | String c s' => (if is_ascii c then 1 else 2) + name_bytes s'
  end.

Definition path_bytes (p : path) : nat :=
  list_sum (map (fun c => S (name_bytes c)) p).

(** The name [new_name idx c], given to the file [c] of a visited
    directory of index [idx], makes a path the file system accepts. *)
Definition files_fit (new_name : nat -> string -> string) (fs : node)
  (root : path) (include_root_files : bool) : Prop :=
  forall d idx c, visited fs root include_root_files d ->
  get_folder_index_among_siblings fs d = Ok idx ->
  is_file fs (d ++ [c]) = true ->
  path_bytes (d ++ [new_name idx c]) <= 255.

(** The name with the prefix twice. *)
Definition pre_twice (prefix_index : nat) (c : string) : string :=
  pre prefix_index (pre prefix_index c).

(** The paths of the files of a tree. *)
Fixpoint all_files (n : node) : list path :=
  match n with
  | File _ _ => [[]]
  | Dir _ es =>
      flat_map (fun e => map (cons (fst e)) (all_files (snd e))) es
  end.

Definition check_fit (new_name : nat -> string -> string) (fs : node)
  : bool :=
  forallb
    (fun q =>
       match get_folder_index_among_siblings fs (parent q) with
       | Ok idx =>
           Nat.leb (path_bytes (parent q ++ [new_name idx (name q)])) 255
       | Raise _ => true
       end)
    (all_files fs).

(** [r/b] is the second directory of [r] and holds [1.txt], a leftover
    [2_1.txt] and a locked file. *)
Definition tree_overwrite : node :=
  Dir true
    [("r", Dir true
        [("a", Dir true []);
         ("b", Dir true
            [("1.txt", file "A");
             ("2_1.txt", file "B");
             ("z", locked_file "Z")])])].

(** [r/b] holds the file [x] next to a directory [2_2_x]. *)
Definition tree_taken : node :=
  Dir true
    [("r", Dir true
        [("a", Dir true []);
         ("b", Dir true [("x", file "A"); ("2_2_x", Dir true [])])])].

(** ** What renames can do to a tree *)

(** The flag of the directory at a path. *)
Definition dir_flag (fs : node) (q : path) : option bool :=
  match lookup fs q with
  | Some (Dir l _) => Some l
  | _ => None
  end.

(** [origin] tells which file of [fs] each file of [fs'] is: a file of
    the same directory, with the same lock and the same data, and no two
    files of [fs'] are the same file of [fs]. *)
Definition traces (origin : path -> path) (fs fs' : node) : Prop :=
  (forall q lk a, file_at fs' q = Some (lk, a) ->
     file_at fs (origin q) = Some (lk, a) /\
     parent (origin q) = parent q) /\
  (forall q q', file_at fs' q <> None -> file_at fs' q' <> None ->
     origin q = origin q' -> q = q').

(** Every file of [fs] is, by [origin], a file of [fs']. *)
Definition covers (origin : path -> path) (fs fs' : node) : Prop :=
  forall q lk a, file_at fs q = Some (lk, a) ->
  exists q', file_at fs' q' = Some (lk, a) /\ origin q' = q.

(** [fs'] is [fs] after renames of files inside the directories [T], to
    names in [N]: the directories and their flags are the same, the files
    of every other directory are the same, and each file of [fs'] is one
    file of the same directory of [fs], with the same lock and data, under
    the same name or, when its name is in [N], under another one. Where
    [os.rename] replaces nothing (Windows), each file of [fs] is a file of
    [fs'], and a locked file is found under its own name. *)
Definition renames (pf : platform) (T : path -> Prop) (N : string -> Prop)
  (fs fs' : node) : Prop :=
  (forall q, dir_flag fs' q = dir_flag fs q) /\
  (forall q, ~ T (parent q) -> file_at fs' q = file_at fs q) /\
  (exists origin,
     traces origin fs fs' /\
     (forall q, file_at fs' q <> None -> origin q = q \/ N (name q)) /\
     (pf = Posix \/ covers origin fs fs')) /\
  (forall q a, file_at fs q = Some (true, a) ->
     pf = Posix \/ file_at fs' q = Some (true, a)).

(** The directories strictly under [root], whether they exist or not. *)
Definition strictly_below (root d : path) : Prop :=
  exists s, s <> [] /\ d = root ++ s.

(** The directories a run may work on. *)
Definition reach (root : path) (include_root_files : bool) (d : path)
  : Prop :=
  strictly_below root d \/ (include_root_files = true /\ d = root).

(** Every directory can be listed and no name holds a superscript digit. *)
Definition check_good (l : bool) (es : list (string * node)) : bool :=
  l && forallb (fun e => plain (fst e)) es.

Definition good (fs : node) : Prop :=
  (forall q, dir_flag fs q <> Some false) /\
  (forall q, q <> [] -> exists_ fs q = true -> plain (name q) = true).

(** ** The events of a run *)

Definition is_done (e : event) : bool :=
  match e with
  | LogDone _ => true
  | _ => false
  end.

(** Events sent after [w]: all but the DONE event. *)
Definition sends (w w' : world) : Prop :=
  exists evs, w_out w' = w_out w ++ evs /\ existsb is_done evs = false.

(** ** The window (src/app/ui.py)

    The worker thread runs [rename_files_in_tree] with a progress sink
    that stamps each message with the time of day and puts it on a queue;
    the eventloop of the window pumps the queue into the log box. The
    text of a path, the text of an exception and the clock are given from
    outside. *)

Section Messages.
(** [str(path)] and [str(exc)]. *)
Variable path_str : path -> string.
Variable exn_str : exn -> string.

(** The string the source formats for the progress sink. *)
Definition message (e : event) : string :=
  match e with
  | LogProcessingRoot d idx =>
      "Processing root files in " ++ path_str d ++ " with index " ++ str idx
  | LogProcessing d idx =>
      "Processing " ++ path_str d ++ " (index among siblings: " ++ str idx
      ++ ")"
  | LogRenamed src dst => "RENAMED: " ++ path_str src ++ " -> " ++ path_str dst
  | LogError src exc =>
      "ERROR: Failed to rename " ++ path_str src ++ ": " ++ exn_str exc
  | LogDone total => "DONE. Total files renamed: " ++ str total
  end%string.

(** [strftime k] is what [time.strftime("%H:%M:%S")] gives when the worker
    logs its message number [k]; [elapsed] is the time the run took,
    formatted with two decimals. *)
Variable strftime : nat -> string.
Variable elapsed : string.

(** [_log(msg)], the [k]-th call. *)
Definition _log (k : nat) (msg : string) (log_queue : list string)
  : list string :=
  log_queue ++ [("[" ++ strftime k ++ "] " ++ msg)%string].

Fixpoint log_all (k : nat) (msgs : list string) (log_queue : list string)
  : list string :=
  match msgs with
  | [] => log_queue
  | msg :: rest => log_all (S k) rest (_log k msg log_queue)
  end.

(** The line the worker logs when the run is over. *)
Definition verdict (r : result nat) : string :=
  match r with
  | Ok total =>
      "SUCCESS: Renamed " ++ str total ++ " files in " ++ elapsed ++ "s"
  | Raise exc => "FAILED after " ++ elapsed ++ "s with error: " ++ exn_str exc
  end%string.

Variable pf : platform.
Variable uuid4_hex : nat -> string.
Variable limit : nat.

(** [_worker(root, include_root_files, log_queue)]: the file system and
    the queue when the thread is over. The sink of the run is [_log]: the
    events of the run are logged in the order they were sent, between the
    first line and the verdict; the sentinel is put last, whatever the run
    did. *)
Definition _worker (root : path) (include_root_files : bool) (fs : node)
  (log_queue : list string) : option (node * list string) :=
  match rename_tree pf uuid4_hex limit root include_root_files true fs with
  | None => None
  | Some (r, w') =>
      Some (w_fs w',
            log_all 0
              (("Start processing: " ++ path_str root)%string
               :: map message (w_out w') ++ [verdict r])
              log_queue
            ++ ["__DONE__"])
  end.
End Messages.

(** What the event loop keeps: the flag [running], the text of the log
    box and the state of the Start button. *)
Record window : Type := mkWindow {
  running : bool;
  LOG : string;
  START_disabled : bool;
  START_text : string
}.

(** The window when the loop starts. *)
Definition window0 : window := mkWindow false "" false "Start".

Definition newline : string := String (ascii_of_nat 10) EmptyString.

(** One turn of the pump: a message taken from the queue. *)
Definition pump_one (u : window) (msg : string) : window :=
  if String.eqb msg "__DONE__"
  then mkWindow false (LOG u) false "Start"
  else mkWindow (running u) (LOG u ++ (msg ++ newline))%string
         (START_disabled u) (START_text u).

(** The pump, on the messages it finds in the queue until it is empty. *)
Definition pump (msgs : list string) (u : window) : window :=
  fold_left pump_one msgs u.

(** [str.strip()]: the white space of Python's [str.isspace]. *)
Definition is_space (c : ascii) : bool :=
  ((9 <=? code c) && (code c <=? 13)
   || (28 <=? code c) && (code c <=? 32)
   || (code c =? 133) || (code c =? 160))%N.

Fixpoint lstrip (s : string) : string :=
  match s with
  | EmptyString => EmptyString
  | String c s' => if is_space c then lstrip s' else s
  end.

Fixpoint rstrip (s : string) : string :=
  match s with
  | EmptyString => EmptyString
  | String c s' =>
      match rstrip s' with
      | EmptyString => if is_space c then EmptyString else String c EmptyString
      | t => String c t
      end
  end.

Definition strip (s : string) : string := rstrip (lstrip s).

(** The values of the form. *)
Record values : Type := mkValues {
  FOLDER : string;
  INCLUDE_ROOT : bool
}.

(** What the handler of the Start button asks for. *)
Inductive reaction : Type :=
| Nothing
| PopupError (msg : string)
| StartWorker (root : path) (include_root : bool).

Section Window.
(** [Path(folder_str)] *)
Variable Path : string -> path.

(** The handler of the Start button. *)
Definition on_start (fs : node) (vals : values) (u : window)
  : window * reaction :=
  if running u then (u, Nothing)
  else
    let folder_str := strip (FOLDER vals) in
    let include_root := INCLUDE_ROOT vals in
    if negb (nonempty folder_str)
    then (u, PopupError "Please select a root folder.")
    else
      let root := Path folder_str in
      if negb (exists_ fs root) || negb (is_dir fs root)
      then (u, PopupError "Selected path is not a directory.")
      else (mkWindow true "" true "Running...", StartWorker root include_root).

(** What [window.read] returns. *)
Inductive gui_event : Type :=
| WIN_CLOSED
| START (vals : values)
| OTHER.

Variable path_str : path -> string.
Variable exn_str : exn -> string.
Variable strftime : nat -> string.
Variable elapsed : string.
Variable pf : platform.
Variable uuid4_hex : nat -> string.
Variable limit : nat.

(** The application between two turns of the event loop: the window, the
    file system and what the worker thread has still to put on the queue.
    The pump leaves the queue empty, so the queue itself is not kept. The
    renames of a worker are taken at once when it is started: the loop
    looks at the file system in the handler of the Start button only. *)
Record session : Type := mkSession {
  win : window;
  disk : node;
  todo : list string
}.

Definition session0 (fs : node) : session := mkSession window0 fs [].

(** One turn of the event loop; [k] is the number of messages the worker
    has put on the queue since the last turn. [None]: the loop is left. *)
Definition turn (ev : gui_event) (k : nat) (a : session) : option session :=
  match ev with
  | WIN_CLOSED => None
  | OTHER =>
      Some (mkSession (pump (firstn k (todo a)) (win a)) (disk a)
              (skipn k (todo a)))
  | START vals =>
      let u := pump (firstn k (todo a)) (win a) in
      match on_start (disk a) vals u with
      | (u', StartWorker root include_root) =>
          match
            _worker path_str exn_str strftime elapsed pf uuid4_hex limit
              root include_root (disk a) []
          with
          | Some (fs', out) => Some (mkSession u' fs' (skipn k (todo a) ++ out))
          | None => None
          end
      | (u', _) => Some (mkSession u' (disk a) (skipn k (todo a)))
      end
  end.

(** The turns of the loop, until it is left or the events are over. *)
Fixpoint turns (evs : list (gui_event * nat)) (a : session) : session :=
  match evs with
  | [] => a
  | (ev, k) :: rest =>
      match turn ev k a with
      | Some a' => turns rest a'
      | None => a
      end
  end.
End Window.

(** The window is idle and no worker has anything left to put, or it is
    busy and what the worker has still to put ends with the sentinel, its
    only one. *)
Definition settled (a : session) : Prop :=
  (todo a = [] /\ running (win a) = false /\
   START_disabled (win a) = false /\ START_text (win a) = "Start") \/
  (exists lines,
     todo a = lines ++ ["__DONE__"] /\
     Forall (fun l => String.eqb l "__DONE__" = false) lines /\
     running (win a) = true /\
     START_disabled (win a) = true /\ START_text (win a) = "Running...").

(* ================================================================== *)
(** * Properties *)

(** ** natural_key *)

Lemma bind_ok {A B} (m : result A) (k : A -> result B) (b : B) :
  bind m k = Ok b -> exists a, m = Ok a /\ k a = Ok b.
Proof.
  destruct m as [a|e]; simpl; intros H; [exists a; auto | discriminate].
Qed.

Lemma mapM_ok_cons {A B} (f : A -> result B) a l r :
  mapM f (a :: l) = Ok r ->
  exists b bs, f a = Ok b /\ mapM f l = Ok bs /\ r = b :: bs.
Proof.
  simpl. intros H.
  apply bind_ok in H. destruct H as [b [Hb H]].
  apply bind_ok in H. destruct H as [bs [Hbs H]].
  inversion H. eauto.
Qed.

Lemma forallb_string_snoc f s c :
  forallb_string f (snoc s c) = forallb_string f s && f c.
Proof.
  unfold snoc. induction s as [|a s IH]; simpl.
  - now rewrite andb_true_r.
  - rewrite IH. now rewrite andb_assoc.
Qed.

Lemma nonempty_snoc s c : nonempty (snoc s c) = true.
Proof. destruct s; reflexivity. Qed.

Lemma split_scan_alt s : forall (d : bool) cur,
  (if d then nonempty cur && forallb_string is_decimal cur
   else forallb_string (fun c => negb (is_decimal c)) cur) = true ->
  parts_alt d (split_scan s d cur) = true.
Proof.
  induction s as [|c s IH]; intros d cur H.
  - destruct d; simpl; rewrite H; reflexivity.
  - simpl. destruct (is_decimal c) eqn:Hc, d; simpl.
    + apply IH. rewrite nonempty_snoc, forallb_string_snoc, Hc.
      apply andb_true_iff in H. destruct H as [_ H]. now rewrite H.
    + rewrite H. simpl. apply IH. simpl. now rewrite Hc.
    + rewrite H. simpl. apply IH. simpl. now rewrite Hc.
    + apply IH. rewrite forallb_string_snoc, Hc, H. reflexivity.
Qed.

Lemma regex_split_alt text : parts_alt false (regex_split text) = true.
Proof. apply split_scan_alt. reflexivity. Qed.

Lemma decimal_is_digit c : is_decimal c = true -> is_digit_char c = true.
Proof. unfold is_digit_char. intros ->. reflexivity. Qed.

Lemma forallb_string_impl (f g : ascii -> bool) s :
  (forall c, f c = true -> g c = true) ->
  forallb_string f s = true -> forallb_string g s = true.
Proof.
  intros Hfg. induction s as [|c s IH]; simpl; auto.
  intros H. apply andb_true_iff in H. destruct H as [Hc Hs].
  rewrite (Hfg _ Hc), (IH Hs). reflexivity.
Qed.

Lemma lower_char_not_decimal c :
  is_decimal c = false -> is_decimal (lower_char c) = false.
Proof.
  destruct c as [[] [] [] [] [] [] [] []]; vm_compute; congruence.
Qed.

Lemma lower_char_idem c : lower_char (lower_char c) = lower_char c.
Proof. destruct c as [[] [] [] [] [] [] [] []]; reflexivity. Qed.

Lemma lower_idem s : lower (lower s) = lower s.
Proof.
  induction s as [|c s IH]; simpl; [reflexivity|].
  now rewrite lower_char_idem, IH.
Qed.

Lemma lower_no_decimal s :
  forallb_string (fun c => negb (is_decimal c)) s = true ->
  forallb_string (fun c => negb (is_decimal c)) (lower s) = true.
Proof.
  induction s as [|c s IH]; simpl; auto.
  intros H. apply andb_true_iff in H. destruct H as [Hc Hs].
  rewrite (IH Hs), andb_true_r.
  apply negb_true_iff in Hc. now rewrite (lower_char_not_decimal _ Hc).
Qed.

Lemma key_token_digits p n :
  nonempty p && forallb_string is_decimal p = true ->
  key_token p = Ok n -> is_int n = true.
Proof.
  intros Hp. unfold key_token, isdigit.
  apply andb_true_iff in Hp. destruct Hp as [Hne Hd].
  rewrite Hne, (forallb_string_impl _ _ _ decimal_is_digit Hd). simpl.
  unfold int. rewrite Hne, Hd. simpl. intros H. inversion H. reflexivity.
Qed.

Lemma no_decimal_not_int p :
  forallb_string (fun c => negb (is_decimal c)) p = true ->
  nonempty p && forallb_string is_decimal p = false.
Proof.
  destruct p as [|c p]; simpl; auto.
  intros H. apply andb_true_iff in H. destruct H as [Hc _].
  apply negb_true_iff in Hc. now rewrite Hc.
Qed.

Lemma key_token_text p t :
  forallb_string (fun c => negb (is_decimal c)) p = true ->
  key_token p = Ok t -> is_text t = true.
Proof.
  intros Hp. unfold key_token.
  destruct (isdigit p).
  - unfold int. rewrite (no_decimal_not_int _ Hp). simpl. discriminate.
  - intros H. inversion H. simpl.
    rewrite (lower_no_decimal _ Hp), lower_idem, String.eqb_refl. reflexivity.
Qed.

Lemma mapM_key_alt ps : forall (d : bool) k,
  parts_alt d ps = true -> mapM key_token ps = Ok k -> key_alt d k = true.
Proof.
  induction ps as [|p ps IH]; intros d k Hps Hk.
  - simpl in Hk. inversion Hk. exact Hps.
  - apply mapM_ok_cons in Hk. destruct Hk as [t [k' [Ht [Hk' ->]]]].
    simpl in Hps. apply andb_true_iff in Hps. destruct Hps as [Hp Hps].
    simpl. rewrite (IH _ _ Hps Hk'), andb_true_r.
    destruct d.
    + eapply key_token_digits; eauto.
    + eapply key_token_text; eauto.
Qed.

(** Whenever [natural_key] returns, the key is text, integer, text, ... and
    ends with a text. *)
Lemma natural_key_alt text k :
  natural_key text = Ok k -> key_alt false k = true.
Proof. apply mapM_key_alt, regex_split_alt. Qed.

(** ** The order on keys *)

Lemma ascii_compare_refl c : Ascii.compare c c = Eq.
Proof. apply N.compare_refl. Qed.

Lemma string_compare_refl s : String.compare s s = Eq.
Proof.
  induction s as [|c s IH]; simpl; [reflexivity|].
  now rewrite ascii_compare_refl.
Qed.

Lemma string_compare_trans a : forall b c,
  String.compare a b = Lt -> String.compare b c = Lt ->
  String.compare a c = Lt.
Proof.
  induction a as [|x a IH]; intros [|y b] [|z c]; simpl; try congruence.
  intros H1 H2.
  destruct (Ascii.compare x y) eqn:Exy; try discriminate;
    destruct (Ascii.compare y z) eqn:Eyz; try discriminate.
  - apply Ascii.compare_eq_iff in Exy, Eyz. subst.
    rewrite ascii_compare_refl. eauto.
  - apply Ascii.compare_eq_iff in Exy. subst. now rewrite Eyz.
  - apply Ascii.compare_eq_iff in Eyz. subst. now rewrite Exy.
  - unfold Ascii.compare in *.
    rewrite N.compare_lt_iff in Exy, Eyz.
    assert (H : (N_of_ascii x < N_of_ascii z)%N) by lia.
    rewrite <- N.compare_lt_iff in H. now rewrite H.
Qed.

Lemma string_ltb_irrefl s : String.ltb s s = false.
Proof. unfold String.ltb. now rewrite string_compare_refl. Qed.

Lemma string_ltb_trans a b c :
  String.ltb a b = true -> String.ltb b c = true -> String.ltb a c = true.
Proof.
  unfold String.ltb. intros H1 H2.
  destruct (String.compare a b) eqn:E1; try discriminate.
  destruct (String.compare b c) eqn:E2; try discriminate.
  now rewrite (string_compare_trans _ _ _ E1 E2).
Qed.

Lemma string_ltb_total a b :
  String.ltb a b = true \/ a = b \/ String.ltb b a = true.
Proof.
  unfold String.ltb. rewrite (String.compare_antisym b a).
  destruct (String.compare a b) eqn:E; simpl; auto.
  right. left. now apply String.compare_eq_iff.
Qed.

Lemma string_ltb_asym a b :
  String.ltb a b = true -> String.ltb b a = false.
Proof.
  unfold String.ltb. rewrite (String.compare_antisym b a).
  destruct (String.compare a b); simpl; congruence.
Qed.

Lemma token_eqb_eq a b : token_eqb a b = true <-> a = b.
Proof.
  destruct a as [x|x], b as [y|y]; simpl; split; intros H;
    try discriminate; try (inversion H; subst).
  - apply N.eqb_eq in H. now subst.
  - apply N.eqb_refl.
  - apply String.eqb_eq in H. now subst.
  - apply String.eqb_refl.
Qed.

Lemma token_eqb_refl a : token_eqb a a = true.
Proof. now apply token_eqb_eq. Qed.

Lemma token_eqb_sym a b : token_eqb a b = token_eqb b a.
Proof.
  destruct a, b; simpl; auto using N.eqb_sym, String.eqb_sym.
Qed.

(** Two tokens of the kind expected at one position. *)
Definition same_kind (d : bool) (a b : token) : Prop :=
  (if d then is_int a else is_text a) = true /\
  (if d then is_int b else is_text b) = true.

Lemma token_lt_defined d a b :
  same_kind d a b -> exists r, token_lt a b = Ok r.
Proof.
  intros [Ha Hb].
  destruct d, a, b; simpl in *; try discriminate; eauto.
Qed.

Lemma token_lt_total d a b :
  same_kind d a b ->
  token_lt a b = Ok true \/ a = b \/ token_lt b a = Ok true.
Proof.
  intros [Ha Hb].
  destruct d, a as [x|x], b as [y|y]; simpl in *; try discriminate.
  - destruct (N.ltb_spec x y); auto.
    destruct (N.ltb_spec y x); auto.
    right. left. f_equal. lia.
  - destruct (string_ltb_total x y) as [H|[H|H]]; subst; auto.
    + now rewrite H; auto.
    + rewrite H; auto.
Qed.

Lemma key_lt_defined a : forall d b,
  key_alt d a = true -> key_alt d b = true -> exists r, key_lt a b = Ok r.
Proof.
  induction a as [|x a IH]; intros d [|y b] Ha Hb; simpl; eauto.
  simpl in Ha, Hb.
  apply andb_true_iff in Ha, Hb. destruct Ha as [Hx Ha], Hb as [Hy Hb].
  destruct (token_eqb x y).
  - eapply IH; eauto.
  - eapply token_lt_defined. split; eauto.
Qed.

Lemma key_lt_irrefl a : key_lt a a = Ok false \/ exists e, key_lt a a = Raise e.
Proof.
  induction a as [|x a IH]; simpl; auto.
  now rewrite token_eqb_refl.
Qed.

Lemma key_lt_irrefl_true a : key_lt a a <> Ok true.
Proof.
  destruct (key_lt_irrefl a) as [H|[e H]]; rewrite H; discriminate.
Qed.

Lemma key_lt_total a : forall d b,
  key_alt d a = true -> key_alt d b = true ->
  key_lt a b = Ok true \/ a = b \/ key_lt b a = Ok true.
Proof.
  induction a as [|x a IH]; intros d [|y b] Ha Hb; simpl; auto.
  simpl in Ha, Hb.
  apply andb_true_iff in Ha, Hb. destruct Ha as [Hx Ha], Hb as [Hy Hb].
  rewrite (token_eqb_sym y x).
  destruct (token_eqb x y) eqn:E.
  - apply token_eqb_eq in E. subst y.
    destruct (IH _ _ Ha Hb) as [H|[H|H]]; subst; auto.
  - destruct (token_lt_total d x y) as [H|[H|H]]; auto.
    + split; auto.
    + subst. rewrite token_eqb_refl in E. discriminate.
Qed.

Lemma token_lt_asym a b : token_lt a b = Ok true -> token_lt b a = Ok false.
Proof.
  destruct a as [x|x], b as [y|y]; simpl; try discriminate; intros H;
    inversion H as [H']; f_equal.
  - apply N.ltb_lt in H'. apply N.ltb_ge. lia.
  - now apply string_ltb_asym.
Qed.

Lemma key_lt_asym a : forall b, key_lt a b = Ok true -> key_lt b a = Ok false.
Proof.
  induction a as [|x a IH]; intros [|y b]; simpl; try discriminate; auto.
  rewrite (token_eqb_sym y x).
  destruct (token_eqb x y); auto using token_lt_asym.
Qed.

Lemma token_lt_trans a b c :
  token_lt a b = Ok true -> token_lt b c = Ok true -> token_lt a c = Ok true.
Proof.
  destruct a as [x|x], b as [y|y], c as [z|z]; simpl; try discriminate;
    intros H1 H2; injection H1 as H1'; injection H2 as H2'; f_equal.
  - apply N.ltb_lt in H1', H2'. apply N.ltb_lt. lia.
  - eapply string_ltb_trans; eauto.
Qed.

Lemma token_lt_neq a b : token_lt a b = Ok true -> token_eqb a b = false.
Proof.
  intros H. destruct (token_eqb a b) eqn:E; auto.
  apply token_eqb_eq in E. subst.
  destruct b; simpl in H; inversion H as [H'].
  - apply N.ltb_lt in H'. lia.
  - now rewrite string_ltb_irrefl in H'.
Qed.

Lemma key_lt_trans a : forall b c,
  key_lt a b = Ok true -> key_lt b c = Ok true -> key_lt a c = Ok true.
Proof.
  induction a as [|x a IH]; intros [|y b] [|z c]; simpl; try discriminate;
    auto.
  destruct (token_eqb x y) eqn:Exy.
  - apply token_eqb_eq in Exy. subst y.
    destruct (token_eqb x z); eauto.
  - destruct (token_eqb y z) eqn:Eyz.
    + apply token_eqb_eq in Eyz. subst z. rewrite Exy. auto.
    + intros H1 H2.
      pose proof (token_lt_trans _ _ _ H1 H2) as H3.
      now rewrite (token_lt_neq _ _ H3).
Qed.

(** ** list.sort(key=...) *)


Lemma mapM_ok_iff {A B} (f : A -> result B) l :
  (exists r, mapM f l = Ok r) <-> Forall (fun a => exists b, f a = Ok b) l.
Proof.
  induction l as [|a l IH]; simpl.
  - split; eauto.
  - split.
    + intros [r H]. apply bind_ok in H. destruct H as [b [Hb H]].
      apply bind_ok in H. destruct H as [bs [Hbs _]].
      constructor; [eauto | apply IH; eauto].
    + intros H. inversion H as [|? ? [b Hb] Hl]; subst.
      apply IH in Hl. destruct Hl as [bs Hbs].
      rewrite Hb, Hbs. simpl. eauto.
Qed.

Lemma mapM_length {A B} (f : A -> result B) l : forall r,
  mapM f l = Ok r -> List.length r = List.length l.
Proof.
  induction l as [|a l IH]; intros r H.
  - inversion H. reflexivity.
  - apply mapM_ok_cons in H. destruct H as [b [bs [_ [Hbs ->]]]].
    simpl. now rewrite (IH _ Hbs).
Qed.

Lemma mapM_raise {A B} (f : A -> result B) l e :
  mapM f l = Raise e -> exists a, In a l /\ f a = Raise e.
Proof.
  induction l as [|a l IH]; simpl; [discriminate|].
  destruct (f a) as [b|e'] eqn:Ha; simpl.
  - destruct (mapM f l) as [bs|e'']; simpl; [discriminate|].
    intros H. inversion H. subst.
    destruct IH as [a' [Hin Ha']]; eauto.
  - intros H. inversion H. subst. eauto.
Qed.

Section SortFacts.
Context {A K : Type}.
Variable key : A -> result K.
Variable lt : K -> K -> result bool.
Variable good : K -> Prop.

Hypothesis lt_defined :
  forall a b, good a -> good b -> exists r, lt a b = Ok r.
Hypothesis lt_trans :
  forall a b c, lt a b = Ok true -> lt b c = Ok true -> lt a c = Ok true.
Hypothesis lt_asym :
  forall a b, lt a b = Ok true -> lt b a = Ok false.
Hypothesis lt_total :
  forall a b, good a -> good b ->
  lt a b = Ok true \/ a = b \/ lt b a = Ok true.
Hypothesis key_good : forall a k, key a = Ok k -> good k.

Lemma not_before_trans (x y z : K * A) :
  good (fst x) -> good (fst y) -> good (fst z) ->
  not_before lt x y -> not_before lt y z -> not_before lt x z.
Proof using lt_defined lt_trans lt_asym lt_total.
  unfold not_before. intros Hx Hy Hz Hxy Hyz.
  destruct (lt_defined _ _ Hz Hx) as [[] Hzx]; auto.
  exfalso.
  destruct (lt_total _ _ Hx Hy) as [H|[H|H]].
  - pose proof (lt_trans _ _ _ Hzx H). congruence.
  - rewrite H in Hzx. congruence.
  - congruence.
Qed.

Lemma insert_sorted_perm (x : K * A) l : forall r,
  insert_sorted lt x l = Ok r -> Permutation (x :: l) r.
Proof using Type.
  induction l as [|y l IH]; intros r H; simpl in H.
  - inversion H. auto.
  - apply bind_ok in H. destruct H as [b [_ H]]. destruct b.
    + apply bind_ok in H. destruct H as [r' [Hr' H]]. inversion H.
      rewrite perm_swap. constructor. auto.
    + inversion H. auto.
Qed.

Lemma sort_decorated_perm (l : list (K * A)) : forall r,
  sort_decorated lt l = Ok r -> Permutation l r.
Proof using Type.
  induction l as [|x l IH]; intros r H; simpl in H.
  - inversion H. auto.
  - apply bind_ok in H. destruct H as [s [Hs H]].
    apply insert_sorted_perm in H.
    rewrite <- H. constructor. auto.
Qed.

Lemma mapM_decorate_snd l : forall d,
  mapM (decorate key) l = Ok d -> map snd d = l.
Proof using Type.
  induction l as [|a l IH]; intros d H.
  - inversion H. reflexivity.
  - apply mapM_ok_cons in H. destruct H as [b [bs [Hb [Hbs ->]]]].
    unfold decorate in Hb. apply bind_ok in Hb.
    destruct Hb as [k [_ Hb]]. inversion Hb. simpl.
    now rewrite (IH _ Hbs).
Qed.

Lemma mapM_decorate_good l : forall d,
  mapM (decorate key) l = Ok d ->
  Forall (fun x => key (snd x) = Ok (fst x)) d.
Proof using Type.
  induction l as [|a l IH]; intros d H.
  - inversion H. constructor.
  - apply mapM_ok_cons in H. destruct H as [b [bs [Hb [Hbs ->]]]].
    unfold decorate in Hb. apply bind_ok in Hb.
    destruct Hb as [k [Hk Hb]]. inversion Hb.
    constructor; auto.
Qed.

Theorem sort_by_perm l s : sort_by key lt l = Ok s -> Permutation l s.
Proof using Type.
  unfold sort_by. intros H.
  apply bind_ok in H. destruct H as [d [Hd H]].
  apply bind_ok in H. destruct H as [s' [Hs' H]]. inversion H.
  rewrite <- (mapM_decorate_snd _ _ Hd).
  apply Permutation_map. now apply sort_decorated_perm.
Qed.

Lemma insert_sorted_ok (x : K * A) l :
  good (fst x) -> Forall (fun y => good (fst y)) l ->
  exists r, insert_sorted lt x l = Ok r.
Proof using lt_defined.
  intros Hx. induction l as [|y l IH]; intros Hl; simpl; eauto.
  inversion Hl as [|? ? Hy Hl']; subst.
  destruct (lt_defined _ _ Hy Hx) as [[] ->]; simpl; eauto.
  destruct (IH Hl') as [r ->]. simpl. eauto.
Qed.

Lemma sort_decorated_ok (l : list (K * A)) :
  Forall (fun y => good (fst y)) l ->
  exists r, sort_decorated lt l = Ok r.
Proof using lt_defined.
  induction l as [|x l IH]; intros Hl; simpl; eauto.
  inversion Hl as [|? ? Hx Hl']; subst.
  destruct (IH Hl') as [s Hs]. rewrite Hs. simpl.
  apply insert_sorted_ok; auto.
  eapply Permutation_Forall; [|exact Hl'].
  now apply sort_decorated_perm.
Qed.

(** The sort returns as soon as every element has a key. *)
Theorem sort_by_ok l :
  Forall (fun a => exists k, key a = Ok k) l ->
  exists s, sort_by key lt l = Ok s.
Proof using lt_defined key_good.
  intros Hl. unfold sort_by.
  assert (Hd : exists d, mapM (decorate key) l = Ok d).
  { apply mapM_ok_iff. eapply Forall_impl; [|exact Hl].
    intros a [k Hk]. unfold decorate. rewrite Hk. simpl. eauto. }
  destruct Hd as [d Hd]. rewrite Hd. simpl.
  destruct (sort_decorated_ok d) as [s Hs].
  - eapply Forall_impl; [|apply (mapM_decorate_good _ _ Hd)].
    intros x Hx. simpl in Hx. eapply key_good; exact Hx.
  - rewrite Hs. simpl. eauto.
Qed.

Lemma insert_sorted_sorted (x : K * A) l : forall r,
  good (fst x) -> Forall (fun y => good (fst y)) l ->
  StronglySorted (not_before lt) l ->
  insert_sorted lt x l = Ok r -> StronglySorted (not_before lt) r.
Proof using lt_defined lt_trans lt_asym lt_total.
  induction l as [|y l IH]; intros r Hx Hl Hs H; simpl in H.
  - inversion H. repeat constructor.
  - inversion Hl as [|? ? Hy Hl']; subst.
    inversion Hs as [|? ? Hs' Hyl]; subst.
    apply bind_ok in H. destruct H as [b [Hb H]]. destruct b.
    + apply bind_ok in H. destruct H as [r' [Hr' H]]. inversion H.
      constructor; [eapply IH; eauto|].
      eapply Permutation_Forall; [apply (insert_sorted_perm _ _ _ Hr')|].
      constructor; auto.
      unfold not_before. now apply lt_asym.
    + inversion H. constructor; [exact Hs|].
      constructor; [exact Hb|].
      rewrite Forall_forall in Hyl, Hl' |- *.
      intros z Hz. eapply (not_before_trans x y z); eauto.
Qed.

Lemma sort_decorated_sorted (l : list (K * A)) : forall r,
  Forall (fun y => good (fst y)) l ->
  sort_decorated lt l = Ok r -> StronglySorted (not_before lt) r.
Proof using lt_defined lt_trans lt_asym lt_total.
  induction l as [|x l IH]; intros r Hl H; simpl in H.
  - inversion H. constructor.
  - inversion Hl as [|? ? Hx Hl']; subst.
    apply bind_ok in H. destruct H as [s [Hs H]].
    apply (insert_sorted_sorted x s r Hx); auto.
    eapply Permutation_Forall; [|exact Hl'].
    apply sort_decorated_perm. exact Hs.
Qed.

Theorem sort_by_sorted l s : sort_by key lt l = Ok s -> key_sorted key lt s.
Proof using lt_defined lt_trans lt_asym lt_total key_good.
  unfold sort_by. intros H.
  apply bind_ok in H. destruct H as [d [Hd H]].
  apply bind_ok in H. destruct H as [s' [Hs' H]]. inversion H. clear H.
  pose proof (mapM_decorate_good _ _ Hd) as Hk.
  assert (Hk' : Forall (fun x => key (snd x) = Ok (fst x)) s').
  { eapply Permutation_Forall; [|exact Hk].
    now apply sort_decorated_perm. }
  assert (Hsorted : StronglySorted (not_before lt) s').
  { eapply sort_decorated_sorted; [|exact Hs'].
    eapply Forall_impl; [|exact Hk].
    intros x Hx. simpl in Hx. eapply key_good; exact Hx. }
  clear - Hk' Hsorted. unfold key_sorted.
  induction Hsorted as [|x s' Hs IH Hx]; simpl; [constructor|].
  inversion Hk' as [|? ? Hkx Hks]; subst.
  constructor; [auto|].
  rewrite Forall_forall in Hx, Hks |- *.
  intros b Hb. apply in_map_iff in Hb. destruct Hb as [y [<- Hy]].
  exists (fst x), (fst y). repeat split; auto. now apply Hx.
Qed.

(** The sort raises only what computing a key or comparing two keys
    raises. *)
Theorem sort_by_raise l e :
  sort_by key lt l = Raise e ->
  (exists a, In a l /\ key a = Raise e) \/
  (exists a b, lt a b = Raise e).
Proof using Type.
  unfold sort_by. intros H.
  destruct (mapM (decorate key) l) as [d|e'] eqn:Hd; simpl in H.
  - right.
    destruct (sort_decorated lt d) as [s|e''] eqn:Hs; simpl in H;
      [discriminate|]. inversion H. subst e''. clear - Hs.
    revert Hs. induction d as [|x d IH]; simpl; [discriminate|].
    destruct (sort_decorated lt d) as [s|e'] eqn:Hs; simpl.
    + clear. induction s as [|y s IHs]; simpl; [discriminate|].
      destruct (lt (fst y) (fst x)) as [[]|e'] eqn:Hlt; simpl.
      * destruct (insert_sorted lt x s); simpl; [discriminate|].
        intros H. inversion H. subst. auto.
      * discriminate.
      * intros H. inversion H. subst. eauto.
    + intros H. inversion H. subst. auto.
  - left. inversion H. subst e'.
    apply mapM_raise in Hd. destruct Hd as [a [Hin Ha]].
    exists a. split; auto.
    unfold decorate in Ha. destruct (key a); simpl in Ha; congruence.
Qed.
End SortFacts.

(** ** Sorting paths by the natural key of their names *)

Lemma natural_key_raise text e : natural_key text = Raise e -> e = ValueError.
Proof.
  unfold natural_key. intros H.
  apply mapM_raise in H. destruct H as [p [_ Hp]].
  unfold key_token, int in Hp.
  destruct (isdigit p); [|discriminate].
  destruct (nonempty p && forallb_string is_decimal p); simpl in Hp;
    congruence.
Qed.

Lemma key_lt_good_defined a b :
  good_key a -> good_key b -> exists r, key_lt a b = Ok r.
Proof. intros Ha Hb. eapply key_lt_defined; eauto. Qed.

Lemma key_lt_good_total a b :
  good_key a -> good_key b ->
  key_lt a b = Ok true \/ a = b \/ key_lt b a = Ok true.
Proof. intros Ha Hb. eapply key_lt_total; eauto. Qed.

Lemma path_key_good (p : path) k : natural_key (name p) = Ok k -> good_key k.
Proof. apply natural_key_alt. Qed.

Lemma sort_natural_perm ps s : sort_natural ps = Ok s -> Permutation ps s.
Proof. apply sort_by_perm. Qed.

Lemma sort_natural_ok ps :
  Forall (fun p => has_key (name p)) ps -> exists s, sort_natural ps = Ok s.
Proof.
  apply (sort_by_ok _ _ good_key key_lt_good_defined path_key_good).
Qed.

Lemma sort_natural_sorted ps s :
  sort_natural ps = Ok s ->
  key_sorted (fun p => natural_key (name p)) key_lt s.
Proof.
  apply (sort_by_sorted _ _ good_key key_lt_good_defined key_lt_trans
           key_lt_asym key_lt_good_total path_key_good).
Qed.

Lemma sort_natural_raise ps e : sort_natural ps = Raise e -> e = ValueError.
Proof.
  unfold sort_natural, sort_by. intros H.
  destruct (mapM (decorate (fun p => natural_key (name p))) ps)
    as [d|e'] eqn:Hd; simpl in H.
  - exfalso.
    pose proof (mapM_decorate_good _ _ _ Hd) as Hk.
    destruct (sort_decorated_ok key_lt good_key key_lt_good_defined d)
      as [s Hs].
    + eapply Forall_impl; [|exact Hk].
      intros x Hx. simpl in Hx. eapply path_key_good. exact Hx.
    + rewrite Hs in H. discriminate.
  - inversion H. subst e'.
    apply mapM_raise in Hd. destruct Hd as [a [_ Ha]].
    unfold decorate in Ha.
    destruct (natural_key (name a)) eqn:Hn; simpl in Ha; [discriminate|].
    inversion Ha. subst. eapply natural_key_raise; eauto.
Qed.

Lemma sort_natural_in ps s p : sort_natural ps = Ok s -> In p s <-> In p ps.
Proof.
  intros H. apply sort_natural_perm in H.
  split; apply Permutation_in; [now symmetry | assumption].
Qed.

(** ** Paths and lookups *)

Lemma path_eqb_eq p q : path_eqb p q = true <-> p = q.
Proof.
  unfold path_eqb. destruct (list_eq_dec string_dec p q); split; congruence.
Qed.

Lemma path_eqb_refl p : path_eqb p p = true.
Proof. now apply path_eqb_eq. Qed.

Lemma path_eqb_neq p q : path_eqb p q = false <-> p <> q.
Proof.
  unfold path_eqb. destruct (list_eq_dec string_dec p q); split; congruence.
Qed.

Lemma parent_snoc (p : path) c : parent (p ++ [c]) = p.
Proof. apply removelast_last. Qed.

Lemma name_snoc (p : path) c : name (p ++ [c]) = c.
Proof. apply last_last. Qed.

Lemma with_name_snoc (p : path) c n : with_name (p ++ [c]) n = p ++ [n].
Proof. unfold with_name. now rewrite parent_snoc. Qed.

Lemma path_snoc_inv (p : path) :
  p <> [] -> p = parent p ++ [name p].
Proof. intros H. now apply app_removelast_last. Qed.

Lemma lookup_app fs p : forall q,
  lookup fs (p ++ q) =
  match lookup fs p with
  | Some n => lookup n q
  | None => None
  end.
Proof.
  revert fs. induction p as [|c p IH]; intros fs q; simpl; [reflexivity|].
  destruct fs as [|l es]; [reflexivity|].
  destruct (assoc c es); auto.
Qed.

Lemma lookup_file_below l d q : q <> [] -> lookup (File l d) q = None.
Proof. destruct q; [congruence | reflexivity]. Qed.

Lemma lookup_snoc fs p c :
  lookup fs (p ++ [c]) =
  match lookup fs p with
  | Some (Dir _ es) => assoc c es
  | _ => None
  end.
Proof.
  rewrite lookup_app. destruct (lookup fs p) as [[|l es]|]; simpl; auto.
  destruct (assoc c es); auto.
Qed.

Lemma is_dir_prefix fs p q : is_dir fs (p ++ q) = true -> is_dir fs p = true.
Proof.
  unfold is_dir. rewrite lookup_app.
  destruct (lookup fs p) as [[l d|l es]|]; auto.
  destruct q; simpl; discriminate.
Qed.

Lemma is_dir_parent fs p : is_dir fs p = true -> is_dir fs (parent p) = true.
Proof.
  destruct p as [|c p'] using rev_ind; [auto|].
  rewrite parent_snoc. apply is_dir_prefix.
Qed.

Lemma iterdir_dir fs p e :
  is_dir fs p = true -> iterdir fs p = Raise e -> e = PermissionError.
Proof.
  unfold is_dir, iterdir.
  destruct (lookup fs p) as [[|[] es]|]; congruence.
Qed.

Lemma iterdir_in fs p ps q :
  iterdir fs p = Ok ps -> In q ps -> exists c, q = p ++ [c].
Proof.
  unfold iterdir.
  destruct (lookup fs p) as [[|[] es]|]; try discriminate.
  intros H Hq. inversion H. subst.
  apply in_map_iff in Hq. destruct Hq as [[c n] [<- _]]. eauto.
Qed.

Lemma assoc_in c es n : assoc c es = Some n -> In (c, n) es.
Proof.
  induction es as [|[k v] es IH]; simpl; [discriminate|].
  destruct (String.eqb_spec k c).
  - intros H. inversion H. subst. auto.
  - auto.
Qed.

Lemma assoc_some_in c es n : In (c, n) es -> exists m, assoc c es = Some m.
Proof.
  induction es as [|[k v] es IH]; simpl; [tauto|].
  intros [H|H].
  - inversion H. subst. rewrite String.eqb_refl. eauto.
  - destruct (String.eqb k c); eauto.
Qed.

(** A directory strictly below [p], listed by [iterdir]. *)
Lemma iterdir_complete fs p ps c :
  iterdir fs p = Ok ps -> exists_ fs (p ++ [c]) = true -> In (p ++ [c]) ps.
Proof.
  unfold iterdir, exists_. rewrite lookup_snoc.
  destruct (lookup fs p) as [[|[] es]|]; try discriminate.
  intros H Hc. inversion H. subst.
  destruct (assoc c es) as [n|] eqn:Hn; [|discriminate].
  apply assoc_in in Hn.
  apply in_map_iff. exists (c, n). auto.
Qed.

Lemma height_assoc c es n :
  assoc c es = Some n ->
  height n <= fold_right (fun e m => Nat.max (height (snd e)) m) 0 es.
Proof.
  induction es as [|[k v] es IH]; simpl; [discriminate|].
  destruct (String.eqb k c).
  - intros H. inversion H. subst. lia.
  - intros H. apply IH in H. lia.
Qed.

Lemma height_lookup p : forall fs n,
  lookup fs p = Some n -> height n + List.length p <= height fs.
Proof.
  induction p as [|c p IH]; intros fs n H; simpl in H.
  - inversion H. simpl. lia.
  - destruct fs as [|l es]; [discriminate|].
    destruct (assoc c es) as [n'|] eqn:Hc; [|discriminate].
    apply IH in H. apply height_assoc in Hc. simpl. lia.
Qed.

Lemma is_dir_depth fs p : is_dir fs p = true -> List.length p < height fs.
Proof.
  unfold is_dir.
  destruct (lookup fs p) as [[|l es]|] eqn:H; try discriminate.
  intros _. apply height_lookup in H. simpl in H. lia.
Qed.

(** ** Changing the entries of one directory *)

Lemma assoc_map_first c g es c' :
  assoc c' (map_first c g es) =
  if String.eqb c c' then option_map g (assoc c es) else assoc c' es.
Proof.
  induction es as [|[k v] es IH]; simpl.
  - now destruct (String.eqb c c').
  - destruct (String.eqb_spec k c) as [->|Hk]; simpl.
    + destruct (String.eqb_spec c c') as [->|Hc]; simpl; reflexivity.
    + destruct (String.eqb_spec k c') as [->|Hk'].
      * destruct (String.eqb_spec c c') as [->|Hc]; [congruence|reflexivity].
      * exact IH.
Qed.

Lemma is_dir_dir_part n n' q :
  dir_part (Some n) = dir_part (Some n') -> is_dir n q = is_dir n' q.
Proof.
  unfold is_dir.
  destruct n as [l d|l es], n' as [l' d'|l' es']; simpl; try discriminate.
  - intros _. destruct q; reflexivity.
  - intros H. inversion H. reflexivity.
Qed.

Lemma modify_is_dir f p : forall fs q,
  (forall l es, lookup fs p = Some (Dir l es) ->
     forall c, dir_part (assoc c (f es)) = dir_part (assoc c es)) ->
  is_dir (modify f p fs) q = is_dir fs q.
Proof.
  induction p as [|c p IH]; intros fs q Hf.
  - destruct fs as [l d|l es]; simpl; [reflexivity|].
    destruct q as [|c q]; [reflexivity|].
    unfold is_dir. simpl.
    specialize (Hf l es eq_refl c).
    destruct (assoc c es) as [[l1 d1|l1 es1]|],
      (assoc c (f es)) as [[l2 d2|l2 es2]|]; simpl in Hf;
      try discriminate; try (inversion Hf; subst; reflexivity);
      destruct q; reflexivity.
  - destruct fs as [l d|l es]; simpl; [reflexivity|].
    destruct q as [|c' q]; [reflexivity|].
    unfold is_dir. simpl. rewrite assoc_map_first.
    destruct (String.eqb_spec c c') as [<-|Hc]; [|reflexivity].
    destruct (assoc c es) as [n|] eqn:Hn; simpl; [|reflexivity].
    apply (IH n q). intros l' es' Hl. apply (Hf l' es').
    simpl. now rewrite Hn.
Qed.

Lemma assoc_remove_entry c es c' :
  assoc c' (remove_entry c es) =
  if String.eqb c c' then None else assoc c' es.
Proof.
  unfold remove_entry.
  induction es as [|[k v] es IH]; simpl.
  - now destruct (String.eqb c c').
  - destruct (String.eqb_spec k c) as [->|Hk]; simpl.
    + rewrite IH. destruct (String.eqb_spec c c'); reflexivity.
    + rewrite IH.
      destruct (String.eqb_spec k c') as [->|Hk'];
        destruct (String.eqb_spec c c') as [->|Hc]; congruence.
Qed.

Lemma assoc_app c es es' :
  assoc c (es ++ es') =
  match assoc c es with
  | Some n => Some n
  | None => assoc c es'
  end.
Proof.
  induction es as [|[k v] es IH]; simpl; [reflexivity|].
  destruct (String.eqb k c); auto.
Qed.

(** ** Renaming a file leaves every directory where it is *)

Lemma lookup_parent_name fs p :
  p <> [] ->
  lookup fs p =
  match lookup fs (parent p) with
  | Some (Dir _ es) => assoc (name p) es
  | _ => None
  end.
Proof.
  intros Hp. rewrite (path_snoc_inv p Hp) at 1. apply lookup_snoc.
Qed.

Lemma del_is_dir fs p q :
  p <> [] -> is_dir fs p = false -> is_dir (del p fs) q = is_dir fs q.
Proof.
  intros Hp Hd. unfold del. apply modify_is_dir.
  intros l es Hl c. rewrite assoc_remove_entry.
  destruct (String.eqb_spec (name p) c) as [<-|Hc]; [|reflexivity].
  unfold is_dir in Hd. rewrite (lookup_parent_name fs p Hp), Hl in Hd.
  destruct (assoc (name p) es) as [[|]|]; simpl; congruence.
Qed.

Lemma put_file_is_dir fs p l d q :
  is_dir (put p (File l d) fs) q = is_dir fs q.
Proof.
  unfold put. apply modify_is_dir.
  intros l' es _ c. rewrite assoc_app.
  destruct (assoc c es) as [n|]; [reflexivity|].
  simpl. destruct (String.eqb (name p) c); reflexivity.
Qed.

Lemma os_rename_is_dir pf fs src dst fs' :
  is_dir fs src = false -> os_rename pf fs src dst = Ok fs' ->
  forall q, is_dir fs' q = is_dir fs q.
Proof.
  intros Hsrc H q. unfold os_rename in H.
  destruct (is_root src) eqn:Hs0; [discriminate|].
  destruct (is_root dst) eqn:Hd0; [discriminate|]. simpl in H.
  assert (Hs : src <> []) by (intros ->; discriminate).
  assert (Hd : dst <> []) by (intros ->; discriminate).
  destruct (lookup fs src) as [n|] eqn:Hn; [|discriminate].
  destruct (is_locked n); [discriminate|].
  assert (Hfile : exists l d, n = File l d).
  { unfold is_dir in Hsrc. rewrite Hn in Hsrc.
    destruct n; [eauto | discriminate]. }
  destruct Hfile as [l [d ->]].
  destruct (lookup fs dst) as [m|] eqn:Hm.
  - destruct (path_eqb src dst); [inversion H; now subst|].
    destruct pf; [|discriminate].
    destruct m as [l' d'|l' es']; [|discriminate].
    inversion H. subst fs'.
    rewrite put_file_is_dir, del_is_dir, del_is_dir; auto.
    rewrite del_is_dir; auto.
    unfold is_dir. now rewrite Hm.
  - destruct (is_dir fs (parent dst)); [|discriminate].
    destruct (is_prefix src dst); [discriminate|].
    inversion H. subst fs'.
    rewrite put_file_is_dir, del_is_dir; auto.
Qed.

Lemma os_rename_dst_not_dir pf fs src dst fs' :
  is_dir fs src = false -> os_rename pf fs src dst = Ok fs' ->
  is_dir fs dst = false.
Proof.
  intros Hsrc H. unfold os_rename in H.
  destruct (is_root src || is_root dst); [discriminate|].
  destruct (lookup fs src) as [n|] eqn:Hn; [|discriminate].
  destruct (is_locked n); [discriminate|].
  unfold is_dir in *. rewrite Hn in Hsrc.
  destruct (lookup fs dst) as [m|] eqn:Hm; [|reflexivity].
  destruct (path_eqb src dst) eqn:E.
  - apply path_eqb_eq in E. subst dst. rewrite Hn in Hm.
    inversion Hm. now subst.
  - destruct pf; [|discriminate].
    destruct n; [|discriminate]. destruct m; [reflexivity|discriminate].
Qed.

Section RunFrame.
Variable pf : platform.
Variable uuid4_hex : nat -> string.

Lemma rename_keeps_dirs src dst :
  keeps_dirs (fun w => is_dir (w_fs w) src = false) (rename pf src dst).
Proof.
  intros w r w' Hsrc H q. unfold rename in H.
  destruct (os_rename pf (w_fs w) src dst) as [fs'|e] eqn:E;
    inversion H; subst; simpl; auto.
  eapply os_rename_is_dir; eauto.
Qed.

Lemma safe_rename_keeps_dirs src dst :
  keeps_dirs (fun w => is_dir (w_fs w) src = false)
    (_safe_rename pf uuid4_hex src dst).
Proof.
  intros w r w' Hsrc H q. unfold _safe_rename in H.
  destruct (path_eqb src dst); [inversion H; now subst|].
  unfold bindM, read, uuid4 in H. simpl in H.
  destruct (exists_ (w_fs w) dst).
  - set (temp := with_name src _) in H.
    unfold rename at 1 in H. simpl in H.
    destruct (os_rename pf (w_fs w) src temp) as [fs1|e] eqn:E1.
    + pose proof (os_rename_is_dir _ _ _ _ _ Hsrc E1) as H1.
      pose proof (os_rename_dst_not_dir _ _ _ _ _ Hsrc E1) as Ht.
      rewrite <- H1.
      refine (rename_keeps_dirs temp dst _ _ _ _ H q).
      simpl. now rewrite H1.
    + inversion H. subst. reflexivity.
  - exact (rename_keeps_dirs src dst _ _ _ Hsrc H q).
Qed.

Lemma emit_fs log e w : w_fs (snd (emit log e w)) = w_fs w.
Proof. unfold emit. destruct log; reflexivity. Qed.

Lemma prefix_loop_keeps_dirs idx log entries : forall changed,
  keeps_dirs
    (fun w => Forall (fun p => is_dir (w_fs w) p = false) entries)
    (prefix_loop pf uuid4_hex idx log entries changed).
Proof.
  induction entries as [|f rest IH]; intros changed w r w' Hpre H q.
  - inversion H. now subst.
  - simpl in H. inversion Hpre as [|? ? Hf Hrest]; subst.
    unfold bindM at 1 in H. unfold try_except in H.
    unfold bindM at 1 in H.
    set (dst := with_name f _) in H.
    destruct (_safe_rename pf uuid4_hex f dst w) as [[[]|e] w1] eqn:E.
    + pose proof (safe_rename_keeps_dirs f dst w _ w1 Hf E) as H1.
      unfold bindM, emit, ret in H. simpl in H.
      rewrite <- H1.
      destruct log; refine (IH _ _ r w' _ H q);
        simpl; eapply Forall_impl; try exact Hrest;
        intros p Hp; simpl in Hp |- *; now rewrite H1.
    + pose proof (safe_rename_keeps_dirs f dst w _ w1 Hf E) as H1.
      unfold bindM, emit, ret in H. simpl in H.
      rewrite <- H1.
      destruct log; refine (IH _ _ r w' _ H q);
        simpl; eapply Forall_impl; try exact Hrest;
        intros p Hp; simpl in Hp |- *; now rewrite H1.
Qed.

Lemma is_file_not_dir fs p : is_file fs p = true -> is_dir fs p = false.
Proof.
  unfold is_file, is_dir. destruct (lookup fs p) as [[|]|]; congruence.
Qed.

Lemma prefix_files_keeps_dirs d idx log :
  keeps_dirs (fun _ => True) (_prefix_files_in_dir pf uuid4_hex d idx log).
Proof.
  intros w r w' _ H q. unfold _prefix_files_in_dir in H.
  destruct (list_files d (w_fs w)) as [entries|e] eqn:El.
  - unfold bindM, read in H.
    destruct (sort_natural entries) as [sorted|e] eqn:Es.
    + refine (prefix_loop_keeps_dirs idx log sorted 0 _ _ _ _ H q).
      simpl. unfold list_files in El.
      apply bind_ok in El. destruct El as [ps [_ El]]. inversion El.
      subst entries. rewrite Forall_forall. intros p Hp.
      apply (sort_natural_in _ _ p Es) in Hp.
      apply filter_In in Hp. destruct Hp as [_ Hp].
      now apply is_file_not_dir.
    + inversion H. now subst.
  - destruct e; inversion H; now subst.
Qed.

Lemma process_dir_keeps_dirs log d total :
  keeps_dirs (fun _ => True) (process_dir pf uuid4_hex log d total).
Proof.
  intros w r w' _ H q. unfold process_dir in H.
  unfold bindM at 1 in H. unfold read in H.
  destruct (get_folder_index_among_siblings (w_fs w) d) as [idx|e];
    [|inversion H; now subst].
  unfold bindM at 1 in H.
  destruct (emit log (LogProcessing d idx) w) as [[[]|e] w1] eqn:E.
  - assert (Hw1 : w_fs w1 = w_fs w).
    { pose proof (emit_fs log (LogProcessing d idx) w) as Hf.
      now rewrite E in Hf. }
    unfold bindM in H.
    destruct (_prefix_files_in_dir pf uuid4_hex d idx log w1)
      as [[n|e] w2] eqn:Ep; inversion H; subst;
      rewrite <- Hw1;
      exact (prefix_files_keeps_dirs d idx log w1 _ _ I Ep q).
  - unfold emit in E. inversion E.
Qed.

Lemma process_root_keeps_dirs log d :
  keeps_dirs (fun _ => True) (process_root pf uuid4_hex log d).
Proof.
  intros w r w' _ H q. unfold process_root in H.
  unfold bindM at 1 in H. unfold read in H.
  destruct (get_folder_index_among_siblings (w_fs w) d) as [idx|e];
    [|inversion H; now subst].
  unfold bindM in H.
  destruct (emit log (LogProcessingRoot d idx) w) as [[[]|e] w1] eqn:E.
  - assert (Hw1 : w_fs w1 = w_fs w).
    { pose proof (emit_fs log (LogProcessingRoot d idx) w) as Hf.
      now rewrite E in Hf. }
    rewrite <- Hw1.
    exact (prefix_files_keeps_dirs d idx log w1 _ _ I H q).
  - unfold emit in E. inversion E.
Qed.
End RunFrame.

(** ** The walk returns

    [step a w r w'] relates the accumulator and the world before a piece of
    the loop to its result and the world after it. Whatever the body does,
    as long as it leaves the directories alone, a walk of a tree less deep
    than the interpreter allows returns or raises without
    [RecursionError], and the relation holds of the whole walk. *)

Lemma list_subdirs_in fs root subdirs sd :
  list_subdirs root fs = Ok subdirs -> In sd subdirs ->
  is_dir fs sd = true /\ exists c, sd = root ++ [c].
Proof.
  unfold list_subdirs. intros H Hin.
  apply bind_ok in H. destruct H as [ps [Hps H]]. inversion H. subst.
  apply filter_In in Hin. destruct Hin as [Hin Hd].
  split; [exact Hd | eapply iterdir_in; eauto].
Qed.

Lemma depth_bound_child fs root c k :
  depth_bound fs root k -> is_dir fs (root ++ [c]) = true ->
  1 <= k /\ depth_bound fs (root ++ [c]) (k - 1).
Proof.
  intros Hb Hd. split.
  - apply (Hb [c] Hd).
  - intros q Hq. rewrite <- app_assoc in Hq. apply Hb in Hq.
    simpl in Hq. lia.
Qed.

Lemma depth_bound_ext fs fs' root k :
  (forall q, is_dir fs' q = is_dir fs q) ->
  depth_bound fs root k -> depth_bound fs' root k.
Proof. intros H Hb q Hq. apply Hb. now rewrite <- H. Qed.

Lemma depth_bound_height fs root : depth_bound fs root (height fs).
Proof.
  intros q Hq. apply is_dir_depth in Hq. rewrite length_app in Hq. lia.
Qed.

Section WalkFacts.
Context {A : Type}.
Variable body : path -> A -> M A.
Variable step : A -> world -> result A -> world -> Prop.

Hypothesis step_refl : forall a w, step a w (Ok a) w.
Hypothesis step_trans : forall a w a1 w1 r w2,
  step a w (Ok a1) w1 -> step a1 w1 r w2 -> step a w r w2.
Hypothesis step_dirs : forall a w r w',
  step a w r w' -> forall q, is_dir (w_fs w') q = is_dir (w_fs w) q.
Hypothesis step_body : forall sd a w r w',
  is_dir (w_fs w) sd = true -> body sd a w = (r, w') -> step a w r w'.

Lemma enterable_ext k w w' sd :
  (forall q, is_dir (w_fs w') q = is_dir (w_fs w) q) ->
  enterable k w sd -> enterable k w' sd.
Proof using Type.
  intros H [Hd Hb]. split; [now rewrite H|].
  eapply depth_bound_ext; eauto.
Qed.

Lemma each_subdir_returns descend k sds : forall acc w,
  (forall sd, In sd sds -> forall a w0,
     enterable k w0 sd ->
     exists r w', descend sd a w0 = Some (r, w') /\ step a w0 r w') ->
  Forall (enterable k w) sds ->
  exists r w',
    each_subdir body descend sds acc w = Some (r, w') /\ step acc w r w'.
Proof using step_refl step_trans step_dirs step_body.
  induction sds as [|sd rest IH]; intros acc w Hdesc Hb; simpl.
  - eauto.
  - inversion Hb as [|? ? Hsd Hrest]; subst.
    destruct (body sd acc w) as [[acc1|e] w1] eqn:Eb.
    + pose proof (step_body _ _ _ _ _ (proj1 Hsd) Eb) as S1.
      pose proof (step_dirs _ _ _ _ S1) as D1.
      destruct (Hdesc sd (or_introl eq_refl) acc1 w1)
        as [r2 [w2 [Ed S2]]].
      { eapply enterable_ext; eauto. }
      rewrite Ed. destruct r2 as [acc2|e].
      * pose proof (step_dirs _ _ _ _ S2) as D2.
        destruct (IH acc2 w2) as [r [w' [Er S3]]].
        { intros sd' Hin. apply Hdesc. now right. }
        { eapply Forall_impl; [|exact Hrest].
          intros p Hp. eapply enterable_ext; [|exact Hp].
          intros q. now rewrite D2, D1. }
        exists r, w'. split; [exact Er|].
        eapply step_trans; [|exact S3].
        eapply step_trans; eauto.
      * exists (Raise e), w2. split; [reflexivity|].
        eapply step_trans; eauto.
    + exists (Raise e), w1. split; [reflexivity|].
      eapply step_body; [exact (proj1 Hsd)|exact Eb].
Qed.

Hypothesis step_list : forall a w root e,
  is_dir (w_fs w) root = true ->
  list_subdirs root (w_fs w) = Raise e -> step a w (Raise e) w.
Hypothesis step_sort : forall a w, step a w (Raise ValueError) w.

Theorem for_subdirs_returns fuel : forall k root acc w,
  enterable k w root -> k < fuel ->
  exists r w',
    for_subdirs body fuel root acc w = Some (r, w') /\ step acc w r w'.
Proof using step_refl step_trans step_dirs step_body step_list step_sort.
  induction fuel as [|fuel IH]; intros k root acc w [Hd Hb] Hk; [lia|].
  simpl.
  destruct (list_subdirs root (w_fs w)) as [subdirs|e] eqn:El.
  - destruct (sort_natural subdirs) as [sorted|e] eqn:Es.
    + assert (Hin : forall sd, In sd sorted ->
                1 <= k /\ enterable (k - 1) w sd).
      { intros sd Hsd. apply (sort_natural_in _ _ sd Es) in Hsd.
        destruct (list_subdirs_in _ _ _ _ El Hsd) as [Hsdd [c ->]].
        destruct (depth_bound_child _ _ _ _ Hb Hsdd). repeat split; auto. }
      apply (each_subdir_returns (for_subdirs body fuel) (k - 1)).
      * intros sd Hsd a w0 Hb0.
        apply (IH (k - 1)); [exact Hb0|].
        destruct (Hin sd Hsd). lia.
      * rewrite Forall_forall. intros sd Hsd. now apply Hin.
    + rewrite (sort_natural_raise _ _ Es). eauto.
  - destruct e; eauto.
Qed.

(** The same at any depth, for a relation that holds as well when the
    walk stops on [RecursionError]. *)
Hypothesis step_limit : forall a w, step a w (Raise RecursionError) w.

Lemma each_subdir_steps descend sds : forall acc w,
  (forall sd, In sd sds -> forall a w0,
     is_dir (w_fs w0) sd = true ->
     exists r w', descend sd a w0 = Some (r, w') /\ step a w0 r w') ->
  Forall (fun sd => is_dir (w_fs w) sd = true) sds ->
  exists r w',
    each_subdir body descend sds acc w = Some (r, w') /\ step acc w r w'.
Proof using step_refl step_trans step_dirs step_body.
  induction sds as [|sd rest IH]; intros acc w Hdesc Hb; simpl.
  - eauto.
  - inversion Hb as [|? ? Hsd Hrest]; subst.
    destruct (body sd acc w) as [[acc1|e] w1] eqn:Eb.
    + pose proof (step_body _ _ _ _ _ Hsd Eb) as S1.
      pose proof (step_dirs _ _ _ _ S1) as D1.
      destruct (Hdesc sd (or_introl eq_refl) acc1 w1)
        as [r2 [w2 [Ed S2]]].
      { now rewrite D1. }
      rewrite Ed. destruct r2 as [acc2|e].
      * pose proof (step_dirs _ _ _ _ S2) as D2.
        destruct (IH acc2 w2) as [r [w' [Er S3]]].
        { intros sd' Hin. apply Hdesc. now right. }
        { eapply Forall_impl; [|exact Hrest].
          intros p Hp. now rewrite D2, D1. }
        exists r, w'. split; [exact Er|].
        eapply step_trans; [|exact S3].
        eapply step_trans; eauto.
      * exists (Raise e), w2. split; [reflexivity|].
        eapply step_trans; eauto.
    + exists (Raise e), w1. split; [reflexivity|].
      eapply step_body; [exact Hsd|exact Eb].
Qed.

Theorem for_subdirs_steps fuel : forall root acc w,
  is_dir (w_fs w) root = true ->
  exists r w',
    for_subdirs body fuel root acc w = Some (r, w') /\ step acc w r w'.
Proof using step_refl step_trans step_dirs step_body step_list step_sort
  step_limit.
  induction fuel as [|fuel IH]; intros root acc w Hd; simpl; [eauto|].
  destruct (list_subdirs root (w_fs w)) as [subdirs|e] eqn:El.
  - destruct (sort_natural subdirs) as [sorted|e] eqn:Es.
    + apply (each_subdir_steps (for_subdirs body fuel)).
      * intros sd Hsd a w0 Hd0. now apply IH.
      * rewrite Forall_forall. intros sd Hsd.
        apply (sort_natural_in _ _ sd Es) in Hsd.
        exact (proj1 (list_subdirs_in _ _ _ _ El Hsd)).
    + rewrite (sort_natural_raise _ _ Es). eauto.
  - destruct e; eauto.
Qed.
End WalkFacts.

(** ** The events of a run *)

Section RunTrace.
Variable pf : platform.
Variable uuid4_hex : nat -> string.

Lemma rename_out src dst w r w' :
  rename pf src dst w = (r, w') -> w_out w' = w_out w.
Proof.
  unfold rename. destruct (os_rename pf (w_fs w) src dst);
    intros H; inversion H; reflexivity.
Qed.

Lemma safe_rename_out src dst w r w' :
  _safe_rename pf uuid4_hex src dst w = (r, w') -> w_out w' = w_out w.
Proof.
  unfold _safe_rename. destruct (path_eqb src dst).
  - intros H. inversion H. reflexivity.
  - unfold bindM, read, uuid4. simpl.
    destruct (exists_ (w_fs w) dst).
    + set (temp := with_name src _).
      destruct (rename pf src temp _) as [[[]|e] w1] eqn:E1.
      * intros H. apply rename_out in H, E1. simpl in E1. congruence.
      * intros H. inversion H. subst. now apply rename_out in E1.
    + apply rename_out.
Qed.

(** One round of the loop over the files. *)
Lemma prefix_loop_cons idx log f rest changed w :
  prefix_loop pf uuid4_hex idx log (f :: rest) changed w =
  match _safe_rename pf uuid4_hex f (prefixed idx f) w with
  | (Ok _, w1) =>
      prefix_loop pf uuid4_hex idx log rest (changed + 1)
        (snd (emit log (LogRenamed f (prefixed idx f)) w1))
  | (Raise e, w1) =>
      prefix_loop pf uuid4_hex idx log rest changed
        (snd (emit log (LogError f e) w1))
  end.
Proof.
  unfold prefixed. simpl.
  unfold bindM at 1. unfold try_except. unfold bindM at 1.
  match goal with
  | |- context [_safe_rename ?a ?b ?c ?d ?e] =>
      destruct (_safe_rename a b c d e) as [[[]|e0] w1]
  end; reflexivity.
Qed.

Lemma emit_out log e w :
  w_out (snd (emit log e w)) = w_out w ++ (if log then [e] else []).
Proof. destruct log; simpl; [reflexivity | now rewrite app_nil_r]. Qed.

(** The loop over the files never raises, sends one event per file, in
    order, and counts the RENAMED ones. *)
Lemma prefix_loop_trace idx log entries : forall changed w,
  exists n w' evs,
    prefix_loop pf uuid4_hex idx log entries changed w = (Ok n, w') /\
    w_out w' = w_out w ++ (if log then evs else []) /\
    Forall2 (attempt idx) entries evs /\
    n = changed + renamed_count evs.
Proof.
  induction entries as [|f rest IH]; intros changed w.
  - exists changed, w, []. simpl. unfold ret.
    repeat split; auto.
    destruct log; now rewrite app_nil_r.
  - rewrite prefix_loop_cons.
    destruct (_safe_rename pf uuid4_hex f (prefixed idx f) w)
      as [[[]|e] w1] eqn:E; apply safe_rename_out in E.
    + destruct (IH (changed + 1)
                  (snd (emit log (LogRenamed f (prefixed idx f)) w1)))
        as [n [w' [evs [Hr [Ho [Ha Hn]]]]]].
      exists n, w', (LogRenamed f (prefixed idx f) :: evs).
      rewrite Hr. split; [reflexivity|]. split; [|split].
      * rewrite Ho, emit_out, E, <- app_assoc.
        destruct log; reflexivity.
      * constructor; [left; reflexivity | exact Ha].
      * unfold renamed_count in *. simpl. lia.
    + destruct (IH changed (snd (emit log (LogError f e) w1)))
        as [n [w' [evs [Hr [Ho [Ha Hn]]]]]].
      exists n, w', (LogError f e :: evs).
      rewrite Hr. split; [reflexivity|]. split; [|split].
      * rewrite Ho, emit_out, E, <- app_assoc.
        destruct log; reflexivity.
      * constructor; [right; eauto | exact Ha].
      * unfold renamed_count in *. simpl. lia.
Qed.

Lemma Forall2_in_r {X Y} (R : X -> Y -> Prop) l l' :
  Forall2 R l l' -> forall y, In y l' -> exists x, In x l /\ R x y.
Proof.
  induction 1 as [|x y l l' Hxy _ IH]; intros y0 Hy; [destruct Hy|].
  destruct Hy as [<-|Hy].
  - exists x. split; [now left | exact Hxy].
  - destruct (IH _ Hy) as [x0 [Hx0 HR]]. exists x0. split; [now right|auto].
Qed.

Lemma attempt_source idx f e : attempt idx f e -> renamed_source e = Some f.
Proof. intros [->|[x ->]]; reflexivity. Qed.

Lemma list_files_in fs d entries f :
  list_files d fs = Ok entries -> In f entries ->
  is_file fs f = true /\ exists c, f = d ++ [c].
Proof.
  unfold list_files. intros H Hin.
  apply bind_ok in H. destruct H as [ps [Hps H]]. inversion H. subst.
  apply filter_In in Hin. destruct Hin as [Hin Hf].
  split; [exact Hf | eapply iterdir_in; eauto].
Qed.

Lemma list_files_raise fs d e :
  is_dir fs d = true -> list_files d fs = Raise e -> e = PermissionError.
Proof.
  unfold list_files. intros Hd H.
  destruct (iterdir fs d) eqn:E; simpl in H; [discriminate|].
  inversion H. subst. eapply iterdir_dir; eauto.
Qed.

Lemma list_subdirs_raise fs d e :
  is_dir fs d = true -> list_subdirs d fs = Raise e -> e = PermissionError.
Proof.
  unfold list_subdirs. intros Hd H.
  destruct (iterdir fs d) eqn:E; simpl in H; [discriminate|].
  inversion H. subst. eapply iterdir_dir; eauto.
Qed.

(** What [_prefix_files_in_dir] does in a directory: it returns the number
    of RENAMED events, each event is about a file that was listed, and
    only a failed listing or a name without a key makes it raise. *)
Lemma prefix_files_trace d idx log w :
  is_dir (w_fs w) d = true ->
  exists r w' evs,
    _prefix_files_in_dir pf uuid4_hex d idx log w = (r, w') /\
    w_out w' = w_out w ++ (if log then evs else []) /\
    (forall e, r = Raise e -> escapes e) /\
    (forall n, r = Ok n -> n = renamed_count evs) /\
    Forall (fun e => exists f, renamed_source e = Some f /\
              is_file (w_fs w) f = true /\ parent f = d) evs.
Proof.
  intros Hd. unfold _prefix_files_in_dir.
  destruct (list_files d (w_fs w)) as [entries|e] eqn:El.
  - unfold bindM, read.
    destruct (sort_natural entries) as [sorted|e] eqn:Es.
    + destruct (prefix_loop_trace idx log sorted 0 w)
        as [n [w' [evs [Hr [Ho [Ha Hn]]]]]].
      exists (Ok n), w', evs. repeat split; auto.
      * discriminate.
      * intros n' Hn'. inversion Hn'. subst. reflexivity.
      * rewrite Forall_forall. intros e He.
        destruct (Forall2_in_r _ _ _ Ha e He) as [f [Hf Hfe]].
        exists f. split; [eapply attempt_source; eauto|].
        apply (sort_natural_in _ _ f Es) in Hf.
        destruct (list_files_in _ _ _ _ El Hf) as [Hff [c ->]].
        split; [exact Hff | apply parent_snoc].
    + exists (Raise e), w, []. repeat split; auto.
      * destruct log; now rewrite app_nil_r.
      * intros e' He'. inversion He'. subst.
        right. eapply sort_natural_raise; eauto.
      * discriminate.
  - apply (list_files_raise _ _ _ Hd) in El. subst e.
    exists (Raise PermissionError), w, []. repeat split; auto.
    + destruct log; now rewrite app_nil_r.
    + intros e' He'. inversion He'. now left.
    + discriminate.
Qed.
End RunTrace.

(** ** A whole run *)

Lemma renamed_count_app evs evs' :
  renamed_count (evs ++ evs') = renamed_count evs + renamed_count evs'.
Proof.
  unfold renamed_count. now rewrite filter_app, length_app.
Qed.

Lemma event_ok_ext fs fs' e :
  (forall q, is_dir fs' q = is_dir fs q) -> event_ok fs e -> event_ok fs' e.
Proof.
  unfold event_ok. intros H. destruct (renamed_source e); auto.
  now rewrite H.
Qed.

Lemma run_step_refl log a w : run_step log a w (Ok a) w.
Proof.
  split; [reflexivity|]. split; [discriminate|].
  exists []. repeat split; auto.
  - destruct log; now rewrite app_nil_r.
  - intros n H. inversion H. unfold renamed_count. simpl. lia.
Qed.

Lemma run_step_raise log a w e : escapes e -> run_step log a w (Raise e) w.
Proof.
  intros He. split; [reflexivity|]. split.
  - intros e' H. inversion H. now subst.
  - exists []. repeat split; auto.
    + destruct log; now rewrite app_nil_r.
    + discriminate.
Qed.

Lemma run_step_piece log a w r w' :
  run_step log a w r w' -> run_piece log a w r w'.
Proof.
  intros [D [X E]]. split; [exact D|]. split; [|exact E].
  intros e He. left. now apply X.
Qed.

Lemma run_piece_limit log a w : run_piece log a w (Raise RecursionError) w.
Proof.
  split; [reflexivity|]. split.
  - intros e' H. inversion H. now right.
  - exists []. repeat split; auto.
    + destruct log; now rewrite app_nil_r.
    + discriminate.
Qed.

Lemma run_piece_trans log a w a1 w1 r w2 :
  run_piece log a w (Ok a1) w1 -> run_piece log a1 w1 r w2 ->
  run_piece log a w r w2.
Proof.
  intros [D1 [_ [evs1 [O1 [E1 C1]]]]] [D2 [X2 [evs2 [O2 [E2 C2]]]]].
  split; [intros q; now rewrite D2, D1|]. split; [exact X2|].
  exists (evs1 ++ evs2). repeat split.
  - rewrite O2, O1, <- app_assoc. destruct log; reflexivity.
  - apply Forall_app. split; [exact E1|].
    eapply Forall_impl; [|exact E2].
    intros e He. eapply event_ok_ext; [|exact He].
    intros q. symmetry. apply D1.
  - intros n Hn. rewrite renamed_count_app.
    rewrite (C2 n Hn), (C1 a1 eq_refl). lia.
Qed.

Lemma run_step_trans log a w a1 w1 r w2 :
  run_step log a w (Ok a1) w1 -> run_step log a1 w1 r w2 ->
  run_step log a w r w2.
Proof.
  intros [D1 [_ [evs1 [O1 [E1 C1]]]]] [D2 [X2 [evs2 [O2 [E2 C2]]]]].
  split; [intros q; now rewrite D2, D1|]. split; [exact X2|].
  exists (evs1 ++ evs2). repeat split.
  - rewrite O2, O1, <- app_assoc. destruct log; reflexivity.
  - apply Forall_app. split; [exact E1|].
    eapply Forall_impl; [|exact E2].
    intros e He. eapply event_ok_ext; [|exact He].
    intros q. symmetry. apply D1.
  - intros n Hn. rewrite renamed_count_app.
    rewrite (C2 n Hn), (C1 a1 eq_refl). lia.
Qed.

Lemma run_step_dirs log a w r w' :
  run_step log a w r w' -> forall q, is_dir (w_fs w') q = is_dir (w_fs w) q.
Proof. intros [D _]. exact D. Qed.

Lemma get_folder_index_raise fs d e :
  is_dir fs d = true ->
  get_folder_index_among_siblings fs d = Raise e -> escapes e.
Proof.
  intros Hd. unfold get_folder_index_among_siblings.
  destruct (path_eqb (parent d) d); [discriminate|].
  destruct (list_subdirs (parent d) fs) as [siblings|e'] eqn:El.
  - destruct (sort_natural siblings) as [sorted|e'] eqn:Es; simpl.
    + destruct (index d sorted); discriminate.
    + intros H. inversion H. subst. right.
      eapply sort_natural_raise; eauto.
  - apply list_subdirs_raise in El; [|now apply is_dir_parent].
    subst e'. intros H. inversion H. now left.
Qed.

Section RunSteps.
Variable pf : platform.
Variable uuid4_hex : nat -> string.

Lemma prefix_files_step d idx log a w r w' :
  is_dir (w_fs w) d = true ->
  _prefix_files_in_dir pf uuid4_hex d idx log w = (r, w') ->
  run_step log a w
    (match r with Ok n => Ok (a + n) | Raise e => Raise e end) w'.
Proof.
  intros Hd H.
  destruct (prefix_files_trace pf uuid4_hex d idx log w Hd)
    as [r0 [w0 [evs [Hr [Ho [Hx [Hn Hev]]]]]]].
  rewrite H in Hr. inversion Hr. subst r0 w0. clear Hr.
  split; [exact (prefix_files_keeps_dirs pf uuid4_hex d idx log w _ _ I H)|].
  split.
  - intros e He. destruct r; [discriminate|]. inversion He. subst. auto.
  - exists evs. repeat split; auto.
    + eapply Forall_impl; [|exact Hev].
      intros e [f [Hs [Hf _]]]. unfold event_ok. rewrite Hs.
      now apply is_file_not_dir.
    + intros n Hn'. destruct r as [m|]; [|discriminate].
      inversion Hn'. now rewrite (Hn m eq_refl).
Qed.

Lemma run_step_emit log a w e w1 r w' :
  renamed_source e = None -> w1 = snd (emit log e w) ->
  run_step log a w1 r w' -> run_step log a w r w'.
Proof.
  intros He -> [D [X [evs [O [E C]]]]].
  assert (Hfs : w_fs (snd (emit log e w)) = w_fs w) by apply emit_fs.
  split; [intros q; now rewrite D, Hfs|]. split; [exact X|].
  exists (e :: evs). repeat split.
  - rewrite O, emit_out, <- app_assoc. destruct log; reflexivity.
  - constructor.
    + unfold event_ok. now rewrite He.
    + now rewrite <- Hfs.
  - intros n Hn. rewrite (C n Hn). unfold renamed_count. simpl.
    destruct e; simpl in *; try discriminate; reflexivity.
Qed.

Lemma process_dir_step log d a w r w' :
  is_dir (w_fs w) d = true ->
  process_dir pf uuid4_hex log d a w = (r, w') -> run_step log a w r w'.
Proof.
  intros Hd H. unfold process_dir in H.
  unfold bindM at 1 in H. unfold read in H.
  destruct (get_folder_index_among_siblings (w_fs w) d) as [idx|e] eqn:Ei.
  - unfold bindM at 1 in H.
    destruct (emit log (LogProcessing d idx) w) as [[[]|e] w1] eqn:Ee;
      [|unfold emit in Ee; inversion Ee].
    assert (Hw1 : w1 = snd (emit log (LogProcessing d idx) w))
      by now rewrite Ee.
    apply (run_step_emit log a w (LogProcessing d idx) w1);
      [reflexivity | exact Hw1 |].
    unfold bindM, ret in H.
    destruct (_prefix_files_in_dir pf uuid4_hex d idx log w1)
      as [r1 w2] eqn:Ep.
    assert (Hd1 : is_dir (w_fs w1) d = true).
    { rewrite Hw1, emit_fs. exact Hd. }
    pose proof (prefix_files_step d idx log a w1 r1 w2 Hd1 Ep) as S.
    destruct r1; inversion H; subst; exact S.
  - inversion H. subst. apply run_step_raise.
    eapply get_folder_index_raise; eauto.
Qed.

Lemma process_root_step log d w r w' :
  is_dir (w_fs w) d = true ->
  process_root pf uuid4_hex log d w = (r, w') -> run_step log 0 w r w'.
Proof.
  intros Hd H. unfold process_root in H.
  unfold bindM at 1 in H. unfold read in H.
  destruct (get_folder_index_among_siblings (w_fs w) d) as [idx|e] eqn:Ei.
  - unfold bindM in H.
    destruct (emit log (LogProcessingRoot d idx) w) as [[[]|e] w1] eqn:Ee;
      [|unfold emit in Ee; inversion Ee].
    assert (Hw1 : w1 = snd (emit log (LogProcessingRoot d idx) w))
      by now rewrite Ee.
    apply (run_step_emit log 0 w (LogProcessingRoot d idx) w1);
      [reflexivity | exact Hw1 |].
    assert (Hd1 : is_dir (w_fs w1) d = true).
    { rewrite Hw1, emit_fs. exact Hd. }
    pose proof (prefix_files_step d idx log 0 w1 r w' Hd1 H) as S.
    destruct r; exact S.
  - inversion H. subst. apply run_step_raise.
    eapply get_folder_index_raise; eauto.
Qed.

(** The loop of [rename_files_in_tree] over the walk returns. *)
Lemma walk_step log fuel k root a w :
  enterable k w root -> k < fuel ->
  exists r w',
    for_subdirs (process_dir pf uuid4_hex log) fuel root a w = Some (r, w')
    /\ run_step log a w r w'.
Proof.
  apply (for_subdirs_returns (process_dir pf uuid4_hex log) (run_step log)).
  - apply run_step_refl.
  - apply run_step_trans.
  - apply run_step_dirs.
  - intros sd a0 w0 r w' Hd H. eapply process_dir_step; eauto.
  - intros a0 w0 d e Hd He. apply run_step_raise. left.
    eapply list_subdirs_raise; eauto.
  - intros a0 w0. apply run_step_raise. now right.
Qed.

(** On a directory, [rename_files_in_tree] returns or raises as soon as
    the limit exceeds the depth of the tree, and the whole run is a
    [run_step] followed by the DONE event. *)
Lemma rename_files_in_tree_step fuel k root include log w :
  enterable k w root -> k < fuel ->
  exists r w' w1,
    rename_files_in_tree pf uuid4_hex fuel root include log w
      = Some (r, w') /\
    run_step log 0 w r w1 /\
    w' = match r with
         | Ok n => snd (emit log (LogDone n) w1)
         | Raise _ => w1
         end.
Proof.
  intros Hroot Hk. unfold rename_files_in_tree.
  destruct Hroot as [Hd Hb].
  unfold exists_. unfold is_dir in Hd |- *.
  destruct (lookup (w_fs w) root) as [[|]|] eqn:Hl; try discriminate.
  simpl.
  assert (Hd' : is_dir (w_fs w) root = true) by (unfold is_dir; now rewrite Hl).
  destruct ((if include then process_root pf uuid4_hex log root else ret 0) w)
    as [[total0|e] w1] eqn:E0.
  - assert (S0 : run_step log 0 w (Ok total0) w1).
    { destruct include.
      - eapply process_root_step; eauto.
      - inversion E0. subst. apply run_step_refl. }
    destruct (walk_step log fuel k root total0 w1) as [r [w2 [Hw S1]]];
      [|exact Hk|].
    { eapply enterable_ext; [apply (run_step_dirs _ _ _ _ _ S0)|].
      split; assumption. }
    rewrite Hw.
    pose proof (run_step_trans _ _ _ _ _ _ _ S0 S1) as S.
    destruct r as [total|e].
    + exists (Ok total), (snd (emit log (LogDone total) w2)), w2.
      repeat split; auto; try apply S.
    + exists (Raise e), w2, w2. repeat split; auto; try apply S.
  - exists (Raise e), w1, w1. split; [reflexivity|]. split; [|reflexivity].
    destruct include.
    + eapply process_root_step; eauto.
    + inversion E0.
Qed.

(** The same on a tree of any depth: the walk returns or raises. *)
Lemma walk_piece log fuel root a w :
  is_dir (w_fs w) root = true ->
  exists r w',
    for_subdirs (process_dir pf uuid4_hex log) fuel root a w = Some (r, w')
    /\ run_piece log a w r w'.
Proof.
  apply (for_subdirs_steps (process_dir pf uuid4_hex log) (run_piece log)).
  - intros a0 w0. apply run_step_piece, run_step_refl.
  - apply run_piece_trans.
  - intros a0 w0 r w' [D _]. exact D.
  - intros sd a0 w0 r w' Hd H. apply run_step_piece.
    eapply process_dir_step; eauto.
  - intros a0 w0 d e Hd He. apply run_step_piece, run_step_raise. left.
    eapply list_subdirs_raise; eauto.
  - intros a0 w0. apply run_step_piece, run_step_raise. now right.
  - apply run_piece_limit.
Qed.

Lemma rename_files_in_tree_piece fuel root include log w :
  is_dir (w_fs w) root = true ->
  exists r w' w1,
    rename_files_in_tree pf uuid4_hex fuel root include log w
      = Some (r, w') /\
    run_piece log 0 w r w1 /\
    w' = match r with
         | Ok n => snd (emit log (LogDone n) w1)
         | Raise _ => w1
         end.
Proof.
  intros Hd'. unfold rename_files_in_tree.
  rewrite Hd'. unfold exists_. pose proof Hd' as Hd. unfold is_dir in Hd.
  destruct (lookup (w_fs w) root) as [[|]|] eqn:Hl; try discriminate.
  simpl.
  destruct ((if include then process_root pf uuid4_hex log root else ret 0) w)
    as [[total0|e] w1] eqn:E0.
  - assert (S0 : run_piece log 0 w (Ok total0) w1).
    { apply run_step_piece. destruct include.
      - eapply process_root_step; eauto.
      - inversion E0. subst. apply run_step_refl. }
    destruct (walk_piece log fuel root total0 w1) as [r [w2 [Hw S1]]].
    { destruct S0 as [D0 _]. now rewrite D0. }
    rewrite Hw.
    pose proof (run_piece_trans _ _ _ _ _ _ _ S0 S1) as S.
    destruct r as [total|e].
    + exists (Ok total), (snd (emit log (LogDone total) w2)), w2.
      repeat split; auto; try apply S.
    + exists (Raise e), w2, w2. repeat split; auto; try apply S.
  - exists (Raise e), w1, w1. split; [reflexivity|]. split; [|reflexivity].
    apply run_step_piece. destruct include.
    + eapply process_root_step; eauto.
    + inversion E0.
Qed.
End RunSteps.

Section WholeRun.
Variable pf : platform.
Variable uuid4_hex : nat -> string.

Lemma enterable_root fs root :
  is_dir fs root = true -> enterable (height fs) (mkWorld fs [] 0) root.
Proof. intros H. split; [exact H | apply depth_bound_height]. Qed.

(** A run on a directory returns or raises. Its events are those of a
    [run_piece] and the DONE event; when the tree is less deep than the
    interpreter allows, they are those of a [run_step]:
    [RecursionError] is not raised. *)
Lemma rename_tree_runs limit root include log fs :
  is_dir fs root = true ->
  exists r w' w1,
    rename_tree pf uuid4_hex limit root include log fs = Some (r, w') /\
    run_piece log 0 (mkWorld fs [] 0) r w1 /\
    w' = match r with
         | Ok n => snd (emit log (LogDone n) w1)
         | Raise _ => w1
         end.
Proof.
  intros Hd. unfold rename_tree.
  now apply (rename_files_in_tree_piece pf uuid4_hex).
Qed.

Lemma rename_tree_returns limit k root include log fs :
  is_dir fs root = true -> depth_bound fs root k -> k < limit ->
  exists r w' w1,
    rename_tree pf uuid4_hex limit root include log fs = Some (r, w') /\
    run_step log 0 (mkWorld fs [] 0) r w1 /\
    w' = match r with
         | Ok n => snd (emit log (LogDone n) w1)
         | Raise _ => w1
         end.
Proof.
  intros Hd Hb Hlim. unfold rename_tree.
  apply (rename_files_in_tree_step pf uuid4_hex _ k).
  - split; [exact Hd | exact Hb].
  - exact Hlim.
Qed.

Lemma rename_tree_invalid limit root include log fs :
  is_dir fs root = false ->
  rename_tree pf uuid4_hex limit root include log fs =
  Some (Raise NotADirectoryError, mkWorld fs [] 0).
Proof.
  intros Hd. unfold rename_tree, rename_files_in_tree. simpl.
  rewrite Hd. simpl. now rewrite orb_true_r.
Qed.

(** The events a directory gets are about files it held when it was
    listed. *)
Lemma prefix_files_events d idx log w :
  exists evs,
    w_out (snd (_prefix_files_in_dir pf uuid4_hex d idx log w)) =
      w_out w ++ (if log then evs else []) /\
    Forall (fun e => exists f, renamed_source e = Some f /\
              is_file (w_fs w) f = true /\ parent f = d) evs.
Proof.
  destruct (is_dir (w_fs w) d) eqn:Hd.
  - destruct (prefix_files_trace pf uuid4_hex d idx log w Hd)
      as [r [w' [evs [Hr [Ho [_ [_ Hev]]]]]]].
    exists evs. rewrite Hr. simpl. auto.
  - exists []. split; [|constructor].
    unfold _prefix_files_in_dir, list_files, iterdir.
    unfold is_dir in Hd.
    destruct (lookup (w_fs w) d) as [[|[] es]|]; try discriminate; simpl;
      destruct log; now rewrite app_nil_r.
Qed.
End WholeRun.

(** ** The index of a directory among its siblings *)

Lemma index_some x l :
  In x l -> exists i, index x l = Some i /\ nth_error l i = Some x.
Proof.
  induction l as [|y l IH]; [intros []|].
  intros Hin. simpl. destruct (path_eqb y x) eqn:E.
  - apply path_eqb_eq in E. subst. exists 0. auto.
  - destruct Hin as [->|Hin]; [now rewrite path_eqb_refl in E|].
    destruct (IH Hin) as [i [Hi Hn]]. rewrite Hi. exists (S i). auto.
Qed.

Lemma index_none x l : ~ In x l -> index x l = None.
Proof.
  induction l as [|y l IH]; [reflexivity|].
  intros Hin. simpl. destruct (path_eqb y x) eqn:E.
  - apply path_eqb_eq in E. subst. exfalso. apply Hin. now left.
  - rewrite IH; [reflexivity|]. intros H. apply Hin. now right.
Qed.

Lemma index_first x l i :
  index x l = Some i -> forall j, j < i -> nth_error l j <> Some x.
Proof.
  revert i. induction l as [|y l IH]; intros i; simpl; [discriminate|].
  destruct (path_eqb y x) eqn:E.
  - intros H. inversion H. lia.
  - destruct (index x l) as [i'|]; [|discriminate].
    intros H. inversion H. subst. intros [|j] Hj; simpl.
    + apply path_eqb_neq in E. congruence.
    + apply (IH i' eq_refl). lia.
Qed.

Lemma get_folder_index_root fs folder :
  parent folder = folder -> get_folder_index_among_siblings fs folder = Ok 1.
Proof.
  intros H. unfold get_folder_index_among_siblings.
  now rewrite H, path_eqb_refl.
Qed.

Lemma get_folder_index_vanished fs folder :
  iterdir fs (parent folder) = Raise FileNotFoundError ->
  get_folder_index_among_siblings fs folder = Ok 1.
Proof.
  intros H. unfold get_folder_index_among_siblings, list_subdirs.
  rewrite H. simpl. destruct (path_eqb (parent folder) folder); reflexivity.
Qed.

Lemma get_folder_index_listed fs folder siblings :
  parent folder <> folder ->
  list_subdirs (parent folder) fs = Ok siblings ->
  Forall (fun p => has_key (name p)) siblings ->
  exists sorted,
    sort_natural siblings = Ok sorted /\
    (forall i, index folder sorted = Some i ->
       get_folder_index_among_siblings fs folder = Ok (i + 1)) /\
    (index folder sorted = None ->
       get_folder_index_among_siblings fs folder = Ok 1).
Proof.
  intros Hp Hl Hk.
  destruct (sort_natural_ok _ Hk) as [sorted Hs].
  exists sorted. split; [exact Hs|].
  unfold get_folder_index_among_siblings.
  apply path_eqb_neq in Hp. rewrite Hp, Hl, Hs. simpl.
  split; [intros i ->|intros ->]; reflexivity.
Qed.

Lemma get_folder_index_positive fs folder n :
  get_folder_index_among_siblings fs folder = Ok n -> 1 <= n.
Proof.
  unfold get_folder_index_among_siblings.
  destruct (path_eqb (parent folder) folder); [intros H; inversion H; lia|].
  destruct (list_subdirs (parent folder) fs) as [siblings|[]];
    try discriminate; try (intros H; inversion H; lia).
  destruct (sort_natural siblings) as [sorted|]; simpl; [|discriminate].
  destruct (index folder sorted); intros H; inversion H; lia.
Qed.

(** ** The walk is depth-first *)

Lemma Forall2_combine_in {X Y} (R : X -> Y -> Prop) l l' x y :
  Forall2 R l l' -> In (x, y) (combine l l') -> R x y.
Proof.
  induction 1 as [|a b l l' Hab _ IH]; simpl; [tauto|].
  intros [H|H]; [inversion H; now subst | auto].
Qed.

Lemma Forall2_combine_left {X Y} (R : X -> Y -> Prop) l l' x :
  Forall2 R l l' -> In x l -> exists y, In (x, y) (combine l l').
Proof.
  induction 1 as [|a b l l' Hab _ IH]; simpl; [tauto|].
  intros [->|H]; [eauto|]. destruct (IH H) as [y Hy]. eauto.
Qed.

Lemma in_interleave sds subs p :
  In p (interleave sds subs) <->
  exists sd sub, In (sd, sub) (combine sds subs) /\ (p = sd \/ In p sub).
Proof.
  unfold interleave. rewrite in_flat_map. split.
  - intros [[sd sub] [Hin [H|H]]]; simpl in *; eauto 6.
  - intros [sd [sub [Hin H]]]. exists (sd, sub). split; [exact Hin|].
    simpl. destruct H; auto.
Qed.

Lemma listable_below_child fs root c :
  listable_below fs root -> listable_below fs (root ++ [c]).
Proof. intros H q Hq. rewrite <- app_assoc in *. now apply H. Qed.

Lemma keys_below_child fs root c :
  keys_below fs root -> keys_below fs (root ++ [c]).
Proof.
  intros H q c' Hq. apply (H (c :: q) c').
  rewrite <- app_assoc in Hq. exact Hq.
Qed.

Section WalkOrder.
Variable fs : node.

Lemma each_collect_cons descend sd rest acc w :
  each_subdir collect descend (sd :: rest) acc w =
  match descend sd (acc ++ [sd]) w with
  | Some (Ok acc2, w2) => each_subdir collect descend rest acc2 w2
  | other => other
  end.
Proof. reflexivity. Qed.

Lemma each_collect descend sds : forall acc w,
  (forall sd, In sd sds -> forall a,
     exists sub, descend sd a w = Some (Ok (a ++ sub), w) /\ yields fs sd sub) ->
  exists subs,
    each_subdir collect descend sds acc w
      = Some (Ok (acc ++ interleave sds subs), w) /\
    Forall2 (yields fs) sds subs.
Proof.
  induction sds as [|sd rest IH]; intros acc w Hdesc.
  - exists []. simpl. rewrite app_nil_r. auto.
  - rewrite each_collect_cons.
    destruct (Hdesc sd (or_introl eq_refl) (acc ++ [sd])) as [sub [Hs Hy]].
    rewrite Hs.
    destruct (IH ((acc ++ [sd]) ++ sub) w) as [subs [Hr Hf]].
    { intros sd' Hin. apply Hdesc. now right. }
    exists (sub :: subs). split; [|constructor; auto].
    rewrite Hr. unfold interleave. simpl.
    now rewrite <- !app_assoc.
Qed.

Lemma below_split root p :
  below fs root p ->
  exists c, is_dir fs (root ++ [c]) = true /\
    (p = root ++ [c] \/ below fs (root ++ [c]) p).
Proof.
  intros [Hd [q [Hq ->]]].
  destruct q as [|c q']; [congruence|].
  exists c.
  assert (E : root ++ c :: q' = (root ++ [c]) ++ q')
    by now rewrite <- app_assoc.
  rewrite E in *. split; [eapply is_dir_prefix; eauto|].
  destruct q' as [|c' q''].
  - left. now rewrite app_nil_r.
  - right. split; [exact Hd|]. exists (c' :: q''). split; [discriminate|auto].
Qed.

Lemma below_trans root c p :
  below fs (root ++ [c]) p -> below fs root p.
Proof.
  intros [Hd [q [Hq ->]]]. split; [exact Hd|].
  exists (c :: q). split; [discriminate|]. now rewrite <- app_assoc.
Qed.

Lemma list_subdirs_complete root siblings c :
  list_subdirs root fs = Ok siblings ->
  is_dir fs (root ++ [c]) = true -> In (root ++ [c]) siblings.
Proof.
  unfold list_subdirs. intros H Hd.
  apply bind_ok in H. destruct H as [ps [Hps H]]. inversion H. subst.
  apply filter_In. split; [|exact Hd].
  eapply iterdir_complete; eauto.
  unfold exists_. unfold is_dir in Hd.
  destruct (lookup fs (root ++ [c])); [reflexivity|discriminate].
Qed.

Theorem collect_walk fuel : forall k root acc w,
  w_fs w = fs -> enterable k w root -> k < fuel ->
  listable_below fs root -> keys_below fs root ->
  exists l,
    for_subdirs collect fuel root acc w = Some (Ok (acc ++ l), w) /\
    yields fs root l.
Proof.
  induction fuel as [|fuel IH]; intros k root acc w Hw [Hd Hb] Hk Hl Hkeys;
    [lia|].
  simpl. rewrite Hw in *.
  destruct (Hl [] ltac:(now rewrite app_nil_r)) as [ps Hps].
  rewrite app_nil_r in Hps.
  assert (Hsub : list_subdirs root fs = Ok (filter (is_dir fs) ps)).
  { unfold list_subdirs. now rewrite Hps. }
  rewrite Hsub.
  destruct (sort_natural_ok (filter (is_dir fs) ps)) as [sorted Hs].
  { rewrite Forall_forall. intros sd Hsd.
    destruct (list_subdirs_in _ _ _ _ Hsub Hsd) as [Hsdd [c ->]].
    rewrite name_snoc. apply (Hkeys [] c). exact Hsdd. }
  rewrite Hs.
  assert (Hin : forall sd, In sd sorted ->
            exists c, sd = root ++ [c] /\ is_dir fs sd = true).
  { intros sd Hsd. apply (sort_natural_in _ _ sd Hs) in Hsd.
    destruct (list_subdirs_in _ _ _ _ Hsub Hsd) as [Hsdd [c ->]]. eauto. }
  destruct (each_collect (for_subdirs collect fuel) sorted acc w)
    as [subs [Hr Hf]].
  { intros sd Hsd a. destruct (Hin sd Hsd) as [c [-> Hsdd]].
    destruct (depth_bound_child _ _ _ _ Hb Hsdd) as [Hk1 Hb1].
    apply (IH (k - 1)); auto.
    - split; rewrite Hw; assumption.
    - lia.
    - now apply listable_below_child.
    - now apply keys_below_child. }
  exists (interleave sorted subs). split; [exact Hr|]. split.
  - apply (dfs_level fs root (filter (is_dir fs) ps)); auto.
    + now apply sort_natural_perm.
    + eapply sort_natural_sorted; eauto.
    + eapply Forall2_impl; [|exact Hf]. intros a b [H _]. exact H.
  - intros p. rewrite in_interleave. split.
    + intros [sd [sub [Hc Hp]]].
      pose proof (Forall2_combine_in _ _ _ _ _ Hf Hc) as [_ Hy].
      destruct (Hin sd (in_combine_l _ _ _ _ Hc)) as [c [-> Hsdd]].
      destruct Hp as [->|Hp].
      * split; [exact Hsdd|]. exists [c]. split; [discriminate|auto].
      * apply (below_trans root c). now apply Hy.
    + intros Hp. destruct (below_split _ _ Hp) as [c [Hc Hp']].
      assert (Hsd : In (root ++ [c]) sorted).
      { apply (sort_natural_in _ _ _ Hs).
        now apply (list_subdirs_complete root). }
      destruct (Forall2_combine_left _ _ _ _ Hf Hsd) as [sub Hsub'].
      exists (root ++ [c]), sub. split; [exact Hsub'|].
      destruct Hp' as [->|Hp']; [now left|].
      right. now apply (Forall2_combine_in _ _ _ _ _ Hf Hsub').
Qed.
End WalkOrder.

(** ** One directory, seen through its entries *)

Lemma lookup_modify_at f d : forall fs l es,
  lookup fs d = Some (Dir l es) ->
  lookup (modify f d fs) d = Some (Dir l (f es)).
Proof.
  induction d as [|c d IH]; intros fs l es H.
  - simpl in H. inversion H. reflexivity.
  - destruct fs as [|l0 es0]; [discriminate|]. simpl in H |- *.
    rewrite assoc_map_first, String.eqb_refl.
    destruct (assoc c es0) as [n|]; [|discriminate]. simpl. now apply IH.
Qed.

Lemma lookup_modify_child f d fs l es x :
  lookup fs d = Some (Dir l es) ->
  lookup (modify f d fs) (d ++ [x]) = assoc x (f es).
Proof.
  intros H. rewrite lookup_snoc, (lookup_modify_at f d fs l es H).
  reflexivity.
Qed.

Lemma map_first_ext c g h es :
  (forall n, assoc c es = Some n -> g n = h n) ->
  map_first c g es = map_first c h es.
Proof.
  induction es as [|[k v] es IH]; simpl; [reflexivity|].
  destruct (String.eqb k c).
  - intros H. now rewrite (H v eq_refl).
  - intros H. now rewrite IH.
Qed.

Lemma map_first_map_first c g h es :
  map_first c g (map_first c h es) = map_first c (fun n => g (h n)) es.
Proof.
  induction es as [|[k v] es IH]; simpl; [reflexivity|].
  destruct (String.eqb k c) eqn:E; simpl; rewrite E; [reflexivity|].
  now rewrite IH.
Qed.

Lemma modify_ext_at f g d : forall fs l es,
  lookup fs d = Some (Dir l es) -> f es = g es ->
  modify f d fs = modify g d fs.
Proof.
  induction d as [|c d IH]; intros fs l es H Hfg.
  - simpl in H. inversion H. simpl. now rewrite Hfg.
  - destruct fs as [|l0 es0]; [discriminate|]. simpl in H |- *.
    f_equal. apply map_first_ext. intros n Hn. rewrite Hn in H.
    eapply IH; eauto.
Qed.

Lemma modify_modify f g d : forall fs,
  modify g d (modify f d fs) = modify (fun es => g (f es)) d fs.
Proof.
  induction d as [|c d IH]; intros [l0 x|l0 es0]; simpl; try reflexivity.
  rewrite map_first_map_first. f_equal.
  apply map_first_ext. intros n _. apply IH.
Qed.

Lemma file_at_modify_root f d n :
  file_at (modify f d n) [] = file_at n [].
Proof. destruct n as [l x|l es]; destruct d; reflexivity. Qed.

Lemma parent_cons c (q : path) : q <> [] -> parent (c :: q) = c :: parent q.
Proof. destruct q; [congruence | reflexivity]. Qed.

(** Changing the entries of [d] leaves the files of every other directory
    as they are, as long as no directory entry of [d] is touched. *)
Lemma modify_file_at f d : forall fs q,
  (forall l es, lookup fs d = Some (Dir l es) ->
     forall c, dir_part (assoc c (f es)) = dir_part (assoc c es)) ->
  parent q <> d ->
  file_at (modify f d fs) q = file_at fs q.
Proof.
  induction d as [|c d IH]; intros fs q Hf Hq.
  - destruct fs as [l x|l es]; [reflexivity|]. simpl.
    destruct q as [|c q]; [reflexivity|].
    destruct q as [|c' q]; [simpl in Hq; congruence|].
    unfold file_at. simpl.
    specialize (Hf l es eq_refl c).
    destruct (assoc c es) as [[l1 d1|l1 es1]|],
      (assoc c (f es)) as [[l2 d2|l2 es2]|]; simpl in Hf;
      try discriminate; try reflexivity.
    inversion Hf. reflexivity.
  - destruct fs as [l x|l es]; [reflexivity|]. simpl.
    destruct q as [|c' q]; [reflexivity|].
    unfold file_at. simpl. rewrite assoc_map_first.
    destruct (String.eqb_spec c c') as [<-|Hc]; [|reflexivity].
    destruct (assoc c es) as [n|] eqn:Hn; simpl; [|reflexivity].
    destruct q as [|c' q'].
    + apply (file_at_modify_root f d n).
    + apply (IH n (c' :: q')).
      * intros l' es' Hl. apply (Hf l' es'). simpl. now rewrite Hn.
      * intros E. apply Hq. rewrite parent_cons by discriminate.
        now rewrite E.
Qed.

(** ** os.rename inside one directory *)

Lemma is_root_snoc (d : path) c : is_root (d ++ [c]) = false.
Proof. destruct d; reflexivity. Qed.

Lemma is_prefix_snoc (d : path) c c' :
  c <> c' -> is_prefix (d ++ [c]) (d ++ [c']) = false.
Proof.
  intros Hc. induction d as [|x d IH]; simpl.
  - apply String.eqb_neq in Hc. now rewrite Hc.
  - now rewrite IH, andb_false_r.
Qed.

Lemma snoc_inj (d : path) c c' : d ++ [c] = d ++ [c'] -> c = c'.
Proof. intros H. apply app_inv_head in H. now inversion H. Qed.

Lemma path_eqb_snoc (d : path) c c' :
  c <> c' -> path_eqb (d ++ [c]) (d ++ [c']) = false.
Proof. intros Hc. apply path_eqb_neq. intros H. now apply snoc_inj in H. Qed.

Lemma is_dir_lookup fs d l es : lookup fs d = Some (Dir l es) -> is_dir fs d = true.
Proof. unfold is_dir. now intros ->. Qed.

Section SameDirectory.
Variable fs : node.
Variable d : path.
Variable l : bool.
Variable es : list (string * node).
Hypothesis at_d : lookup fs d = Some (Dir l es).

Lemma lookup_child x : lookup fs (d ++ [x]) = assoc x es.
Proof using at_d. now rewrite lookup_snoc, at_d. Qed.

Lemma del_child c fs' :
  del (d ++ [c]) fs' = modify (remove_entry c) d fs'.
Proof using Type. unfold del. now rewrite name_snoc, parent_snoc. Qed.

Lemma put_child c n fs' :
  put (d ++ [c]) n fs' = modify (fun es0 => es0 ++ [(c, n)]) d fs'.
Proof using Type. unfold put. now rewrite name_snoc, parent_snoc. Qed.

Lemma os_rename_locked pf c c' a :
  assoc c es = Some (File true a) ->
  os_rename pf fs (d ++ [c]) (d ++ [c']) = Raise PermissionError.
Proof using at_d.
  intros Hc. unfold os_rename.
  rewrite !is_root_snoc, lookup_child, Hc. reflexivity.
Qed.

Lemma os_rename_free pf c c' a :
  assoc c es = Some (File false a) -> assoc c' es = None ->
  os_rename pf fs (d ++ [c]) (d ++ [c']) =
  Ok (modify (fun _ => remove_entry c es ++ [(c', File false a)]) d fs).
Proof using at_d.
  intros Hc Hc'. unfold os_rename.
  assert (Hne : c <> c') by congruence.
  rewrite !is_root_snoc, !lookup_child, Hc, Hc'. simpl.
  rewrite parent_snoc, (is_dir_lookup _ _ _ _ at_d).
  rewrite (is_prefix_snoc d c c' Hne).
  rewrite del_child, put_child, modify_modify.
  f_equal. eapply modify_ext_at; eauto.
Qed.

Lemma os_rename_over_posix c c' a lb b :
  c <> c' ->
  assoc c es = Some (File false a) -> assoc c' es = Some (File lb b) ->
  os_rename Posix fs (d ++ [c]) (d ++ [c']) =
  Ok (modify
        (fun _ => remove_entry c' (remove_entry c es) ++ [(c', File false a)])
        d fs).
Proof using at_d.
  intros Hne Hc Hc'. unfold os_rename.
  rewrite !is_root_snoc, !lookup_child, Hc, Hc'. simpl.
  rewrite (path_eqb_snoc d c c' Hne).
  rewrite !del_child, put_child, !modify_modify.
  f_equal. eapply modify_ext_at; eauto.
Qed.

Lemma os_rename_over_windows c c' a m :
  c <> c' ->
  assoc c es = Some (File false a) -> assoc c' es = Some m ->
  os_rename Windows fs (d ++ [c]) (d ++ [c']) = Raise FileExistsError.
Proof using at_d.
  intros Hne Hc Hc'. unfold os_rename.
  rewrite !is_root_snoc, !lookup_child, Hc, Hc'. simpl.
  now rewrite (path_eqb_snoc d c c' Hne).
Qed.
End SameDirectory.

(** ** _safe_rename inside one directory *)

Section SafeRenameSameDirectory.
Variable uuid4_hex : nat -> string.
Variable w : world.
Variable d : path.
Variable l : bool.
Variable es : list (string * node).
Hypothesis at_d : lookup (w_fs w) d = Some (Dir l es).

Lemma exists_child x :
  exists_ (w_fs w) (d ++ [x]) =
  match assoc x es with Some _ => true | None => false end.
Proof using at_d. unfold exists_. now rewrite (lookup_child _ _ _ _ at_d). Qed.

Lemma safe_rename_free pf c c' a :
  assoc c es = Some (File false a) -> assoc c' es = None ->
  _safe_rename pf uuid4_hex (d ++ [c]) (d ++ [c']) w =
  (Ok tt,
   with_entries w d (remove_entry c es ++ [(c', File false a)]) (w_drawn w)).
Proof using at_d.
  intros Hc Hc'. unfold _safe_rename.
  rewrite path_eqb_snoc by congruence.
  unfold bindM, read. rewrite exists_child, Hc'.
  unfold rename. now rewrite (os_rename_free _ _ _ _ at_d pf c c' a Hc Hc').
Qed.

Lemma safe_rename_locked pf c c' a :
  assoc c es = Some (File true a) -> assoc c' es = None ->
  _safe_rename pf uuid4_hex (d ++ [c]) (d ++ [c']) w =
  (Raise PermissionError, w).
Proof using at_d.
  intros Hc Hc'. unfold _safe_rename.
  rewrite path_eqb_snoc by congruence.
  unfold bindM, read. rewrite exists_child, Hc'.
  unfold rename. now rewrite (os_rename_locked _ _ _ _ at_d pf c c' a Hc).
Qed.

(** The destination exists: the hop through the temporary name. *)
Lemma safe_rename_hop pf c c' a m :
  c <> c' ->
  assoc c es = Some (File false a) -> assoc c' es = Some m ->
  assoc (temp_name (uuid4_hex (w_drawn w)) c) es = None ->
  let t := temp_name (uuid4_hex (w_drawn w)) c in
  let es1 := remove_entry c es ++ [(t, File false a)] in
  _safe_rename pf uuid4_hex (d ++ [c]) (d ++ [c']) w =
  rename pf (d ++ [t]) (d ++ [c']) (with_entries w d es1 (S (w_drawn w))).
Proof using at_d.
  intros Hne Hc Hc' Ht t es1. unfold _safe_rename.
  rewrite path_eqb_snoc by congruence.
  unfold bindM, read. rewrite exists_child, Hc'.
  unfold uuid4. rewrite with_name_snoc, name_snoc.
  fold (temp_name (uuid4_hex (w_drawn w)) c). fold t.
  unfold rename at 1. simpl.
  rewrite (os_rename_free _ _ _ _ at_d pf c t a Hc Ht).
  reflexivity.
Qed.
End SafeRenameSameDirectory.

(** ** Entries and names *)

Lemma string_app_inv_head (s a b : string) :
  (s ++ a)%string = (s ++ b)%string -> a = b.
Proof.
  induction s as [|x s IH]; simpl; [auto|].
  intros H. inversion H. auto.
Qed.

Lemma pre_inj idx a b : pre idx a = pre idx b -> a = b.
Proof.
  unfold pre. intros H. apply string_app_inv_head in H.
  simpl in H. now inversion H.
Qed.

Lemma prefixed_snoc idx (d : path) c :
  prefixed idx (d ++ [c]) = d ++ [pre idx c].
Proof. unfold prefixed, pre. now rewrite with_name_snoc, name_snoc. Qed.

Lemma assoc_none_iff c es : assoc c es = None <-> ~ In c (map fst es).
Proof.
  induction es as [|[k v] es IH]; simpl; [tauto|].
  destruct (String.eqb_spec k c) as [->|Hk].
  - split; [discriminate | intros H; exfalso; auto].
  - rewrite IH. tauto.
Qed.

Lemma in_names_remove_entry x c es :
  In x (map fst (remove_entry c es)) <-> In x (map fst es) /\ x <> c.
Proof.
  unfold remove_entry. rewrite !in_map_iff. split.
  - intros [[k v] [<- H]]. apply filter_In in H. destruct H as [H Hk].
    simpl in *. apply negb_true_iff, String.eqb_neq in Hk.
    split; [exists (k, v); auto | exact Hk].
  - intros [[[k v] [<- H]] Hne]. exists (k, v). split; [reflexivity|].
    apply filter_In. split; [exact H|].
    simpl in *. now apply negb_true_iff, String.eqb_neq.
Qed.

Lemma NoDup_remove_entry c es :
  NoDup (map fst es) -> NoDup (map fst (remove_entry c es)).
Proof.
  unfold remove_entry. induction es as [|[k v] es IH]; simpl; [auto|].
  intros H. inversion H as [|? ? Hk Hes]; subst.
  destruct (negb (String.eqb k c)); simpl; auto.
  constructor; auto.
  intros Hin. apply Hk.
  apply (in_names_remove_entry k c es) in Hin. tauto.
Qed.

Lemma remove_entry_notin c es :
  ~ In c (map fst es) -> remove_entry c es = es.
Proof.
  unfold remove_entry. induction es as [|[k v] es IH]; simpl; [auto|].
  intros H. destruct (String.eqb_spec k c) as [->|Hk]; simpl.
  - exfalso. auto.
  - f_equal. apply IH. tauto.
Qed.

Lemma filter_dirs_remove_file c es lk a :
  NoDup (map fst es) -> assoc c es = Some (File lk a) ->
  filter is_dir_node (remove_entry c es) = filter is_dir_node es.
Proof.
  induction es as [|[k v] es IH]; simpl; [discriminate|].
  intros Hnd. inversion Hnd as [|? ? Hk Hes]; subst.
  unfold remove_entry. simpl.
  destruct (String.eqb_spec k c) as [->|Hne]; simpl.
  - intros H. inversion H. subst. unfold is_dir_node at 2. simpl.
    fold (remove_entry c es). now rewrite remove_entry_notin.
  - intros H. fold (remove_entry c es). rewrite (IH Hes H). reflexivity.
Qed.

Lemma assoc_renamed x c p n es :
  assoc x (remove_entry c es ++ [(p, n)]) =
  if String.eqb c x then (if String.eqb p x then Some n else None)
  else match assoc x es with
       | Some v => Some v
       | None => if String.eqb p x then Some n else None
       end.
Proof.
  rewrite assoc_app, assoc_remove_entry. simpl.
  destruct (String.eqb c x); [reflexivity|].
  destruct (assoc x es); reflexivity.
Qed.

Lemma modify_id d : forall fs, modify (fun es => es) d fs = fs.
Proof.
  induction d as [|c d IH]; intros [l x|l es]; simpl; try reflexivity.
  f_equal. induction es as [|[k v] es IHes]; simpl; [reflexivity|].
  destruct (String.eqb k c); [now rewrite IH | now rewrite IHes].
Qed.

Lemma modify_same_at d fs l es :
  lookup fs d = Some (Dir l es) -> modify (fun _ => es) d fs = fs.
Proof.
  intros H. rewrite <- (modify_id d fs) at 2.
  eapply modify_ext_at; eauto.
Qed.

(** ** The loop over the files of one directory, without collisions *)

Section LoopNoCollision.
Variable pf : platform.
Variable uuid4_hex : nat -> string.
Variable idx : nat.
Variable log : bool.
Variable d : path.
Variable l : bool.

Lemma renamable_file es c :
  renamable es c = true -> exists a, assoc c es = Some (File false a).
Proof.
  unfold renamable. destruct (assoc c es) as [[[] a|]|]; try discriminate.
  eauto.
Qed.

Lemma not_renamable_file es c :
  is_file_entry es c = true -> renamable es c = false ->
  exists a, assoc c es = Some (File true a).
Proof.
  unfold renamable, is_file_entry.
  destruct (assoc c es) as [[[] a|]|]; try discriminate. eauto.
Qed.

Lemma world_eta w : mkWorld (w_fs w) (w_out w) (w_drawn w) = w.
Proof. destruct w. reflexivity. Qed.

Lemma prefix_loop_no_collision L : forall es w changed,
  lookup (w_fs w) d = Some (Dir l es) ->
  NoDup L -> NoDup (map fst es) ->
  (forall c, In c L -> is_file_entry es c = true) ->
  (forall c, In c L -> assoc (pre idx c) es = None) ->
  exists es',
    prefix_loop pf uuid4_hex idx log (map (fun c => d ++ [c]) L) changed w =
      (Ok (changed + List.length (filter (renamable es) L)),
       mkWorld (modify (fun _ => es') d (w_fs w))
         (w_out w ++ (if log then map (loop_event idx d es) L else []))
         (w_drawn w)) /\
    loop_effect idx L es es'.
Proof.
  induction L as [|c L IH]; intros es w changed Hd HL Hes Hfile Hfree.
  - exists es. split.
    + simpl. unfold ret. rewrite (modify_same_at _ _ _ _ Hd).
      replace (w_out w ++ (if log then [] else [])) with (w_out w)
        by (destruct log; now rewrite app_nil_r).
      now rewrite Nat.add_0_r, world_eta.
    + repeat split; auto;
        match goal with H : In _ [] |- _ => destruct H end.
  - inversion HL as [|? ? HcL HL']; subst.
    assert (Hfc : is_file_entry es c = true) by (apply Hfile; now left).
    assert (Hpc : assoc (pre idx c) es = None) by (apply Hfree; now left).
    assert (Hne : forall c2, In c2 L -> c2 <> c) by (intros c2 H ->; auto).
    assert (Hsome : forall c2, In c2 (c :: L) -> assoc c2 es <> None).
    { intros c2 H2 E. specialize (Hfile c2 H2).
      unfold is_file_entry in Hfile. now rewrite E in Hfile. }
    assert (Hpne : forall c2 c3, In c2 (c :: L) -> In c3 (c :: L) ->
              c2 <> pre idx c3).
    { intros c2 c3 H2 H3 E. apply (Hsome c2 H2). rewrite E. now apply Hfree. }
    simpl map. rewrite prefix_loop_cons, prefixed_snoc.
    destruct (renamable es c) eqn:Hr.
    + destruct (renamable_file _ _ Hr) as [a Ha].
      rewrite (safe_rename_free uuid4_hex w d l es Hd pf c (pre idx c) a Ha Hpc).
      set (es1 := remove_entry c es ++ [(pre idx c, File false a)]).
      set (w1 := snd (emit log (LogRenamed (d ++ [c]) (d ++ [pre idx c]))
                        (with_entries w d es1 (w_drawn w)))).
      assert (Hd1 : lookup (w_fs w1) d = Some (Dir l es1)).
      { unfold w1. rewrite emit_fs. simpl.
        apply (lookup_modify_at (fun _ => es1) d _ l es Hd). }
      assert (Hsame : forall c2, In c2 L -> assoc c2 es1 = assoc c2 es).
      { intros c2 H2. unfold es1. rewrite assoc_renamed.
        destruct (String.eqb_spec c c2) as [->|_]; [now apply Hne in H2|].
        destruct (assoc c2 es) eqn:E; [reflexivity|].
        exfalso. apply (Hsome c2); auto. now right. }
      assert (Hren : forall c2, In c2 L -> renamable es1 c2 = renamable es c2).
      { intros c2 H2. unfold renamable. now rewrite Hsame. }
      destruct (IH es1 w1 (changed + 1) Hd1 HL') as [es' [Hrun Heff]].
      { unfold es1. rewrite map_app. simpl.
        apply NoDup_app_remove_l with (l := []). simpl.
        apply Permutation_NoDup with
          (l := pre idx c :: map fst (remove_entry c es)).
        - apply Permutation_cons_append.
        - constructor; [|now apply NoDup_remove_entry].
          intros Hin. apply in_names_remove_entry in Hin.
          apply assoc_none_iff in Hpc. tauto. }
      { intros c2 H2. unfold is_file_entry. rewrite Hsame by auto.
        apply Hfile. now right. }
      { intros c2 H2. unfold es1. rewrite assoc_renamed.
        destruct (String.eqb_spec c (pre idx c2)) as [E|_].
        - exfalso.
          exact (Hpne c c2 (or_introl eq_refl) (or_intror H2) E).
        - rewrite (Hfree c2) by now right.
          destruct (String.eqb_spec (pre idx c) (pre idx c2)) as [E|_];
            [|reflexivity].
          apply pre_inj in E. subst c2. contradiction. }
      exists es'. split.
      * rewrite Hrun.
        assert (E1 : changed + 1 + List.length (filter (renamable es1) L) =
                     changed + List.length (filter (renamable es) (c :: L))).
        { simpl. rewrite Hr. simpl.
          rewrite (filter_ext_in _ _ L Hren). lia. }
        assert (E2 : modify (fun _ => es') d (w_fs w1) =
                     modify (fun _ => es') d (w_fs w)).
        { unfold w1. rewrite emit_fs. simpl. now rewrite modify_modify. }
        assert (E3 : w_out w1 ++ (if log then map (loop_event idx d es1) L
                                  else []) =
                     w_out w ++ (if log then map (loop_event idx d es) (c :: L)
                                 else [])).
        { unfold w1. rewrite emit_out. simpl. rewrite <- app_assoc. f_equal.
          destruct log; [|reflexivity]. simpl.
          unfold loop_event at 2. rewrite Hr. f_equal.
          apply map_ext_in. intros c2 H2. unfold loop_event.
          now rewrite Hren. }
        assert (E4 : w_drawn w1 = w_drawn w).
        { unfold w1. destruct log; reflexivity. }
        now rewrite E1, E2, E3, E4.
      * destruct Heff as [Ha' [Hb' [Hc' [Hnd Hdirs]]]].
        assert (Hpc1 : assoc (pre idx c) es1 = Some (File false a)).
        { unfold es1. rewrite assoc_renamed.
          destruct (String.eqb_spec c (pre idx c)) as [E|_].
          - exfalso.
            exact (Hpne c c (or_introl eq_refl) (or_introl eq_refl) E).
          - now rewrite Hpc, String.eqb_refl. }
        assert (Hc1 : assoc c es1 = None).
        { unfold es1. rewrite assoc_renamed, String.eqb_refl.
          destruct (String.eqb_spec (pre idx c) c) as [E|_]; [|reflexivity].
          exfalso.
          exact (Hpne c c (or_introl eq_refl) (or_introl eq_refl) (eq_sym E)). }
        split; [|split; [|split; [|split]]].
        -- intros c2 [<-|H2] Hr2; split.
           ++ rewrite Ha, <- Hpc1. apply Hc'.
              ** intros H.
                 exact (Hpne _ c (or_intror H) (or_introl eq_refl) eq_refl).
              ** intros c3 H3 E. apply pre_inj in E. subst. contradiction.
           ++ rewrite <- Hc1. apply Hc'; auto.
              intros c3 H3 E.
              exact (Hpne c c3 (or_introl eq_refl) (or_intror H3) E).
           ++ rewrite <- (Hsame c2 H2). apply Ha'; auto.
              now rewrite Hren.
           ++ apply Ha'; auto. now rewrite Hren.
        -- intros c2 [<-|H2] Hr2; [congruence|]. split.
           ++ rewrite <- (Hsame c2 H2). apply Hb'; auto. now rewrite Hren.
           ++ apply Hb'; auto. now rewrite Hren.
        -- intros x Hx Hxp.
           rewrite Hc'.
           ++ unfold es1. rewrite assoc_renamed.
              destruct (String.eqb_spec c x) as [->|_];
                [exfalso; apply Hx; now left|].
              destruct (String.eqb_spec (pre idx c) x) as [E|_].
              ** exfalso. apply (Hxp c); auto. now left.
              ** now destruct (assoc x es).
           ++ intros H. apply Hx. now right.
           ++ intros c3 H3. apply Hxp. now right.
        -- exact Hnd.
        -- rewrite Hdirs. unfold es1. rewrite filter_app. simpl.
           rewrite app_nil_r.
           eapply filter_dirs_remove_file; eauto.
    + destruct (not_renamable_file _ _ Hfc Hr) as [a Ha].
      rewrite (safe_rename_locked uuid4_hex w d l es Hd pf c (pre idx c) a Ha Hpc).
      set (w1 := snd (emit log (LogError (d ++ [c]) PermissionError) w)).
      assert (Hd1 : lookup (w_fs w1) d = Some (Dir l es)).
      { unfold w1. now rewrite emit_fs. }
      destruct (IH es w1 changed Hd1 HL' Hes) as [es' [Hrun Heff]].
      { intros c2 H2. apply Hfile. now right. }
      { intros c2 H2. apply Hfree. now right. }
      exists es'. split.
      * rewrite Hrun.
        assert (E1 : changed + List.length (filter (renamable es) L) =
                     changed + List.length (filter (renamable es) (c :: L))).
        { simpl. now rewrite Hr. }
        assert (E2 : w_fs w1 = w_fs w).
        { unfold w1. now rewrite emit_fs. }
        assert (E3 : w_out w1 ++ (if log then map (loop_event idx d es) L
                                  else []) =
                     w_out w ++ (if log then map (loop_event idx d es) (c :: L)
                                 else [])).
        { unfold w1. rewrite emit_out. rewrite <- app_assoc. f_equal.
          destruct log; [|reflexivity]. simpl.
          unfold loop_event at 2. now rewrite Hr. }
        assert (E4 : w_drawn w1 = w_drawn w).
        { unfold w1. destruct log; reflexivity. }
        now rewrite E1, E2, E3, E4.
      * destruct Heff as [Ha' [Hb' [Hc' [Hnd Hdirs]]]].
        split; [|split; [|split; [|split]]]; auto.
        -- intros c2 [<-|H2] Hr2; [congruence|]. now apply Ha'.
        -- intros c2 [<-|H2] Hr2; [|now apply Hb']. split.
           ++ apply Hc'; auto.
              intros c3 H3 E.
              exact (Hpne c c3 (or_introl eq_refl) (or_intror H3) E).
           ++ rewrite Hc'; auto.
              ** intros H.
                 exact (Hpne _ c (or_intror H) (or_introl eq_refl) eq_refl).
              ** intros c3 H3 E. apply pre_inj in E. subst. contradiction.
        -- intros x Hx Hxp. apply Hc'.
           ++ intros H. apply Hx. now right.
           ++ intros c3 H3. apply Hxp. now right.
Qed.
End LoopNoCollision.

(** ** _prefix_files_in_dir in a directory without collisions *)

Lemma filter_map_comm {X Y} (f : X -> Y) (P : Y -> bool) (xs : list X) :
  filter P (map f xs) = map f (filter (fun x => P (f x)) xs).
Proof.
  induction xs as [|x xs IH]; simpl; [reflexivity|].
  destruct (P (f x)); simpl; now rewrite IH.
Qed.

Lemma NoDup_names_filter (P : string * node -> bool) es :
  NoDup (map fst es) -> NoDup (map fst (filter P es)).
Proof.
  induction es as [|e es IH]; simpl; [auto|].
  intros H. inversion H as [|? ? Hk Hes]; subst.
  destruct (P e); simpl; auto.
  constructor; auto. intros Hin. apply Hk.
  apply in_map_iff in Hin. destruct Hin as [e' [<- He']].
  apply filter_In in He'. apply in_map. tauto.
Qed.

Lemma assoc_NoDup c n es :
  NoDup (map fst es) -> In (c, n) es -> assoc c es = Some n.
Proof.
  induction es as [|[k v] es IH]; simpl; [tauto|].
  intros H. inversion H as [|? ? Hk Hes]; subst.
  intros [E|Hin].
  - inversion E. subst. now rewrite String.eqb_refl.
  - destruct (String.eqb_spec k c) as [->|_]; [|auto].
    exfalso. apply Hk. apply in_map_iff. exists (c, n). auto.
Qed.

Section DirectoryNoCollision.
Variable pf : platform.
Variable uuid4_hex : nat -> string.
Variable idx : nat.
Variable log : bool.
Variable w : world.
Variable d : path.
Variable es : list (string * node).
Hypothesis at_d : lookup (w_fs w) d = Some (Dir true es).
Hypothesis unique : NoDup (map fst es).
Hypothesis keys : forall c, is_file_entry es c = true -> has_key c.
Hypothesis free :
  forall c, is_file_entry es c = true -> assoc (pre idx c) es = None.

Lemma is_file_child c :
  is_file (w_fs w) (d ++ [c]) = is_file_entry es c.
Proof using at_d.
  unfold is_file, is_file_entry. now rewrite (lookup_child _ _ _ _ at_d).
Qed.

Lemma list_files_at_d :
  list_files d (w_fs w) =
  Ok (map (fun c => d ++ [c])
        (map fst (filter (fun e => is_file_entry es (fst e)) es))).
Proof using at_d.
  unfold list_files, iterdir. rewrite at_d. simpl. f_equal.
  rewrite filter_map_comm, map_map. f_equal.
  apply filter_ext. intros e. apply is_file_child.
Qed.

Theorem prefix_files_no_collision :
  exists L es',
    _prefix_files_in_dir pf uuid4_hex d idx log w =
      (Ok (List.length (filter (renamable es) L)),
       mkWorld (modify (fun _ => es') d (w_fs w))
         (w_out w ++ (if log then map (loop_event idx d es) L else []))
         (w_drawn w)) /\
    NoDup L /\
    (forall c, In c L <-> is_file_entry es c = true) /\
    loop_effect idx L es es'.
Proof using at_d unique keys free.
  set (names := map fst (filter (fun e => is_file_entry es (fst e)) es)).
  assert (Hnames : forall c, In c names <-> is_file_entry es c = true).
  { intros c. unfold names. rewrite in_map_iff. split.
    - intros [e [<- He]]. apply filter_In in He. tauto.
    - intros Hc. unfold is_file_entry in Hc.
      destruct (assoc c es) as [n|] eqn:E; [|discriminate].
      exists (c, n). split; [reflexivity|].
      apply filter_In. split; [now apply assoc_in|].
      simpl. unfold is_file_entry. now rewrite E. }
  assert (Hnd : NoDup names) by (apply NoDup_names_filter; exact unique).
  destruct (sort_natural_ok (map (fun c => d ++ [c]) names)) as [sorted Hs].
  { rewrite Forall_forall. intros p Hp.
    apply in_map_iff in Hp. destruct Hp as [c [<- Hc]].
    rewrite name_snoc. apply keys. now apply Hnames. }
  set (L := map name sorted).
  assert (Hperm : Permutation names L).
  { unfold L. apply sort_natural_perm in Hs.
    apply (Permutation_map name) in Hs.
    rewrite map_map in Hs.
    rewrite (map_ext _ (fun c => c)) in Hs
      by (intros c; apply name_snoc).
    now rewrite map_id in Hs. }
  assert (Hsorted : sorted = map (fun c => d ++ [c]) L).
  { unfold L. rewrite map_map.
    rewrite <- (map_id sorted) at 1. apply map_ext_in.
    intros p Hp. apply (sort_natural_in _ _ p Hs) in Hp.
    apply in_map_iff in Hp. destruct Hp as [c [<- _]].
    now rewrite name_snoc. }
  assert (HL : forall c, In c L <-> is_file_entry es c = true).
  { intros c. rewrite <- Hnames. split; apply Permutation_in;
      [now symmetry | assumption]. }
  destruct (prefix_loop_no_collision pf uuid4_hex idx log d true L es w 0
              at_d) as [es' [Hrun Heff]].
  - eapply Permutation_NoDup; eauto.
  - exact unique.
  - intros c Hc. now apply HL.
  - intros c Hc. apply free. now apply HL.
  - exists L, es'. split; [|split; [|split]]; auto.
    + unfold _prefix_files_in_dir. rewrite list_files_at_d.
      fold names. unfold bindM, read. rewrite Hs, Hsorted. exact Hrun.
    + eapply Permutation_NoDup; eauto.
Qed.
End DirectoryNoCollision.

(** ** _safe_rename when the destination exists *)

Section Collision.
Variable uuid4_hex : nat -> string.
Variable w : world.
Variable d : path.
Variable l : bool.
Variable es : list (string * node).
Variables c c' a : string.
Hypothesis at_d : lookup (w_fs w) d = Some (Dir l es).
Hypothesis distinct : c <> c'.
Hypothesis src_file : assoc c es = Some (File false a).
Hypothesis temp_free : assoc (temp_name (uuid4_hex (w_drawn w)) c) es = None.

Let t := temp_name (uuid4_hex (w_drawn w)) c.
Let es1 := remove_entry c es ++ [(t, File false a)].

Lemma temp_entries x :
  assoc x es1 =
  if String.eqb c x then None
  else if String.eqb t x then Some (File false a) else assoc x es.
Proof using src_file temp_free.
  unfold es1. rewrite assoc_renamed.
  assert (Htc : String.eqb t c = false).
  { apply String.eqb_neq. intros E. unfold t in E.
    rewrite E in temp_free. congruence. }
  destruct (String.eqb_spec c x) as [<-|_]; [now rewrite Htc|].
  destruct (String.eqb_spec t x) as [<-|_].
  - fold t in temp_free. now rewrite temp_free.
  - now destruct (assoc x es).
Qed.

(** On Windows the second hop is refused: the call raises and the source
    is left under the temporary name. *)
Theorem safe_rename_collision_windows m :
  assoc c' es = Some m ->
  _safe_rename Windows uuid4_hex (d ++ [c]) (d ++ [c']) w =
    (Raise FileExistsError, with_entries w d es1 (S (w_drawn w))) /\
  assoc c es1 = None /\
  assoc t es1 = Some (File false a) /\
  assoc c' es1 = Some m.
Proof using at_d distinct src_file temp_free.
  intros Hm.
  assert (Htc' : t <> c').
  { intros E. fold t in temp_free. rewrite E in temp_free. congruence. }
  assert (H1 : assoc c es1 = None)
    by now rewrite temp_entries, String.eqb_refl.
  assert (H2 : assoc t es1 = Some (File false a)).
  { rewrite temp_entries, String.eqb_refl.
    destruct (String.eqb_spec c t) as [E|_]; [|reflexivity].
    fold t in temp_free. rewrite <- E in temp_free. congruence. }
  assert (H3 : assoc c' es1 = Some m).
  { rewrite temp_entries.
    apply String.eqb_neq in distinct, Htc'. now rewrite distinct, Htc'. }
  repeat split; auto.
  rewrite (safe_rename_hop uuid4_hex w d l es at_d Windows c c' a m);
    auto.
  fold t. fold es1. unfold rename.
  assert (Hd1 : lookup (w_fs (with_entries w d es1 (S (w_drawn w)))) d
                = Some (Dir l es1)).
  { simpl. apply (lookup_modify_at (fun _ => es1) d _ l es at_d). }
  now rewrite (os_rename_over_windows _ _ _ _ Hd1 t c' a m Htc' H2 H3).
Qed.

(** On POSIX the second hop replaces the destination: the call returns,
    the destination holds what the source held, and what the destination
    held is under no name any more. *)
Theorem safe_rename_collision_posix lb b :
  assoc c' es = Some (File lb b) ->
  exists es2,
    _safe_rename Posix uuid4_hex (d ++ [c]) (d ++ [c']) w =
      (Ok tt, with_entries w d es2 (S (w_drawn w))) /\
    assoc c' es2 = Some (File false a) /\
    assoc c es2 = None /\
    forall x, x <> c' -> x <> c -> assoc x es2 = assoc x es.
Proof using at_d distinct src_file temp_free.
  intros Hm.
  assert (Htc' : t <> c').
  { intros E. fold t in temp_free. rewrite E in temp_free. congruence. }
  assert (Htc : c <> t).
  { intros E. fold t in temp_free. rewrite <- E in temp_free. congruence. }
  assert (H2 : assoc t es1 = Some (File false a)).
  { rewrite temp_entries, String.eqb_refl.
    apply String.eqb_neq in Htc. now rewrite Htc. }
  assert (H3 : assoc c' es1 = Some (File lb b)).
  { rewrite temp_entries.
    apply String.eqb_neq in distinct, Htc'. now rewrite distinct, Htc'. }
  set (es2 := remove_entry c' (remove_entry t es1) ++ [(c', File false a)]).
  exists es2. split; [|split; [|split]].
  - rewrite (safe_rename_hop uuid4_hex w d l es at_d Posix c c' a
               (File lb b)); auto.
    fold t. fold es1. unfold rename.
    assert (Hd1 : lookup (w_fs (with_entries w d es1 (S (w_drawn w)))) d
                  = Some (Dir l es1)).
    { simpl. apply (lookup_modify_at (fun _ => es1) d _ l es at_d). }
    rewrite (os_rename_over_posix _ _ _ _ Hd1 t c' a lb b Htc' H2 H3).
    unfold with_entries. simpl. now rewrite modify_modify.
  - unfold es2. now rewrite assoc_renamed, !String.eqb_refl.
  - unfold es2. rewrite assoc_renamed.
    apply not_eq_sym in distinct.
    apply String.eqb_neq in distinct. rewrite distinct.
    rewrite assoc_remove_entry.
    apply String.eqb_neq in Htc. rewrite String.eqb_sym in Htc.
    rewrite Htc, temp_entries, String.eqb_refl. reflexivity.
  - intros x Hx' Hx. unfold es2. rewrite assoc_renamed.
    apply not_eq_sym in Hx'. apply String.eqb_neq in Hx'. rewrite Hx'.
    rewrite assoc_remove_entry, temp_entries.
    apply not_eq_sym in Hx. apply String.eqb_neq in Hx. rewrite Hx.
    destruct (String.eqb_spec t x) as [<-|_].
    + fold t in temp_free. now rewrite temp_free.
    + now destruct (assoc x es).
Qed.
End Collision.

(** ** Checking a tree by computation *)

Lemma forall_dirs_lookup check p : forall n l es,
  forall_dirs check n = true -> lookup n p = Some (Dir l es) ->
  check l es = true.
Proof.
  induction p as [|c p IH]; intros n l es Hn Hl.
  - simpl in Hl. inversion Hl. subst. simpl in Hn.
    now apply andb_true_iff in Hn.
  - destruct n as [|l0 es0]; [discriminate|]. simpl in Hl, Hn.
    destruct (assoc c es0) as [n'|] eqn:E; [|discriminate].
    apply andb_true_iff in Hn. destruct Hn as [_ Hn].
    rewrite forallb_forall in Hn.
    apply (IH n' l es); auto.
    apply (Hn (c, n')). now apply assoc_in.
Qed.

Lemma has_keyb_true s : has_keyb s = true -> has_key s.
Proof.
  unfold has_keyb, has_key. destruct (natural_key s); [eauto|discriminate].
Qed.

Lemma nodupb_NoDup xs : nodupb xs = true -> NoDup xs.
Proof.
  induction xs as [|x xs IH]; simpl; [constructor|].
  intros H. apply andb_true_iff in H. destruct H as [Hx Hxs].
  constructor; [|auto].
  intros Hin. apply negb_true_iff in Hx.
  assert (E : existsb (String.eqb x) xs = true).
  { apply existsb_exists. exists x. split; [exact Hin|apply String.eqb_refl]. }
  congruence.
Qed.

Lemma check_listable_below fs root :
  forall_dirs check_listable fs = true -> listable_below fs root.
Proof.
  intros H q Hq. unfold is_dir in Hq. unfold iterdir.
  destruct (lookup fs (root ++ q)) as [[|l es]|] eqn:E; try discriminate.
  rewrite (forall_dirs_lookup _ _ _ _ _ H E : l = true). eauto.
Qed.

Lemma check_keys_below fs root :
  forall_dirs check_dir_keys fs = true -> keys_below fs root.
Proof.
  intros H q c Hq. unfold is_dir in Hq.
  rewrite app_assoc, lookup_snoc in Hq.
  destruct (lookup fs (root ++ q)) as [[|l es]|] eqn:E; try discriminate.
  pose proof (forall_dirs_lookup _ _ _ _ _ H E) as Hc.
  unfold check_dir_keys in Hc. rewrite forallb_forall in Hc.
  destruct (assoc c es) as [[|l' es']|] eqn:Ec; try discriminate.
  apply assoc_in in Ec. specialize (Hc _ Ec). simpl in Hc.
  now apply has_keyb_true.
Qed.

Lemma check_unique_names fs p l es :
  forall_dirs check_unique fs = true -> lookup fs p = Some (Dir l es) ->
  NoDup (map fst es).
Proof.
  intros H E. apply nodupb_NoDup.
  exact (forall_dirs_lookup _ _ _ _ _ H E).
Qed.

(** ** Lookups after a change of one directory *)

Lemma lookup_modify_above f p : forall r fs,
  lookup (modify f (p ++ r) fs) p = option_map (modify f r) (lookup fs p).
Proof.
  induction p as [|c p IH]; intros r fs; [reflexivity|].
  destruct fs as [l x|l es]; [reflexivity|]. simpl.
  rewrite assoc_map_first, String.eqb_refl.
  destruct (assoc c es) as [n|]; simpl; [apply IH | reflexivity].
Qed.

Lemma lookup_modify_apart f d : forall p fs,
  apart d p -> lookup (modify f d fs) p = lookup fs p.
Proof.
  induction d as [|c d IH]; intros p fs [H1 H2].
  - exfalso. apply (H1 p). reflexivity.
  - destruct p as [|c' p]; [exfalso; apply (H2 (c :: d)); reflexivity|].
    destruct fs as [l x|l es]; [reflexivity|]. simpl.
    rewrite assoc_map_first.
    destruct (String.eqb_spec c c') as [<-|Hc]; [|reflexivity].
    destruct (assoc c es) as [n|]; simpl; [|reflexivity].
    apply IH. split.
    + intros r E. apply (H1 r). simpl. now rewrite E.
    + intros r E. apply (H2 r). simpl. now rewrite E.
Qed.

Lemma path_trichotomy (d p : path) :
  (exists r, p = d ++ r) \/ (exists c r, d = p ++ c :: r) \/ apart d p.
Proof.
  revert p. induction d as [|c d IH]; intros p.
  - left. exists p. reflexivity.
  - destruct p as [|c' p]; [right; left; exists c, d; reflexivity|].
    destruct (string_dec c c') as [<-|Hc].
    + destruct (IH p) as [[r ->]|[[c2 [r ->]]|[H1 H2]]].
      * left. exists r. reflexivity.
      * right. left. exists c2, r. reflexivity.
      * right. right. split; intros r E; simpl in E; inversion E; subst.
        -- now apply (H1 r).
        -- now apply (H2 r).
    + right. right. split; intros r E; simpl in E; inversion E; congruence.
Qed.

Lemma map_fst_map_first c g es : map fst (map_first c g es) = map fst es.
Proof.
  induction es as [|[k v] es IH]; simpl; [reflexivity|].
  destruct (String.eqb k c); simpl; [reflexivity | now rewrite IH].
Qed.

Lemma modify_dir_inv f r n l2 e2 :
  modify f r n = Dir l2 e2 -> r <> [] ->
  exists e1, n = Dir l2 e1 /\ map fst e2 = map fst e1.
Proof.
  destruct r as [|c r]; [congruence|].
  destruct n as [l x|l e1]; simpl; [discriminate|].
  intros H _. inversion H. subst. exists e1. split; [reflexivity|].
  apply map_fst_map_first.
Qed.

Section ModifyDirectory.
Variable fs : node.
Variable d : path.
Variable l : bool.
Variables es es' : list (string * node).
Hypothesis at_d : lookup fs d = Some (Dir l es).
Hypothesis dirs_kept : forall x, dir_part (assoc x es') = dir_part (assoc x es).

Let fs' := modify (fun _ => es') d fs.

Lemma modify_entries_is_dir q : is_dir fs' q = is_dir fs q.
Proof using at_d dirs_kept.
  unfold fs'. apply modify_is_dir. intros l0 es0 H.
  rewrite at_d in H. inversion H. subst. exact dirs_kept.
Qed.

Lemma modify_entries_file_at q :
  parent q <> d -> file_at fs' q = file_at fs q.
Proof using at_d dirs_kept.
  unfold fs'. apply modify_file_at. intros l0 es0 H.
  rewrite at_d in H. inversion H. subst. exact dirs_kept.
Qed.

Lemma lookup_modify_below c r l2 e2 :
  lookup fs' (d ++ c :: r) = Some (Dir l2 e2) ->
  lookup fs (d ++ c :: r) = Some (Dir l2 e2).
Proof using at_d dirs_kept.
  unfold fs'. rewrite !lookup_app, at_d.
  rewrite (lookup_modify_at (fun _ => es') d fs l es at_d). simpl.
  specialize (dirs_kept c).
  destruct (assoc c es') as [[l1 x1|l1 e1]|]; try discriminate.
  - destruct r; discriminate.
  - simpl in dirs_kept.
    destruct (assoc c es) as [[|]|]; simpl in dirs_kept; try discriminate.
    inversion dirs_kept. subst. auto.
Qed.

Lemma lookup_below_kept c r l2 e2 :
  lookup fs (d ++ c :: r) = Some (Dir l2 e2) ->
  lookup fs' (d ++ c :: r) = Some (Dir l2 e2).
Proof using at_d dirs_kept.
  unfold fs'. rewrite !lookup_app, at_d.
  rewrite (lookup_modify_at (fun _ => es') d fs l es at_d). simpl.
  specialize (dirs_kept c).
  destruct (assoc c es) as [[l1 x1|l1 e1]|]; try discriminate.
  - destruct r; discriminate.
  - simpl in dirs_kept.
    destruct (assoc c es') as [[|]|]; simpl in dirs_kept; try discriminate.
    inversion dirs_kept. subst. auto.
Qed.

Lemma modify_names_unique :
  names_unique fs -> NoDup (map fst es') -> names_unique fs'.
Proof using at_d dirs_kept.
  intros Hu Hes' p l2 e2 Hp.
  destruct (path_trichotomy d p) as [[r ->]|[[c [r E]]|Hap]].
  - destruct r as [|c r].
    + rewrite app_nil_r in Hp. unfold fs' in Hp.
      rewrite (lookup_modify_at (fun _ => es') d fs l es at_d) in Hp.
      inversion Hp. now subst.
    + apply lookup_modify_below in Hp. eapply Hu; eauto.
  - unfold fs' in Hp. rewrite E, lookup_modify_above in Hp.
    destruct (lookup fs p) as [n|] eqn:En; [|discriminate].
    unfold option_map in Hp. injection Hp as Hm.
    destruct n as [l1 x|l1 e1]; [discriminate|].
    injection Hm as -> <-. rewrite map_fst_map_first. eapply Hu; eauto.
  - unfold fs' in Hp. rewrite lookup_modify_apart in Hp by exact Hap.
    eapply Hu; eauto.
Qed.
End ModifyDirectory.

(** ** The subdirectories a listing reports *)

Lemma list_subdirs_unique fs p lp ep :
  names_unique fs -> lookup fs p = Some (Dir lp ep) ->
  list_subdirs p fs =
  if lp then Ok (map (fun c => p ++ [c]) (map fst (filter is_dir_node ep)))
  else Raise PermissionError.
Proof.
  intros Hu Hp. unfold list_subdirs, iterdir. rewrite Hp.
  destruct lp; [|reflexivity]. simpl. f_equal.
  rewrite filter_map_comm, map_map. f_equal.
  apply filter_ext_in. intros [k v] Hin. simpl.
  unfold is_dir. rewrite lookup_snoc, Hp.
  rewrite (assoc_NoDup k v ep (Hu _ _ _ Hp) Hin). reflexivity.
Qed.

Lemma modify_keeps_kind f r n k :
  is_dir_node (k, modify f r n) = is_dir_node (k, n).
Proof. destruct r, n; reflexivity. Qed.

Lemma filter_dirs_map_first c g es :
  (forall k n, is_dir_node (k, g n) = is_dir_node (k, n)) ->
  map fst (filter is_dir_node (map_first c g es)) =
  map fst (filter is_dir_node es).
Proof.
  intros Hg. induction es as [|[k v] es IH]; simpl; [reflexivity|].
  destruct (String.eqb k c); simpl.
  - rewrite (Hg k v). destruct (is_dir_node (k, v)); reflexivity.
  - destruct (is_dir_node (k, v)); simpl; now rewrite IH.
Qed.

Lemma is_dir_lookup_inv fs p :
  is_dir fs p = true -> exists lp ep, lookup fs p = Some (Dir lp ep).
Proof.
  unfold is_dir. destruct (lookup fs p) as [[|lp ep]|]; try discriminate.
  eauto.
Qed.

Section ModifySubdirs.
Variable fs : node.
Variable d : path.
Variable l : bool.
Variables es es' : list (string * node).
Hypothesis at_d : lookup fs d = Some (Dir l es).
Hypothesis dirs_kept : forall x, dir_part (assoc x es') = dir_part (assoc x es).
Hypothesis unique : names_unique fs.
Hypothesis unique' : NoDup (map fst es').
Hypothesis same_dirs : filter is_dir_node es' = filter is_dir_node es.

Lemma modify_list_subdirs p :
  is_dir fs p = true ->
  list_subdirs p (modify (fun _ => es') d fs) = list_subdirs p fs.
Proof using at_d dirs_kept unique unique' same_dirs.
  intros Hp. destruct (is_dir_lookup_inv _ _ Hp) as [lp [ep Hl]].
  pose proof (modify_names_unique fs d l es es' at_d dirs_kept unique unique')
    as Hu'.
  rewrite (list_subdirs_unique fs p lp ep unique Hl).
  destruct (path_trichotomy d p) as [[r ->]|[[c [r E]]|Hap]].
  - destruct r as [|c r].
    + rewrite app_nil_r in *. rewrite at_d in Hl. inversion Hl. subst lp ep.
      rewrite (list_subdirs_unique _ d l es' Hu'
                 (lookup_modify_at (fun _ => es') d fs l es at_d)).
      now rewrite same_dirs.
    + apply (lookup_below_kept fs d l es es' at_d dirs_kept) in Hl.
      now rewrite (list_subdirs_unique _ _ lp ep Hu' Hl).
  - assert (Hl' : lookup (modify (fun _ => es') d fs) p =
                  Some (Dir lp (map_first c (modify (fun _ => es') r) ep))).
    { rewrite E, lookup_modify_above, Hl. reflexivity. }
    rewrite (list_subdirs_unique _ _ _ _ Hu' Hl').
    rewrite filter_dirs_map_first; [reflexivity|].
    intros k n. apply modify_keeps_kind.
  - assert (Hl' : lookup (modify (fun _ => es') d fs) p = Some (Dir lp ep))
      by (rewrite lookup_modify_apart; auto).
    now rewrite (list_subdirs_unique _ _ lp ep Hu' Hl').
Qed.
End ModifySubdirs.

(** ** A walk that keeps an invariant

    [Inv P a w] is what holds of the counter and the world once the body
    ran on the directories [P], in this order. The body is run on each
    directory once, so it may count on a directory it has not seen; and if
    the listings of subdirectories are those of [fs0] all along, the
    directories it sees are those the generator yields on [fs0]. *)

Lemma iterdir_NoDup fs p ps :
  names_unique fs -> iterdir fs p = Ok ps -> NoDup ps.
Proof.
  unfold iterdir. intros Hu.
  destruct (lookup fs p) as [[|[] es]|] eqn:E; try discriminate.
  intros H. inversion H. subst.
  rewrite <- (map_map fst (fun c => p ++ [c])).
  apply Finite.Injective_map_NoDup; [|exact (Hu _ _ _ E)].
  intros x y Hxy. now apply snoc_inj in Hxy.
Qed.

Lemma child_not_below (root : path) c c' (q q' : path) :
  c <> c' -> (root ++ [c]) ++ q <> (root ++ [c']) ++ q'.
Proof.
  intros Hc E. rewrite <- !app_assoc in E. apply app_inv_head in E.
  inversion E. contradiction.
Qed.

Section WalkInvariant.
Context {A : Type}.
Variable body : path -> A -> M A.
Variable fs0 : node.
Variable ok : path -> Prop.
Variable Inv : list path -> A -> world -> Prop.

Hypothesis unique0 : names_unique fs0.
Hypothesis ok_child : forall d c,
  ok d -> is_dir fs0 (d ++ [c]) = true -> ok (d ++ [c]).
Hypothesis ok_list : forall d, ok d -> exists ps, iterdir fs0 d = Ok ps.
Hypothesis ok_keys : forall d c,
  ok d -> is_dir fs0 (d ++ [c]) = true -> has_key c.
Hypothesis inv_list : forall P a w d,
  Inv P a w -> ok d -> list_subdirs d (w_fs w) = list_subdirs d fs0.
Hypothesis inv_body : forall P d c a w,
  ok d -> is_dir fs0 (d ++ [c]) = true -> ~ In (d ++ [c]) P -> Inv P a w ->
  exists a' w',
    body (d ++ [c]) a w = (Ok a', w') /\ Inv (P ++ [d ++ [c]]) a' w'.

Lemma each_subdir_invariant fuel root (w0 : world) sds :
  (forall sd P a w acc, In sd sds ->
     (forall p, In p P -> forall q, q <> [] -> p <> sd ++ q) ->
     Inv P a w ->
     exists l a' w',
       for_subdirs body fuel sd a w = Some (Ok a', w') /\
       Inv (P ++ l) a' w' /\
       for_subdirs collect fuel sd acc w0 = Some (Ok (acc ++ l), w0) /\
       (forall p, In p l -> exists q, q <> [] /\ p = sd ++ q)) ->
  NoDup sds -> ok root ->
  (forall sd, In sd sds ->
     is_dir fs0 sd = true /\ exists c, sd = root ++ [c]) ->
  forall P a w acc,
  (forall p sd, In p P -> In sd sds -> forall q, p <> sd ++ q) ->
  Inv P a w ->
  exists l a' w',
    each_subdir body (for_subdirs body fuel) sds a w = Some (Ok a', w') /\
    Inv (P ++ l) a' w' /\
    each_subdir collect (for_subdirs collect fuel) sds acc w0
      = Some (Ok (acc ++ l), w0) /\
    (forall p, In p l -> exists q, q <> [] /\ p = root ++ q).
Proof using inv_body.
  induction sds as [|sd rest IH];
    intros Hdesc Hnd Hroot Hform P a w acc Hfresh HI.
  - exists [], a, w. simpl. rewrite !app_nil_r. repeat split; auto.
    intros p [].
  - inversion Hnd as [|? ? Hsd Hrest]; subst.
    destruct (Hform sd (or_introl eq_refl)) as [Hsdd [c Ec]].
    destruct (inv_body P root c a w Hroot) as [a1 [w1 [Eb I1]]];
      [now rewrite <- Ec| |exact HI|].
    { rewrite <- Ec. intros Hin.
      apply (Hfresh sd sd Hin (or_introl eq_refl) []).
      now rewrite app_nil_r. }
    rewrite <- Ec in Eb, I1.
    destruct (Hdesc sd (P ++ [sd]) a1 w1 (acc ++ [sd]) (or_introl eq_refl))
      as [l1 [a2 [w2 [E1 [I2 [C1 B1]]]]]]; [|exact I1|].
    { intros p Hp q Hq E. apply in_app_or in Hp. destruct Hp as [Hp|[<-|[]]].
      - exact (Hfresh p sd Hp (or_introl eq_refl) q E).
      - apply Hq. rewrite <- (app_nil_r sd) in E at 1.
        now apply app_inv_head in E. }
    destruct (IH (fun sd' P' a' w' acc' Hin =>
                    Hdesc sd' P' a' w' acc' (or_intror Hin))
                 Hrest Hroot
                 (fun sd' Hin => Hform sd' (or_intror Hin))
                 ((P ++ [sd]) ++ l1) a2 w2 ((acc ++ [sd]) ++ l1))
      as [l2 [a3 [w3 [E2 [I3 [C2 B2]]]]]]; [|exact I2|].
    { intros p sd' Hp Hsd' q E.
      destruct (Hform sd' (or_intror Hsd')) as [_ [c' Ec']].
      assert (Hcc : c <> c').
      { intros Hcc. apply Hsd. now rewrite Ec, Hcc, <- Ec'. }
      apply in_app_or in Hp. destruct Hp as [Hp|Hp].
      - apply in_app_or in Hp. destruct Hp as [Hp|[<-|[]]].
        + exact (Hfresh p sd' Hp (or_intror Hsd') q E).
        + rewrite <- (app_nil_r sd) in E. rewrite Ec, Ec' in E.
          exact (child_not_below root c c' [] q Hcc E).
      - destruct (B1 p Hp) as [q1 [_ ->]]. rewrite Ec, Ec' in E.
        exact (child_not_below root c c' q1 q Hcc E). }
    exists (sd :: l1 ++ l2), a3, w3.
    split; [|split; [|split]].
    + simpl. rewrite Eb, E1. exact E2.
    + replace (P ++ sd :: l1 ++ l2) with (((P ++ [sd]) ++ l1) ++ l2)
        by (rewrite <- !app_assoc; reflexivity).
      exact I3.
    + rewrite each_collect_cons. unfold path in *. rewrite C1, C2.
      do 2 f_equal.
      rewrite <- !app_assoc. reflexivity.
    + intros p [<-|Hp].
      * exists [c]. split; [discriminate|exact Ec].
      * apply in_app_or in Hp. destruct Hp as [Hp|Hp].
        -- destruct (B1 p Hp) as [q1 [_ ->]]. exists (c :: q1).
           split; [discriminate|]. rewrite Ec, <- app_assoc. reflexivity.
        -- now apply B2.
Qed.

Theorem walk_invariant fuel : forall k root P a w acc w0,
  w_fs w0 = fs0 -> ok root -> depth_bound fs0 root k -> k < fuel ->
  (forall p, In p P -> forall q, q <> [] -> p <> root ++ q) ->
  Inv P a w ->
  exists l a' w',
    for_subdirs body fuel root a w = Some (Ok a', w') /\
    Inv (P ++ l) a' w' /\
    for_subdirs collect fuel root acc w0 = Some (Ok (acc ++ l), w0) /\
    (forall p, In p l -> exists q, q <> [] /\ p = root ++ q).
Proof using unique0 ok_child ok_list ok_keys inv_list inv_body.
  induction fuel as [|fuel IH];
    intros k root P a w acc w0 Hw0 Hok Hb Hk Hfresh HI; [lia|].
  simpl. rewrite (inv_list P a w root HI Hok), Hw0.
  destruct (ok_list root Hok) as [ps Hps].
  assert (Hsub : list_subdirs root fs0 = Ok (filter (is_dir fs0) ps)).
  { unfold list_subdirs. now rewrite Hps. }
  rewrite Hsub.
  assert (Hin0 : forall sd, In sd (filter (is_dir fs0) ps) ->
            is_dir fs0 sd = true /\ exists c, sd = root ++ [c])
    by (intros sd; apply list_subdirs_in; exact Hsub).
  destruct (sort_natural_ok (filter (is_dir fs0) ps)) as [sorted Hs].
  { rewrite Forall_forall. intros sd Hsd.
    destruct (Hin0 sd Hsd) as [Hsdd [c ->]].
    rewrite name_snoc. now apply (ok_keys root c). }
  rewrite Hs.
  assert (Hin : forall sd, In sd sorted ->
            is_dir fs0 sd = true /\ exists c, sd = root ++ [c]).
  { intros sd Hsd. apply Hin0. now apply (sort_natural_in _ _ sd Hs). }
  apply (each_subdir_invariant fuel root w0 sorted).
  - intros sd P' a' w' acc' Hsd Hf' HI'.
    destruct (Hin sd Hsd) as [Hsdd [c ->]].
    destruct (depth_bound_child _ _ _ _ Hb Hsdd) as [Hk1 Hb1].
    apply (IH (k - 1)); auto. lia.
  - apply (Permutation_NoDup (sort_natural_perm _ _ Hs)).
    apply NoDup_filter. eapply iterdir_NoDup; eauto.
  - exact Hok.
  - exact Hin.
  - intros p sd Hp Hsd q E. destruct (Hin sd Hsd) as [_ [c ->]].
    rewrite <- app_assoc in E.
    exact (Hfresh p Hp (c :: q) ltac:(discriminate) E).
  - exact HI.
Qed.
End WalkInvariant.

(** ** The entries of a directory after the loop over its files *)

Lemma file_at_child fs d l es c :
  lookup fs d = Some (Dir l es) ->
  file_at fs (d ++ [c]) =
  match assoc c es with
  | Some (File lk a) => Some (lk, a)
  | _ => None
  end.
Proof. intros H. unfold file_at. now rewrite (lookup_child _ _ _ _ H). Qed.

Lemma is_file_file_at fs p :
  is_file fs p = match file_at fs p with Some _ => true | None => false end.
Proof.
  unfold is_file, file_at. now destruct (lookup fs p) as [[|]|].
Qed.

Lemma lookup_none fs p :
  is_dir fs p = false -> file_at fs p = None -> lookup fs p = None.
Proof.
  unfold is_dir, file_at. now destruct (lookup fs p) as [[|]|].
Qed.

Lemma file_at_not_dir fs p : is_dir fs p = true -> file_at fs p = None.
Proof.
  unfold is_dir, file_at. now destruct (lookup fs p) as [[|]|].
Qed.

Lemma list_subdirs_ok_lookup fs d x :
  list_subdirs d fs = Ok x -> exists es, lookup fs d = Some (Dir true es).
Proof.
  unfold list_subdirs, iterdir.
  destruct (lookup fs d) as [[|[] es]|]; try discriminate. eauto.
Qed.

Lemma renamable_is_file es c :
  renamable es c = true -> is_file_entry es c = true.
Proof.
  unfold renamable, is_file_entry.
  now destruct (assoc c es) as [[[]|]|].
Qed.

Section EntriesAfterLoop.
Variable idx : nat.
Variable L : list string.
Variables es es' : list (string * node).
Hypothesis files : forall c, In c L <-> is_file_entry es c = true.
Hypothesis free :
  forall c, is_file_entry es c = true -> assoc (pre idx c) es = None.
Hypothesis effect : loop_effect idx L es es'.

(** Each name is the name of a file, the prefixed name of a file, or a
    name the loop has nothing to do with. *)
Lemma entries_after x :
  (In x L /\ renamable es x = false /\ assoc x es' = assoc x es) \/
  (In x L /\ renamable es x = true /\ assoc x es' = None) \/
  (exists c, In c L /\ x = pre idx c /\ renamable es c = true /\
     assoc x es' = assoc c es /\ assoc x es = None) \/
  (exists c, In c L /\ x = pre idx c /\ renamable es c = false /\
     assoc x es' = None /\ assoc x es = None) \/
  (is_file_entry es x = false /\ assoc x es' = assoc x es).
Proof using files free effect.
  destruct effect as [E1 [E2 [E3 _]]].
  destruct (in_dec string_dec x L) as [Hx|Hx].
  - destruct (renamable es x) eqn:R.
    + right. left. repeat split; auto. now apply E1.
    + left. repeat split; auto. now apply E2.
  - destruct (existsb (fun c => String.eqb x (pre idx c)) L) eqn:Ex.
    + apply existsb_exists in Ex. destruct Ex as [c [Hc Hxc]].
      apply String.eqb_eq in Hxc. subst x.
      assert (Hf : assoc (pre idx c) es = None)
        by (apply free; now apply files).
      destruct (renamable es c) eqn:R.
      * right. right. left. exists c. repeat split; auto. now apply E1.
      * right. right. right. left. exists c. repeat split; auto.
        now apply E2.
    + right. right. right. right. split.
      * destruct (is_file_entry es x) eqn:F; [|reflexivity].
        exfalso. apply Hx. now apply files.
      * apply E3; [exact Hx|]. intros c Hc E.
        assert (H : existsb (fun c => String.eqb x (pre idx c)) L = true).
        { apply existsb_exists. exists c. split; [exact Hc|].
          now apply String.eqb_eq. }
        congruence.
Qed.

Lemma loop_effect_dir_part x :
  dir_part (assoc x es') = dir_part (assoc x es).
Proof using files free effect.
  destruct (entries_after x)
    as [[_ [_ ->]]|[[_ [R ->]]|[[c [Hc [_ [R [-> ->]]]]]|
       [[c [_ [_ [_ [-> ->]]]]]|[_ ->]]]]]; try reflexivity.
  - apply renamable_is_file in R. unfold is_file_entry in R.
    now destruct (assoc x es) as [[|]|].
  - apply renamable_is_file in R. unfold is_file_entry in R.
    now destruct (assoc c es) as [[|]|].
Qed.

Lemma loop_effect_unlocked c a :
  assoc c es = Some (File false a) ->
  assoc (pre idx c) es' = Some (File false a).
Proof using files free effect.
  intros H. destruct effect as [E1 _].
  assert (R : renamable es c = true) by (unfold renamable; now rewrite H).
  destruct (E1 c) as [-> _]; auto.
  apply files. now apply renamable_is_file.
Qed.

Lemma loop_effect_locked c a :
  assoc c es = Some (File true a) -> assoc c es' = Some (File true a).
Proof using files free effect.
  intros H. destruct effect as [_ [E2 _]].
  assert (R : renamable es c = false) by (unfold renamable; now rewrite H).
  destruct (E2 c) as [-> _]; auto.
  apply files. unfold is_file_entry. now rewrite H.
Qed.

Lemma loop_effect_only x lk a :
  assoc x es' = Some (File lk a) ->
  (lk = true /\ assoc x es = Some (File true a)) \/
  (lk = false /\ exists c, x = pre idx c /\ assoc c es = Some (File false a)).
Proof using files free effect.
  intros H.
  destruct (entries_after x)
    as [[Hx [R E]]|[[_ [_ E]]|[[c [Hc [Hxc [R [E _]]]]]|
       [[c [_ [_ [_ [E _]]]]]|[F E]]]]]; rewrite E in H; try discriminate.
  - left. apply files in Hx. unfold is_file_entry in Hx.
    unfold renamable in R. rewrite H in R.
    destruct lk; [auto | discriminate].
  - right. destruct (renamable_file es c R) as [a' Ha].
    rewrite Ha in H. inversion H. subst. eauto.
  - unfold is_file_entry in F. now rewrite H in F.
Qed.
End EntriesAfterLoop.

(** ** Counting the files that are not locked *)

Lemma unlocked_names_in es c :
  NoDup (map fst es) ->
  In c (map fst (filter is_unlocked es)) <-> renamable es c = true.
Proof.
  intros Hnd. rewrite in_map_iff. split.
  - intros [[k n] [<- Hin]]. apply filter_In in Hin.
    destruct Hin as [Hin Hu]. simpl.
    unfold renamable. rewrite (assoc_NoDup k n es Hnd Hin).
    unfold is_unlocked in Hu. simpl in Hu. now destruct n as [[]|].
  - intros R. unfold renamable in R.
    destruct (assoc c es) as [[[] a|]|] eqn:E; try discriminate.
    exists (c, File false a). split; [reflexivity|].
    apply filter_In. split; [now apply assoc_in | reflexivity].
Qed.

Lemma count_unlocked es l :
  NoDup (map fst es) -> NoDup l ->
  (forall c, In c l <-> renamable es c = true) ->
  List.length l = List.length (filter is_unlocked es).
Proof.
  intros Hes Hl Hin. rewrite <- (length_map fst (filter is_unlocked es)).
  apply Permutation_length. apply NoDup_Permutation; auto.
  - now apply NoDup_names_filter.
  - intros c. rewrite unlocked_names_in by exact Hes. apply Hin.
Qed.

(** ** One directory of a run *)

Lemma get_folder_index_ext fs fs' d :
  list_subdirs (parent d) fs' = list_subdirs (parent d) fs ->
  get_folder_index_among_siblings fs' d =
  get_folder_index_among_siblings fs d.
Proof. unfold get_folder_index_among_siblings. now intros ->. Qed.

Lemma renamed_dir_ext fs fs1 fs2 fs' d idx :
  (forall x, file_at fs (d ++ [x]) = file_at fs1 (d ++ [x])) ->
  (forall x, file_at fs' (d ++ [x]) = file_at fs2 (d ++ [x])) ->
  renamed_dir fs1 fs2 d idx -> renamed_dir fs fs' d idx.
Proof.
  intros H1 H2 [A [B C]]. split; [|split].
  - intros c a H. rewrite H1 in H. rewrite H2. now apply A.
  - intros c a H. rewrite H1 in H. rewrite H2. now apply B.
  - intros x lk a H. rewrite H2 in H.
    destruct (C x lk a H) as [[-> Hx]|[-> [c [-> Hc]]]].
    + left. now rewrite H1.
    + right. split; [reflexivity|]. exists c. now rewrite H1.
Qed.

Lemma emit_fs_out log e w :
  w_fs (snd (emit log e w)) = w_fs w /\
  forall x, In x (w_out w) -> In x (w_out (snd (emit log e w))).
Proof.
  destruct log; simpl; split; auto.
  intros x Hx. apply in_or_app. now left.
Qed.

Lemma tree_inv_emit fs log P a w e :
  tree_inv fs log P a w -> tree_inv fs log P a (snd (emit log e w)).
Proof.
  intros [D [U [Ls [F0 [F [N E]]]]]].
  destruct (emit_fs_out log e w) as [Hfs Hout].
  unfold tree_inv. rewrite Hfs.
  split; [|split; [|split; [|split; [|split; [|split]]]]]; auto.
  intros d idx c lk x Hd Hi Hc Hlog. apply Hout. eapply E; eauto.
Qed.

Section TreeStep.
Variable pf : platform.
Variable uuid4_hex : nat -> string.
Variable log : bool.
Variable fs : node.
Variable root : path.
Variable include : bool.
Hypothesis tree_ready : ready fs root include.

Lemma visited_dir d : visited fs root include d -> is_dir fs d = true.
Proof using tree_ready.
  intros [[H _]|[_ ->]]; [exact H|]. apply tree_ready.
Qed.

Lemma visited_listable d :
  visited fs root include d -> exists es, lookup fs d = Some (Dir true es).
Proof using tree_ready.
  intros Hv. pose proof (visited_dir d Hv) as Hd.
  destruct tree_ready as [_ [_ [Hl _]]].
  assert (E : exists q, d = root ++ q).
  { destruct Hv as [[_ [q [_ ->]]]|[_ ->]]; [eauto|].
    exists []. now rewrite app_nil_r. }
  destruct E as [q ->]. destruct (Hl q Hd) as [ps Hps].
  unfold iterdir in Hps.
  destruct (lookup fs (root ++ q)) as [[|[] es]|]; try discriminate. eauto.
Qed.

Lemma below_indexed d :
  below fs root d ->
  exists idx, get_folder_index_among_siblings fs d = Ok idx.
Proof using tree_ready.
  intros [Hd [q [Hq ->]]].
  destruct tree_ready as [_ [_ [Hl [Hk _]]]].
  destruct (exists_last Hq) as [q' [c ->]].
  rewrite app_assoc in *.
  pose proof (is_dir_prefix _ _ _ Hd) as Hp.
  destruct (Hl q' Hp) as [ps Hps].
  assert (Hsub : list_subdirs (parent ((root ++ q') ++ [c])) fs
                 = Ok (filter (is_dir fs) ps)).
  { rewrite parent_snoc. unfold list_subdirs. now rewrite Hps. }
  destruct (get_folder_index_listed fs ((root ++ q') ++ [c])
              (filter (is_dir fs) ps))
    as [sorted [_ [H1 H2]]]; [|exact Hsub| |].
  - rewrite parent_snoc. intros E.
    apply (f_equal (@List.length string)) in E.
    rewrite (length_app (root ++ q') [c]) in E. simpl in E. lia.
  - rewrite Forall_forall. intros sd Hsd.
    rewrite parent_snoc in Hsub.
    destruct (list_subdirs_in _ _ _ _ Hsub Hsd) as [Hsdd [c' ->]].
    rewrite name_snoc. apply (Hk q' c'). now rewrite app_assoc.
  - destruct (index ((root ++ q') ++ [c]) sorted) as [i|] eqn:Ei; eauto.
Qed.

Lemma prefix_files_inv P d idx a w :
  visited fs root include d ->
  get_folder_index_among_siblings fs d = Ok idx ->
  ~ In d P ->
  tree_inv fs log P a w ->
  exists n w',
    _prefix_files_in_dir pf uuid4_hex d idx log w = (Ok n, w') /\
    tree_inv fs log (P ++ [d]) (a + n) w'.
Proof using tree_ready.
  intros Hv Hi HnP [D [U [Ls [F0 [F [N E]]]]]].
  pose proof (visited_dir d Hv) as Hd.
  destruct (visited_listable d Hv) as [es0 H0].
  destruct tree_ready as [_ [U0 [_ [_ [Hfk [Hnc _]]]]]].
  assert (Hsub : list_subdirs d (w_fs w) = list_subdirs d fs) by auto.
  rewrite (list_subdirs_unique fs d true es0 U0 H0) in Hsub.
  destruct (list_subdirs_ok_lookup _ _ _ Hsub) as [es He].
  assert (Hfile : forall c, file_at fs (d ++ [c]) =
            match assoc c es with
            | Some (File lk x) => Some (lk, x)
            | _ => None
            end).
  { intros c. rewrite <- (F0 d c HnP). apply (file_at_child _ _ _ _ c He). }
  assert (HisF : forall c, is_file_entry es c = is_file fs (d ++ [c])).
  { intros c. rewrite is_file_file_at, Hfile. unfold is_file_entry.
    now destruct (assoc c es) as [[|]|]. }
  assert (Hkeys : forall c, is_file_entry es c = true -> has_key c).
  { intros c Hc. apply (Hfk d c Hv). now rewrite <- HisF. }
  assert (Hfree : forall c, is_file_entry es c = true ->
            assoc (pre idx c) es = None).
  { intros c Hc. rewrite HisF in Hc.
    pose proof (Hnc d idx c Hv Hi Hc) as Hn.
    rewrite <- (lookup_child _ _ _ _ He). apply lookup_none.
    - rewrite D. unfold is_dir. now rewrite Hn.
    - rewrite (F0 d _ HnP). unfold file_at. now rewrite Hn. }
  destruct (prefix_files_no_collision pf uuid4_hex idx log w d es He
              (U _ _ _ He) Hkeys Hfree)
    as [L [es' [Hrun [HL [Hin Heff]]]]].
  pose proof (loop_effect_dir_part idx L es es' Hin Hfree Heff) as Hdp.
  assert (Hnd' : NoDup (map fst es')) by apply Heff.
  assert (Hsame : filter is_dir_node es' = filter is_dir_node es)
    by apply Heff.
  assert (Hren : forall c, renamable es0 c = renamable es c).
  { intros c. pose proof (file_at_child fs d true es0 c H0) as H.
    rewrite Hfile in H. unfold renamable.
    destruct (assoc c es0) as [[[] x0|]|], (assoc c es) as [[[] x|]|];
      try discriminate; reflexivity. }
  eexists _, _. split; [exact Hrun|].
  split; [|split; [|split; [|split; [|split; [|split]]]]]; simpl.
  - intros q.
    rewrite (modify_entries_is_dir (w_fs w) d true es es' He Hdp). apply D.
  - exact (modify_names_unique (w_fs w) d true es es' He Hdp U Hnd').
  - intros p Hp.
    rewrite (modify_list_subdirs (w_fs w) d true es es' He Hdp U Hnd' Hsame p)
      by (now rewrite D).
    now apply Ls.
  - intros d2 x Hd2.
    rewrite (modify_entries_file_at (w_fs w) d true es es' He Hdp).
    + apply F0. intros H. apply Hd2, in_or_app. now left.
    + rewrite parent_snoc. intros ->. apply Hd2, in_or_app. right. now left.
  - intros d2 idx2 Hd2 Hi2. apply in_app_or in Hd2.
    destruct Hd2 as [Hd2|[<-|[]]].
    + apply (renamed_dir_ext fs fs (w_fs w) _ d2 idx2);
        [reflexivity| |now apply F].
      intros x.
      apply (modify_entries_file_at (w_fs w) d true es es' He Hdp).
      rewrite parent_snoc. intros ->. contradiction.
    + rewrite Hi in Hi2. inversion Hi2. subst idx2.
      pose proof (lookup_modify_at (fun _ => es') d (w_fs w) true es He)
        as Hd'.
      split; [|split].
      * intros c x Hc. rewrite Hfile in Hc.
        rewrite (file_at_child _ _ _ _ _ Hd').
        destruct (assoc c es) as [[[] x'|]|] eqn:Ec; try discriminate.
        inversion Hc. subst.
        now rewrite (loop_effect_unlocked idx L es es' Hin Hfree Heff c x Ec).
      * intros c x Hc. rewrite Hfile in Hc.
        rewrite (file_at_child _ _ _ _ _ Hd').
        destruct (assoc c es) as [[[] x'|]|] eqn:Ec; try discriminate.
        inversion Hc. subst.
        now rewrite (loop_effect_locked idx L es es' Hin Hfree Heff c x Ec).
      * intros x lk y Hx. rewrite (file_at_child _ _ _ _ _ Hd') in Hx.
        destruct (assoc x es') as [[lk' y'|]|] eqn:Ex; try discriminate.
        inversion Hx. subst.
        destruct (loop_effect_only idx L es es' Hin Hfree Heff x lk y Ex)
          as [[-> Hy]|[-> [c [-> Hy]]]].
        -- left. split; [reflexivity|]. now rewrite Hfile, Hy.
        -- right. split; [reflexivity|]. exists c.
           split; [reflexivity|]. now rewrite Hfile, Hy.
  - rewrite map_app, list_sum_app. simpl. rewrite N. f_equal.
    unfold unlocked. rewrite H0, Nat.add_0_r.
    apply count_unlocked.
    + exact (U0 _ _ _ H0).
    + now apply NoDup_filter.
    + intros c. rewrite filter_In, Hren. split; [tauto|].
      intros R. split; [|exact R]. apply Hin.
      now apply renamable_is_file.
  - intros d2 idx2 c lk x Hd2 Hi2 Hc Hlog. apply in_or_app.
    apply in_app_or in Hd2. destruct Hd2 as [Hd2|[<-|[]]].
    + left. eapply E; eauto.
    + right. rewrite Hlog. rewrite Hi in Hi2. inversion Hi2. subst idx2.
      apply in_map_iff. exists c. rewrite Hfile in Hc. split.
      * unfold loop_event, file_event, renamable.
        destruct (assoc c es) as [[[] x'|]|]; inversion Hc; reflexivity.
      * apply Hin. unfold is_file_entry.
        destruct (assoc c es) as [[|]|]; try discriminate; reflexivity.
Qed.

Lemma index_in_world P a w d :
  is_dir fs d = true -> tree_inv fs log P a w ->
  get_folder_index_among_siblings (w_fs w) d =
  get_folder_index_among_siblings fs d.
Proof using Type.
  intros Hd [_ [_ [Ls _]]]. apply get_folder_index_ext, Ls.
  now apply is_dir_parent.
Qed.

Lemma process_dir_inv P d a w :
  below fs root d -> ~ In d P -> tree_inv fs log P a w ->
  exists a' w',
    process_dir pf uuid4_hex log d a w = (Ok a', w') /\
    tree_inv fs log (P ++ [d]) a' w'.
Proof using tree_ready.
  intros Hb HnP HI.
  destruct (below_indexed d Hb) as [idx Hi].
  assert (Hv : visited fs root include d) by now left.
  destruct (prefix_files_inv P d idx a
              (snd (emit log (LogProcessing d idx) w)) Hv Hi HnP)
    as [n [w' [Hrun HI']]]; [now apply tree_inv_emit|].
  exists (a + n), w'. split; [|exact HI'].
  unfold process_dir, bindM, read.
  rewrite (index_in_world P a w d (visited_dir d Hv) HI), Hi.
  destruct (emit log (LogProcessing d idx) w) as [[[]|e] w1] eqn:Ee;
    [|unfold emit in Ee; inversion Ee].
  simpl in Hrun. now rewrite Hrun.
Qed.

Lemma process_root_inv w :
  include = true -> tree_inv fs log [] 0 w ->
  exists n w',
    process_root pf uuid4_hex log root w = (Ok n, w') /\
    tree_inv fs log [root] n w'.
Proof using tree_ready.
  intros Hinc HI.
  assert (Hri : root_indexed fs root include) by apply tree_ready.
  destruct (Hri Hinc) as [idx Hi].
  assert (Hv : visited fs root include root) by (right; auto).
  destruct (prefix_files_inv [] root idx 0
              (snd (emit log (LogProcessingRoot root idx) w)) Hv Hi)
    as [n [w' [Hrun HI']]]; [intros [] | now apply tree_inv_emit |].
  exists n, w'. split; [|exact HI'].
  unfold process_root, bindM, read.
  rewrite (index_in_world [] 0 w root (visited_dir root Hv) HI), Hi.
  destruct (emit log (LogProcessingRoot root idx) w) as [[[]|e] w1] eqn:Ee;
    [|unfold emit in Ee; inversion Ee].
  simpl in Hrun. exact Hrun.
Qed.
End TreeStep.

(** ** A whole run on a tree that is ready *)

Section TreeRun.
Variable pf : platform.
Variable uuid4_hex : nat -> string.
Variable log : bool.
Variable fs : node.
Variable root : path.
Variable include : bool.
Hypothesis tree_ready : ready fs root include.
(** The tree under the root is less deep than the interpreter allows. *)
Variables limit k : nat.
Hypothesis tree_depth : depth_bound fs root k.
Hypothesis within_limit : k < limit.

Lemma tree_inv_start : tree_inv fs log [] 0 (mkWorld fs [] 0).
Proof using tree_ready.
  split; [|split; [|split; [|split; [|split; [|split]]]]]; simpl; auto;
    try (intros; contradiction).
  apply tree_ready.
Qed.

(** The directories worked on before the walk starts. *)
Let first : list path := if include then [root] else [].

Lemma root_step :
  exists a w1,
    (if include then process_root pf uuid4_hex log root else ret 0)
      (mkWorld fs [] 0) = (Ok a, w1) /\
    tree_inv fs log first a w1.
Proof using tree_ready.
  pose proof tree_inv_start as H0. unfold first.
  destruct (Bool.bool_dec include true) as [Hinc|Hinc].
  - destruct (process_root_inv pf uuid4_hex log fs root include tree_ready
                _ Hinc H0) as [n [w' [Hr HI]]].
    rewrite Hinc. eauto.
  - apply Bool.not_true_is_false in Hinc. rewrite Hinc.
    exists 0, (mkWorld fs [] 0). split; [reflexivity | exact H0].
Qed.

Theorem rename_tree_effect :
  exists n w' l,
    rename_tree pf uuid4_hex limit root include log fs = Some (Ok n, w') /\
    _iter_subdirs_natural limit fs root = Some (Ok l) /\
    tree_inv fs log (first ++ l) n w' /\
    (forall d, In d (first ++ l) <-> visited fs root include d).
Proof using tree_ready tree_depth within_limit.
  destruct root_step as [a [w1 [Hroot HI]]].
  pose proof tree_ready as [Hd [U0 [Hl [Hk _]]]].
  destruct (walk_invariant (process_dir pf uuid4_hex log) fs
              (fun d => is_dir fs d = true /\ exists q, d = root ++ q)
              (tree_inv fs log))
    with (fuel := limit) (k := k) (root := root)
         (P := first) (a := a) (w := w1) (acc := @nil path)
         (w0 := mkWorld fs [] 0)
    as [l [n [w2 [Hwalk [HI2 [Hcol Hbelow]]]]]]; auto.
  - intros d c [Hdd [q ->]] Hc. split; [exact Hc|].
    exists (q ++ [c]). now rewrite app_assoc.
  - intros d [Hdd [q ->]]. now apply Hl.
  - intros d c [Hdd [q ->]] Hc. apply (Hk q c). now rewrite app_assoc.
  - intros P a0 w d [_ [_ [Ls _]]] [Hdd _]. now apply Ls.
  - intros P d c a0 w [Hdd [q ->]] Hc HnP HI0.
    apply (process_dir_inv pf uuid4_hex log fs root include tree_ready);
      auto.
    split; [exact Hc|]. exists (q ++ [c]).
    split; [now destruct q | now rewrite app_assoc].
  - split; [exact Hd|]. exists []. now rewrite app_nil_r.
  - unfold first. intros p Hp q Hq E. destruct include; [|destruct Hp].
    destruct Hp as [<-|[]]. apply Hq.
    rewrite <- (app_nil_r root) in E at 1. now apply app_inv_head in E.
  - destruct (collect_walk fs limit k root []
                (mkWorld fs [] 0))
      as [l' [Hcol' Hy]]; auto.
    { split; [exact Hd | exact tree_depth]. }
    assert (El : l' = l) by (rewrite Hcol in Hcol'; now inversion Hcol').
    subst l'.
    exists n, (snd (emit log (LogDone n) w2)), l.
    split; [|split; [|split]].
    + unfold rename_tree, rename_files_in_tree. simpl w_fs.
      assert (He : exists_ fs root = true).
      { unfold exists_. unfold is_dir in Hd.
        now destruct (lookup fs root). }
      rewrite He, Hd. simpl negb. simpl orb. cbv iota.
      rewrite Hroot, Hwalk. unfold bindM, ret.
      now destruct log.
    + unfold _iter_subdirs_natural. now rewrite Hcol.
    + now apply tree_inv_emit.
    + intros d. rewrite in_app_iff. destruct Hy as [_ Hy].
      rewrite Hy. unfold visited, first.
      destruct include; simpl; split; intros H.
      * destruct H as [[<-|[]]|H]; auto.
      * destruct H as [H|[_ ->]]; auto.
      * destruct H as [[]|H]; auto.
      * destruct H as [H|[H _]]; [auto|discriminate].
Qed.
End TreeRun.

(** ** The key of a prefixed name *)

Lemma string_app_nil_r (s : string) : (s ++ EmptyString)%string = s.
Proof. induction s as [|c s IH]; simpl; [reflexivity | now rewrite IH]. Qed.

Lemma string_app_assoc (a b c : string) :
  ((a ++ b) ++ c)%string = (a ++ (b ++ c))%string.
Proof. induction a as [|x a IH]; simpl; [reflexivity | now rewrite IH]. Qed.

(** The part being read only gathers what is read into it. *)
Lemma split_scan_cur s : forall d cur,
  split_scan s d cur =
  match split_scan s d EmptyString with
  | p :: ps => (cur ++ p)%string :: ps
  | [] => []
  end.
Proof.
  induction s as [|c s IH]; intros d cur; simpl.
  - destruct d; now rewrite string_app_nil_r.
  - destruct (is_decimal c), d; try now rewrite string_app_nil_r.
    + rewrite (IH true (snoc cur c)), (IH true (snoc EmptyString c)).
      destruct (split_scan s true EmptyString) as [|p ps]; [reflexivity|].
      unfold snoc. now rewrite string_app_assoc.
    + rewrite (IH false (snoc cur c)), (IH false (snoc EmptyString c)).
      destruct (split_scan s false EmptyString) as [|p ps]; [reflexivity|].
      unfold snoc. now rewrite string_app_assoc.
Qed.

Lemma split_scan_digits ds : forall cur u t,
  forallb_string is_decimal ds = true -> is_decimal u = false ->
  split_scan (ds ++ String u t) true cur =
  (cur ++ ds)%string :: split_scan t false (String u EmptyString).
Proof.
  induction ds as [|c ds IH]; intros cur u t Hds Hu; simpl.
  - now rewrite Hu, string_app_nil_r.
  - simpl in Hds. apply andb_true_iff in Hds. destruct Hds as [Hc Hds].
    rewrite Hc, (IH _ u t Hds Hu). unfold snoc.
    now rewrite string_app_assoc.
Qed.

Lemma string_of_uint_decimal u :
  forallb_string is_decimal (NilEmpty.string_of_uint u) = true.
Proof. induction u; simpl; auto. Qed.

Lemma str_decimal n : forallb_string is_decimal (str n) = true.
Proof. apply string_of_uint_decimal. Qed.

Lemma regex_split_nonempty s : regex_split s <> [].
Proof.
  unfold regex_split. generalize false, EmptyString.
  induction s as [|c s IH]; intros d cur; simpl.
  - destruct d; discriminate.
  - destruct (is_decimal c), d; try discriminate; apply IH.
Qed.

(** The parts of a prefixed name: nothing, the index, and the parts of the
    name with an underscore before the first. *)
Lemma regex_split_pre idx c :
  exists p ps,
    regex_split c = p :: ps /\
    (regex_split (pre idx c) = String "_" p :: ps \/
     regex_split (pre idx c) =
       EmptyString :: str idx :: String "_" p :: ps).
Proof.
  destruct (regex_split c) as [|p ps] eqn:E;
    [now apply regex_split_nonempty in E|].
  exists p, ps. split; [reflexivity|].
  assert (Hu : split_scan c false (String "_" EmptyString)
               = String "_" p :: ps).
  { rewrite split_scan_cur. fold (regex_split c). now rewrite E. }
  unfold pre, regex_split. pose proof (str_decimal idx) as Hd.
  destruct (str idx) as [|d0 ds].
  - left. simpl. exact Hu.
  - right. simpl in Hd. apply andb_true_iff in Hd. destruct Hd as [H0 Hds].
    simpl. rewrite H0.
    rewrite (split_scan_digits ds _ "_"%char c Hds eq_refl), Hu.
    reflexivity.
Qed.

Lemma key_token_underscore p : exists t, key_token (String "_" p) = Ok t.
Proof. unfold key_token, isdigit. simpl. eauto. Qed.

Lemma key_token_index ds :
  forallb_string is_decimal ds = true -> exists t, key_token ds = Ok t.
Proof.
  intros H. unfold key_token, int. rewrite H.
  destruct ds; simpl; [eauto|]. destruct (isdigit (String a ds)); simpl; eauto.
Qed.

(** A name that has a key still has one under a prefix. *)
Lemma has_key_pre idx c : has_key c -> has_key (pre idx c).
Proof.
  unfold has_key, natural_key. rewrite !mapM_ok_iff.
  destruct (regex_split_pre idx c) as [p [ps [-> [->| ->]]]];
    intros H; inversion H as [|? ? _ Hps]; subst.
  - constructor; [apply key_token_underscore | exact Hps].
  - constructor; [now exists (TStr EmptyString)|].
    constructor; [apply key_token_index, str_decimal|].
    constructor; [apply key_token_underscore | exact Hps].
Qed.

(** ** What the invariant says of the files of a directory worked on *)

Section TreeFiles.
Variable fs : node.
Variable root : path.
Variable include : bool.
Variable log : bool.
Variable P : list path.
Variable n : nat.
Variable w : world.
Hypothesis tree_ready : ready fs root include.
Hypothesis inv : tree_inv fs log P n w.
Hypothesis all_visited : forall d, In d P <-> visited fs root include d.

Lemma visited_indexed d :
  visited fs root include d ->
  exists idx, get_folder_index_among_siblings fs d = Ok idx.
Proof using tree_ready.
  intros [Hb|[Hinc ->]].
  - eapply below_indexed; eauto.
  - now apply tree_ready.
Qed.

Lemma file_is_file p lk a : file_at fs p = Some (lk, a) -> is_file fs p = true.
Proof using Type. intros H. now rewrite is_file_file_at, H. Qed.

Lemma tree_inv_unlocked d idx c a :
  visited fs root include d ->
  get_folder_index_among_siblings fs d = Ok idx ->
  file_at fs (d ++ [c]) = Some (false, a) ->
  file_at (w_fs w) (d ++ [pre idx c]) = Some (false, a) /\
  lookup (w_fs w) (d ++ [c]) = None /\
  (log = true -> In (LogRenamed (d ++ [c]) (d ++ [pre idx c])) (w_out w)).
Proof using tree_ready inv all_visited.
  intros Hv Hi Hc.
  destruct inv as [D [_ [_ [_ [F [_ E]]]]]].
  assert (HP : In d P) by now apply all_visited.
  destruct (F d idx HP Hi) as [F1 [_ F3]].
  assert (Hnc : no_collision fs root include) by apply tree_ready.
  split; [now apply F1|]. split.
  - apply lookup_none.
    + rewrite D. unfold is_dir. unfold file_at in Hc.
      now destruct (lookup fs (d ++ [c])) as [[|]|].
    + destruct (file_at (w_fs w) (d ++ [c])) as [[lk x]|] eqn:Ex;
        [|reflexivity].
      destruct (F3 c lk x Ex) as [[_ H]|[_ [c' [-> H]]]]; [congruence|].
      apply file_is_file in H.
      pose proof (Hnc d idx c' Hv Hi H) as Hn.
      unfold file_at in Hc. now rewrite Hn in Hc.
  - intros Hlog. exact (E d idx c false a HP Hi Hc Hlog).
Qed.

Lemma tree_inv_locked d idx c a :
  visited fs root include d ->
  get_folder_index_among_siblings fs d = Ok idx ->
  file_at fs (d ++ [c]) = Some (true, a) ->
  file_at (w_fs w) (d ++ [c]) = Some (true, a) /\
  lookup (w_fs w) (d ++ [pre idx c]) = None /\
  (log = true -> In (LogError (d ++ [c]) PermissionError) (w_out w)).
Proof using tree_ready inv all_visited.
  intros Hv Hi Hc.
  destruct inv as [D [_ [_ [_ [F [_ E]]]]]].
  assert (HP : In d P) by now apply all_visited.
  destruct (F d idx HP Hi) as [_ [F2 F3]].
  assert (Hnc : no_collision fs root include) by apply tree_ready.
  pose proof (Hnc d idx c Hv Hi (file_is_file _ _ _ Hc)) as Hn.
  split; [now apply F2|]. split.
  - apply lookup_none.
    + rewrite D. unfold is_dir. now rewrite Hn.
    + destruct (file_at (w_fs w) (d ++ [pre idx c])) as [[lk x]|] eqn:Ex;
        [|reflexivity].
      destruct (F3 _ lk x Ex) as [[_ H]|[_ [c' [E' H]]]].
      * unfold file_at in H. now rewrite Hn in H.
      * apply pre_inj in E'. subst c'. congruence.
  - intros Hlog. exact (E d idx c true a HP Hi Hc Hlog).
Qed.

Lemma visited_after d :
  visited (w_fs w) root include d <-> visited fs root include d.
Proof using inv.
  destruct inv as [D _]. unfold visited, below. now rewrite D.
Qed.

Lemma index_after d :
  is_dir fs d = true ->
  get_folder_index_among_siblings (w_fs w) d =
  get_folder_index_among_siblings fs d.
Proof using inv. intros Hd. eapply index_in_world; eauto. Qed.

(** After a run the tree is ready for another one, if the names with two
    prefixes are free as well. *)
Lemma ready_again :
  no_collision_twice fs root include -> ready (w_fs w) root include.
Proof using tree_ready inv all_visited.
  intros Hnc2.
  pose proof tree_ready as [Hd [U0 [Hl [Hk [Hfk [Hnc Hri]]]]]].
  pose proof inv as [D [U [Ls [_ [F _]]]]].
  assert (Hfiles : forall d idx c, visited fs root include d ->
            get_folder_index_among_siblings fs d = Ok idx ->
            is_file (w_fs w) (d ++ [c]) = true ->
            (exists a, file_at fs (d ++ [c]) = Some (true, a)) \/
            (exists c' a, c = pre idx c' /\
               file_at fs (d ++ [c']) = Some (false, a))).
  { intros d idx c Hv Hi Hc. rewrite is_file_file_at in Hc.
    destruct (file_at (w_fs w) (d ++ [c])) as [[lk x]|] eqn:Ex;
      [|discriminate].
    assert (HP : In d P) by now apply all_visited.
    destruct (F d idx HP Hi) as [_ [_ F3]].
    destruct (F3 c lk x Ex) as [[_ H]|[_ [c' [-> H]]]]; eauto. }
  split; [now rewrite D|]. split; [exact U|]. split; [|split; [|split;
    [|split]]].
  - intros q Hq. rewrite D in Hq. destruct (Hl q Hq) as [ps Hps].
    assert (Hs : list_subdirs (root ++ q) (w_fs w)
                 = Ok (filter (is_dir fs) ps)).
    { rewrite Ls by exact Hq. unfold list_subdirs. now rewrite Hps. }
    destruct (list_subdirs_ok_lookup _ _ _ Hs) as [es He].
    unfold iterdir. rewrite He. eauto.
  - intros q c Hq. rewrite D in Hq. now apply (Hk q c).
  - intros d c Hv Hc. apply visited_after in Hv.
    destruct (visited_indexed d Hv) as [idx Hi].
    destruct (Hfiles d idx c Hv Hi Hc) as [[a H]|[c' [a [-> H]]]].
    + apply (Hfk d c Hv). eapply file_is_file; eauto.
    + apply has_key_pre. apply (Hfk d c' Hv). eapply file_is_file; eauto.
  - intros d idx c Hv Hi Hc. apply visited_after in Hv.
    rewrite index_after in Hi by (eapply visited_dir; eauto).
    assert (HP : In d P) by now apply all_visited.
    destruct (F d idx HP Hi) as [_ [_ F3]].
    assert (Hfree : lookup fs (d ++ [pre idx c]) = None).
    { destruct (Hfiles d idx c Hv Hi Hc) as [[a H]|[c' [a [-> H]]]].
      - apply (Hnc d idx c Hv Hi). eapply file_is_file; eauto.
      - apply (Hnc2 d idx c' Hv Hi). eapply file_is_file; eauto. }
    apply lookup_none.
    + rewrite D. unfold is_dir. now rewrite Hfree.
    + destruct (file_at (w_fs w) (d ++ [pre idx c])) as [[lk x]|] eqn:Ex;
        [|reflexivity].
      destruct (F3 _ lk x Ex) as [[_ H]|[_ [c2 [E2 H2]]]].
      * unfold file_at in H. now rewrite Hfree in H.
      * apply pre_inj in E2. subst c2.
        destruct (Hfiles d idx c Hv Hi Hc) as [[a H]|[c' [a [-> H]]]];
          [congruence|].
        apply file_is_file in H.
        pose proof (Hnc d idx c' Hv Hi H) as Hn.
        unfold file_at in H2. now rewrite Hn in H2.
  - intros Hinc. destruct (Hri Hinc) as [idx Hi]. exists idx.
    now rewrite index_after.
Qed.
End TreeFiles.

(** ** Trees with no name that reads as a prefixed one *)

Lemma drop_decimal_app ds c s :
  forallb_string is_decimal ds = true -> is_decimal c = false ->
  drop_decimal (ds ++ String c s) = String c s.
Proof.
  intros Hds Hc. induction ds as [|x ds IH]; simpl in *.
  - now rewrite Hc.
  - apply andb_true_iff in Hds. destruct Hds as [Hx Hds].
    rewrite Hx. now apply IH.
Qed.

Lemma looks_prefixed_pre idx c : looks_prefixed (pre idx c) = true.
Proof.
  unfold looks_prefixed, pre. simpl.
  now rewrite (drop_decimal_app (str idx) "_" c (str_decimal idx) eq_refl).
Qed.

Lemma check_plain_free fs d x :
  forall_dirs check_plain fs = true -> looks_prefixed x = true ->
  lookup fs (d ++ [x]) = None.
Proof.
  intros H Hx. rewrite lookup_snoc.
  destruct (lookup fs d) as [[|l es]|] eqn:E; try reflexivity.
  pose proof (forall_dirs_lookup _ _ _ _ _ H E) as Hc.
  unfold check_plain in Hc. rewrite forallb_forall in Hc.
  destruct (assoc x es) as [n|] eqn:Ex; [|reflexivity].
  apply assoc_in in Ex. specialize (Hc _ Ex). simpl in Hc.
  now rewrite Hx in Hc.
Qed.

Lemma check_plain_no_collision fs root include :
  forall_dirs check_plain fs = true ->
  no_collision fs root include /\ no_collision_twice fs root include.
Proof.
  intros H. split; intros d idx c _ _ _;
    apply check_plain_free; auto; apply looks_prefixed_pre.
Qed.

Lemma check_file_keys_sound fs root include :
  forall_dirs check_file_keys fs = true -> file_keys fs root include.
Proof.
  intros H d c _ Hc. unfold is_file in Hc. rewrite lookup_snoc in Hc.
  destruct (lookup fs d) as [[|l es]|] eqn:E; try discriminate.
  pose proof (forall_dirs_lookup _ _ _ _ _ H E) as Hk.
  unfold check_file_keys in Hk. rewrite forallb_forall in Hk.
  destruct (assoc c es) as [[lk a|]|] eqn:Ec; try discriminate.
  apply assoc_in in Ec. specialize (Hk _ Ec). simpl in Hk.
  now apply has_keyb_true.
Qed.

(** A tree is ready when the checks hold of it. *)
Lemma checked_ready fs root include :
  is_dir fs root = true ->
  forall_dirs check_unique fs = true ->
  forall_dirs check_listable fs = true ->
  forall_dirs check_dir_keys fs = true ->
  forall_dirs check_file_keys fs = true ->
  forall_dirs check_plain fs = true ->
  root_indexed fs root include ->
  ready fs root include.
Proof.
  intros Hd Hu Hl Hk Hf Hp Hi.
  split; [exact Hd|]. split; [|split; [|split; [|split; [|split]]]]; auto.
  - intros p l es. now apply check_unique_names.
  - now apply check_listable_below.
  - now apply check_keys_below.
  - now apply check_file_keys_sound.
  - now apply check_plain_no_collision.
Qed.

(** ** Paths the file system accepts *)

Lemma all_files_complete (q : path) : forall fs,
  is_file fs q = true -> In q (all_files fs).
Proof.
  induction q as [|c q IH]; intros fs H.
  - destruct fs; [now left | discriminate].
  - unfold is_file in H. destruct fs as [|l es]; [discriminate|].
    simpl in H. destruct (assoc c es) as [m|] eqn:Ec; [|discriminate].
    simpl. apply in_flat_map. exists (c, m).
    split; [now apply assoc_in|]. simpl. apply in_map. apply IH.
    exact H.
Qed.

Lemma checked_fit new_name fs root include :
  check_fit new_name fs = true -> files_fit new_name fs root include.
Proof.
  intros H d idx c _ Hi Hc. unfold check_fit in H.
  rewrite forallb_forall in H.
  specialize (H _ (all_files_complete _ _ Hc)).
  rewrite parent_snoc, name_snoc, Hi in H. now apply Nat.leb_le.
Qed.

(** ** No directory is yielded twice *)

Lemma collect_walk_NoDup fs limit k root l :
  is_dir fs root = true -> depth_bound fs root k -> k < limit ->
  names_unique fs ->
  listable_below fs root -> keys_below fs root ->
  _iter_subdirs_natural limit fs root = Some (Ok l) ->
  NoDup l.
Proof.
  intros Hd Hdepth Hlim U0 Hl Hk Hrun.
  destruct (walk_invariant collect fs
              (fun d => is_dir fs d = true /\ exists q, d = root ++ q)
              (fun P (a : list path) w => w_fs w = fs /\ NoDup P))
    with (fuel := limit) (k := k) (root := root)
         (P := @nil path) (a := @nil path) (w := mkWorld fs [] 0)
         (acc := @nil path) (w0 := mkWorld fs [] 0)
    as [l' [a' [w' [_ [[_ Hnd] [Hcol _]]]]]]; auto.
  - intros d c [Hdd [q ->]] Hc. split; [exact Hc|].
    exists (q ++ [c]). now rewrite app_assoc.
  - intros d [Hdd [q ->]]. now apply Hl.
  - intros d c [Hdd [q ->]] Hc. apply (Hk q c). now rewrite app_assoc.
  - intros P a w d [-> _] _. reflexivity.
  - intros P d c a w _ _ HnP [Hw HP].
    exists (a ++ [d ++ [c]]), w. split; [reflexivity|].
    split; [exact Hw|]. apply NoDup_app; auto.
    + constructor; [intros []|constructor].
    + intros x Hx [<-|[]]. contradiction.
  - split; [exact Hd|]. exists []. now rewrite app_nil_r.
  - split; [reflexivity|constructor].
  - unfold _iter_subdirs_natural in Hrun. rewrite Hcol in Hrun.
    inversion Hrun. now subst.
Qed.

(* ================================================================== *)
(** * The claims *)

(** ** natural_key: examples *)

Example natural_key_2_lt_10 : name_lt "2" "10" = Ok true.
Proof. reflexivity. Qed.

Example natural_key_b1_b2_b10 :
  name_lt "b1" "b2" = Ok true /\ name_lt "b2" "b10" = Ok true.
Proof. split; reflexivity. Qed.

Example natural_key_case_insensitive : natural_key "A" = natural_key "a".
Proof. reflexivity. Qed.

(** For the names that have a key, the comparison of keys is defined and is
    a strict total order: the part of C6 and C9 that holds. *)
Lemma natural_key_order a b ka kb :
  natural_key a = Ok ka -> natural_key b = Ok kb ->
  (exists r, key_lt ka kb = Ok r) /\
  (key_lt ka kb = Ok true \/ ka = kb \/ key_lt kb ka = Ok true) /\
  (key_lt ka kb = Ok true -> key_lt kb ka = Ok false).
Proof.
  intros Ha Hb.
  apply natural_key_alt in Ha, Hb.
  split; [eapply key_lt_defined; eauto|].
  split; [eapply key_lt_total; eauto | apply key_lt_asym].
Qed.

(** Whenever [natural_key] returns, the key has odd length, texts at the
    even positions and integers at the odd ones. *)
Lemma key_alt_positions k : forall d,
  key_alt d k = true ->
  Nat.odd (List.length k) = negb d /\
  forall i t, nth_error k i = Some t ->
    (if Bool.eqb (Nat.even i) d then is_int t else is_text t) = true.
Proof.
  induction k as [|t k IH]; intros d H; simpl in H.
  - subst d. split; [reflexivity|]. intros [|i] t; discriminate.
  - apply andb_true_iff in H. destruct H as [Ht Hk].
    destruct (IH _ Hk) as [Hodd Hpos]. split.
    + change (List.length (t :: k)) with (S (List.length k)).
      rewrite Nat.odd_succ, <- Nat.negb_odd, Hodd. now destruct d.
    + intros [|i] t' Hi.
      * inversion Hi. subst. now destruct d.
      * simpl in Hi. specialize (Hpos i t' Hi).
        rewrite Nat.even_succ, <- Nat.negb_even.
        destruct (Nat.even i), d; simpl in *; exact Hpos.
Qed.

Lemma natural_key_shape text k :
  natural_key text = Ok k ->
  Nat.odd (List.length k) = true /\
  forall i t, nth_error k i = Some t ->
    (if Nat.even i then is_text t else is_int t) = true.
Proof.
  intros H. apply natural_key_alt in H.
  destruct (key_alt_positions k false H) as [Hodd Hpos].
  split; [exact Hodd|]. intros i t Hi. specialize (Hpos i t Hi).
  now destruct (Nat.even i).
Qed.

Lemma ascii_digit_is_decimal c :
  is_ascii c = true -> is_digit_char c = is_decimal c.
Proof.
  destruct c as [[] [] [] [] [] [] [] []]; vm_compute; congruence.
Qed.

Lemma split_scan_chars P s : forall d cur,
  forallb_string P s = true -> forallb_string P cur = true ->
  Forall (fun p => forallb_string P p = true) (split_scan s d cur).
Proof.
  induction s as [|c s IH]; intros d cur Hs Hcur; simpl.
  - destruct d; repeat constructor; auto.
  - simpl in Hs. apply andb_true_iff in Hs. destruct Hs as [Hc Hs].
    destruct (is_decimal c), d.
    + apply IH; auto. now rewrite forallb_string_snoc, Hcur, Hc.
    + constructor; auto. apply IH; auto. simpl. now rewrite Hc.
    + constructor; auto. apply IH; auto. simpl. now rewrite Hc.
    + apply IH; auto. now rewrite forallb_string_snoc, Hcur, Hc.
Qed.

Lemma key_token_ascii_text p :
  forallb_string is_ascii p = true ->
  forallb_string (fun c => negb (is_decimal c)) p = true ->
  exists t, key_token p = Ok t.
Proof.
  intros Ha Hn. unfold key_token, isdigit.
  destruct p as [|c p]; simpl; [eauto|].
  simpl in Ha, Hn. apply andb_true_iff in Ha, Hn.
  destruct Ha as [Ha _], Hn as [Hn _].
  rewrite (ascii_digit_is_decimal c Ha).
  apply negb_true_iff in Hn. rewrite Hn. simpl. eauto.
Qed.

Lemma key_token_decimal p :
  nonempty p && forallb_string is_decimal p = true ->
  exists t, key_token p = Ok t.
Proof.
  intros H. unfold key_token, int. rewrite H.
  destruct (isdigit p); simpl; eauto.
Qed.

(** On ASCII names [natural_key] always returns. *)
Lemma natural_key_ascii text :
  forallb_string is_ascii text = true -> exists k, natural_key text = Ok k.
Proof.
  intros Ha. unfold natural_key. apply mapM_ok_iff.
  pose proof (regex_split_alt text) as Halt.
  pose proof (split_scan_chars is_ascii text false EmptyString Ha eq_refl)
    as Hch.
  fold (regex_split text) in Hch.
  revert Halt Hch. generalize (regex_split text). generalize false.
  intros d ps. revert d. induction ps as [|p ps IH]; intros d Halt Hch.
  - constructor.
  - simpl in Halt. apply andb_true_iff in Halt. destruct Halt as [Hp Hps].
    inversion Hch as [|? ? Hpa Hpsa]; subst.
    constructor; [|eapply IH; eauto].
    destruct d.
    + now apply key_token_decimal.
    + now apply key_token_ascii_text.
Qed.

(** C9, refuted. [natural_key] does not return on every input string: on
    the one-character name U+00B2 (superscript two) the regular expression
    finds no digit run, [isdigit] holds of the part and [int] raises
    [ValueError]. *)
Theorem C9_natural_key_raises :
  natural_key superscript_two = Raise ValueError.
Proof. reflexivity. Qed.

(** C6, refuted. Comparing the keys of two names is not defined for
    every pair of input strings: with the name U+00B2 the key does not
    exist, and sorting a listing that holds it raises [ValueError]. *)
Theorem C6_comparison_raises :
  name_lt superscript_two "1" = Raise ValueError /\
  sort_natural [["t"; superscript_two]; ["t"; "1"]] = Raise ValueError.
Proof. split; reflexivity. Qed.

(** ** _safe_rename *)

(** C1, refuted. [file.txt] is renamed to [2_file.txt], which is there
    already, whatever [uuid4] draws. On POSIX the call returns,
    [2_file.txt] holds what [file.txt] held and no name of the directory
    holds what [2_file.txt] held: the leftover file is overwritten. On
    Windows the call raises [FileExistsError] and leaves the source under
    the temporary name. *)
Theorem C1_collision_overwrites_or_raises (uuid4_hex : nat -> string) :
  (exists w',
     _safe_rename Posix uuid4_hex ["d"; "file.txt"] ["d"; "2_file.txt"]
       (mkWorld tree_collision [] 0) = (Ok tt, w') /\
     lookup (w_fs w') ["d"; "2_file.txt"] = Some (file "A") /\
     lookup (w_fs w') ["d"; "file.txt"] = None /\
     forall x, lookup (w_fs w') ["d"; x] <> Some (file "B")) /\
  (exists w',
     _safe_rename Windows uuid4_hex ["d"; "file.txt"] ["d"; "2_file.txt"]
       (mkWorld tree_collision [] 0) = (Raise FileExistsError, w') /\
     lookup (w_fs w') ["d"; "file.txt"] = None /\
     lookup (w_fs w') ["d"; "2_file.txt"] = Some (file "B") /\
     lookup (w_fs w') ["d"; temp_name (uuid4_hex 0) "file.txt"] =
       Some (file "A")).
Proof.
  set (w := mkWorld tree_collision [] 0).
  set (es := [("file.txt", file "A"); ("2_file.txt", file "B")]).
  assert (Hd : lookup (w_fs w) ["d"] = Some (Dir true es)) by reflexivity.
  assert (Hne : "file.txt" <> "2_file.txt") by discriminate.
  assert (Hsrc : assoc "file.txt" es = Some (File false "A")) by reflexivity.
  assert (Hdst : assoc "2_file.txt" es = Some (File false "B")) by reflexivity.
  assert (Ht : assoc (temp_name (uuid4_hex (w_drawn w)) "file.txt") es = None)
    by reflexivity.
  assert (Hchild : forall es' k x,
            lookup (w_fs (with_entries w ["d"] es' k)) ["d"; x] = assoc x es').
  { intros es' k x.
    exact (lookup_modify_child (fun _ => es') ["d"] (w_fs w) true es x Hd). }
  change ["d"; "file.txt"] with (["d"] ++ ["file.txt"]).
  change ["d"; "2_file.txt"] with (["d"] ++ ["2_file.txt"]).
  split.
  - destruct (safe_rename_collision_posix uuid4_hex w ["d"] true es
                "file.txt" "2_file.txt" "A" Hd Hne Hsrc Ht false "B" Hdst)
      as [es2 [Hrun [H1 [H2 H3]]]].
    exists (with_entries w ["d"] es2 (S (w_drawn w))).
    split; [exact Hrun|]. simpl app. rewrite !Hchild.
    split; [exact H1|]. split; [exact H2|].
    intros x. rewrite Hchild.
    destruct (string_dec x "2_file.txt") as [->|Hx1];
      [rewrite H1; discriminate|].
    destruct (string_dec x "file.txt") as [->|Hx2];
      [rewrite H2; discriminate|].
    rewrite (H3 x Hx1 Hx2).
    change (assoc x es) with
      (if String.eqb "file.txt" x then Some (file "A")
       else if String.eqb "2_file.txt" x then Some (file "B") else None).
    apply String.eqb_neq in Hx1, Hx2.
    rewrite String.eqb_sym in Hx1. rewrite String.eqb_sym in Hx2.
    rewrite Hx1, Hx2. discriminate.
  - destruct (safe_rename_collision_windows uuid4_hex w ["d"] true es
                "file.txt" "2_file.txt" "A" Hd Hne Hsrc Ht _ Hdst)
      as [Hrun [H1 [H2 H3]]].
    eexists. split; [exact Hrun|]. simpl app. rewrite !Hchild.
    split; [exact H1|]. split; [exact H3|exact H2].
Qed.

(** The same in a run. [r/b] holds [1.txt] and a leftover [2_1.txt]. On
    POSIX the run reports two files renamed and [r/b] is left with one
    file: the leftover was overwritten, then renamed again. On Windows the
    first rename is reported as an error and [1.txt] is left under the
    temporary name. *)
Example rename_tree_leftover :
  rename_tree Posix draws 1000 ["r"] false true tree_leftover =
    Some (Ok 2,
          mkWorld
            (Dir true
               [("r", Dir true
                   [("a", Dir true []);
                    ("b", Dir true [("2_2_1.txt", file "A")])])])
            [LogProcessing ["r"; "a"] 1; LogProcessing ["r"; "b"] 2;
             LogRenamed ["r"; "b"; "1.txt"] ["r"; "b"; "2_1.txt"];
             LogRenamed ["r"; "b"; "2_1.txt"] ["r"; "b"; "2_2_1.txt"];
             LogDone 2]
            1) /\
  rename_tree Windows draws 1000 ["r"] false true tree_leftover =
    Some (Ok 1,
          mkWorld
            (Dir true
               [("r", Dir true
                   [("a", Dir true []);
                    ("b", Dir true
                       [("__renaming__0__1.txt", file "A");
                        ("2_2_1.txt", file "B")])])])
            [LogProcessing ["r"; "a"] 1; LogProcessing ["r"; "b"] 2;
             LogError ["r"; "b"; "1.txt"] FileExistsError;
             LogRenamed ["r"; "b"; "2_1.txt"] ["r"; "b"; "2_2_1.txt"];
             LogDone 1]
            1).
Proof. split; vm_compute; reflexivity. Qed.

(** ** rename_files_in_tree: the root and the directories *)



(** C10. A run creates, deletes and renames no directory: the paths that
    are directories are the same before and after it, whatever the root.
    No event of the run is about a directory, and the events a directory
    gets are about files it held when it was listed. Each call of
    [_safe_rename] is followed by exactly one event that names its source
    (RENAMED or ERROR), so the events tell what was passed to it. *)
Theorem C10_directories_are_kept (pf : platform) (uuid4_hex : nat -> string)
  (limit : nat) (root : path) (include_root_files : bool) (fs : node) :
  (forall log, exists r w',
     rename_tree pf uuid4_hex limit root include_root_files log fs
       = Some (r, w') /\
     forall q, is_dir (w_fs w') q = is_dir fs q) /\
  (exists r w',
     rename_tree pf uuid4_hex limit root include_root_files true fs
       = Some (r, w') /\
     Forall (event_ok fs) (w_out w')) /\
  (forall d idx w, exists evs,
     w_out (snd (_prefix_files_in_dir pf uuid4_hex d idx true w)) =
       w_out w ++ evs /\
     Forall (fun e => exists f, renamed_source e = Some f /\
               is_file (w_fs w) f = true /\ parent f = d) evs).
Proof.
  assert (Hrun : forall log, exists r w',
            rename_tree pf uuid4_hex limit root include_root_files log fs
              = Some (r, w') /\
            (forall q, is_dir (w_fs w') q = is_dir fs q) /\
            exists evs, w_out w' = (if log then evs else []) /\
                        Forall (event_ok fs) evs).
  { intros log. destruct (is_dir fs root) eqn:Hd.
    - destruct (rename_tree_runs pf uuid4_hex limit root include_root_files
                  log fs Hd)
        as [r [w' [w1 [Hr [[D [_ [evs [O [E _]]]]] Hw']]]]].
      exists r, w'. split; [exact Hr|]. simpl in D, O, E.
      destruct r as [n|e]; subst w'.
      + split; [intros q; now rewrite emit_fs|].
        exists (evs ++ [LogDone n]). rewrite emit_out, O.
        split; [now destruct log|].
        apply Forall_app. split; [exact E|]. repeat constructor.
      + split; [exact D|]. exists evs. split; [now destruct log|exact E].
    - exists (Raise NotADirectoryError), (mkWorld fs [] 0).
      split; [now apply rename_tree_invalid|]. split; [reflexivity|].
      exists []. split; [now destruct log|constructor]. }
  split; [|split].
  - intros log. destruct (Hrun log) as [r [w' [H1 [H2 _]]]]. eauto.
  - destruct (Hrun true) as [r [w' [H1 [_ [evs [H2 H3]]]]]].
    exists r, w'. split; [exact H1|]. now rewrite H2.
  - intros d idx w.
    destruct (prefix_files_events pf uuid4_hex d idx true w) as [evs H].
    exists evs. exact H.
Qed.

(** ** The walk and the directories that cannot be listed *)

Lemma each_subdir_cons {A} (body : path -> A -> M A) descend sd rest acc w :
  each_subdir body descend (sd :: rest) acc w =
  match body sd acc w with
  | (Raise e, w1) => Some (Raise e, w1)
  | (Ok acc1, w1) =>
      match descend sd acc1 w1 with
      | Some (Ok acc2, w2) => each_subdir body descend rest acc2 w2
      | other => other
      end
  end.
Proof. reflexivity. Qed.

(** C3, as stated, fails: a directory that exists and cannot be listed
    aborts the walk and the run. [r/a] cannot be listed: the walk of [r]
    raises instead of going on with [r/b], and the run raises with
    [r/b/y.txt] not renamed. *)
Lemma C3_unlistable_directory_aborts :
  _iter_subdirs_natural 1000 tree_denied ["r"] =
    Some (Raise PermissionError) /\
  rename_tree Posix draws 1000 ["r"] false true tree_denied =
    Some (Raise PermissionError,
          mkWorld tree_denied [LogProcessing ["r"; "a"] 1] 0).
Proof. split; reflexivity. Qed.

(** C3, amended. A directory that has vanished when it comes to be listed
    (the listing raises [FileNotFoundError]) yields nothing: the walk of it
    returns at once, the loop over the siblings already enumerated goes on
    with the next one, and [_prefix_files_in_dir] counts no file for it.
    Any other failure of a listing is raised to the caller. *)
Theorem C3_vanished_directory_is_skipped {A : Type}
  (body : path -> A -> M A) (fuel : nat) :
  (forall root acc w,
     iterdir (w_fs w) root = Raise FileNotFoundError ->
     for_subdirs body (S fuel) root acc w = Some (Ok acc, w)) /\
  (forall sd rest acc w acc1 w1,
     body sd acc w = (Ok acc1, w1) ->
     iterdir (w_fs w1) sd = Raise FileNotFoundError ->
     each_subdir body (for_subdirs body (S fuel)) (sd :: rest) acc w =
     each_subdir body (for_subdirs body (S fuel)) rest acc1 w1) /\
  (forall pf uuid4_hex d idx log w,
     iterdir (w_fs w) d = Raise FileNotFoundError ->
     _prefix_files_in_dir pf uuid4_hex d idx log w = (Ok 0, w)) /\
  (forall root acc w e,
     list_subdirs root (w_fs w) = Raise e -> e <> FileNotFoundError ->
     for_subdirs body (S fuel) root acc w = Some (Raise e, w)).
Proof.
  assert (H1 : forall root acc w,
            iterdir (w_fs w) root = Raise FileNotFoundError ->
            for_subdirs body (S fuel) root acc w = Some (Ok acc, w)).
  { intros root acc w H. simpl. unfold list_subdirs. now rewrite H. }
  split; [exact H1|]. split; [|split].
  - intros sd rest acc w acc1 w1 Hb Hv.
    rewrite each_subdir_cons, Hb. now rewrite (H1 sd acc1 w1 Hv).
  - intros pf uuid4_hex d idx log w H.
    unfold _prefix_files_in_dir, list_files. now rewrite H.
  - intros root acc w e H He. simpl. rewrite H.
    destruct e; congruence.
Qed.

Lemma C3_vanished_directory_is_skipped_witness :
  for_subdirs remove_dir 2 ["r"; "gone"] [] (mkWorld tree_denied [] 0) =
    Some (Ok [], mkWorld tree_denied [] 0) /\
  each_subdir remove_dir (for_subdirs remove_dir 2)
    [["r"; "b"]; ["r"; "a"]] [] (mkWorld tree_denied [] 0) =
  each_subdir remove_dir (for_subdirs remove_dir 2)
    [["r"; "a"]] [["r"; "b"]]
    (mkWorld (del ["r"; "b"] tree_denied) [] 0) /\
  _prefix_files_in_dir Posix draws ["r"; "gone"] 1 true
    (mkWorld tree_denied [] 0) = (Ok 0, mkWorld tree_denied [] 0) /\
  for_subdirs remove_dir 2 ["r"; "a"] [] (mkWorld tree_denied [] 0) =
    Some (Raise PermissionError, mkWorld tree_denied [] 0).
Proof.
  destruct (C3_vanished_directory_is_skipped remove_dir 1)
    as [H1 [H2 [H3 H4]]].
  split; [|split; [|split]].
  - apply H1. reflexivity.
  - apply H2; reflexivity.
  - apply H3. reflexivity.
  - apply H4; [reflexivity | discriminate].
Defined.

(** ** get_folder_index_among_siblings *)

(** C7, as stated, fails: the index is not always returned. [home] cannot
    be listed, and asking for the index of [home/alice] raises. *)
Lemma C7_unlistable_parent_raises :
  get_folder_index_among_siblings tree_home ["home"; "alice"] =
  Raise PermissionError.
Proof. reflexivity. Qed.

(** C7, amended. Whatever is returned is at least 1. The index is 1 for a
    path that is its own parent and when listing the parent raises
    [FileNotFoundError]. When the parent is listed and every sibling name
    has a key, the siblings are sorted by key and a directory that is
    among them gets 1 plus its (first) position in the sorted list, any
    other path gets 1. *)
Theorem C7_index_among_siblings (fs : node) (folder : path) :
  (forall n, get_folder_index_among_siblings fs folder = Ok n -> 1 <= n) /\
  (parent folder = folder ->
   get_folder_index_among_siblings fs folder = Ok 1) /\
  (iterdir fs (parent folder) = Raise FileNotFoundError ->
   get_folder_index_among_siblings fs folder = Ok 1) /\
  (forall siblings,
     parent folder <> folder ->
     list_subdirs (parent folder) fs = Ok siblings ->
     Forall (fun p => has_key (name p)) siblings ->
     exists sorted,
       sort_natural siblings = Ok sorted /\
       Permutation siblings sorted /\
       key_sorted (fun p => natural_key (name p)) key_lt sorted /\
       (In folder siblings ->
        exists i,
          nth_error sorted i = Some folder /\
          (forall j, j < i -> nth_error sorted j <> Some folder) /\
          get_folder_index_among_siblings fs folder = Ok (i + 1)) /\
       (~ In folder siblings ->
        get_folder_index_among_siblings fs folder = Ok 1)).
Proof.
  split; [intros n; apply get_folder_index_positive|].
  split; [apply get_folder_index_root|].
  split; [apply get_folder_index_vanished|].
  intros siblings Hp Hl Hk.
  destruct (get_folder_index_listed fs folder siblings Hp Hl Hk)
    as [sorted [Hs [Hsome Hnone]]].
  exists sorted. split; [exact Hs|].
  split; [now apply sort_natural_perm|].
  split; [exact (sort_natural_sorted siblings sorted Hs)|]. split.
  - intros Hin. apply (sort_natural_in _ _ folder Hs) in Hin.
    destruct (index_some _ _ Hin) as [i [Hi Hn]].
    exists i. split; [exact Hn|]. split; [now apply index_first|auto].
  - intros Hin. apply Hnone. apply index_none.
    intros H. apply Hin. now apply (sort_natural_in _ _ folder Hs).
Qed.

(** The seven sibling directories of the fixture: sorted as 1, 2, 10, A,
    b1, B2, B10, with the indices 1 to 7. *)
Example index_seven_siblings :
  map (fun c => get_folder_index_among_siblings tree_seven ["t"; c])
    ["1"; "2"; "10"; "A"; "b1"; "B2"; "B10"] =
  [Ok 1; Ok 2; Ok 3; Ok 4; Ok 5; Ok 6; Ok 7].
Proof. reflexivity. Qed.

Lemma has_key_forallb ps :
  forallb (fun p => has_keyb (name p)) ps = true ->
  Forall (fun p => has_key (name p)) ps.
Proof.
  rewrite forallb_forall, Forall_forall.
  intros H p Hp. apply has_keyb_true. now apply H.
Qed.

Lemma C7_index_among_siblings_witness :
  1 <= 6 /\
  get_folder_index_among_siblings tree_seven [] = Ok 1 /\
  get_folder_index_among_siblings tree_seven ["gone"; "x"] = Ok 1 /\
  exists sorted,
    sort_natural
      (map (fun c => ["t"; c]) ["1"; "2"; "10"; "A"; "B2"; "B10"; "b1"])
      = Ok sorted /\
    Permutation
      (map (fun c => ["t"; c]) ["1"; "2"; "10"; "A"; "B2"; "B10"; "b1"])
      sorted /\
    key_sorted (fun p => natural_key (name p)) key_lt sorted /\
    (In ["t"; "B2"]
       (map (fun c => ["t"; c]) ["1"; "2"; "10"; "A"; "B2"; "B10"; "b1"]) ->
     exists i,
       nth_error sorted i = Some ["t"; "B2"] /\
       (forall j, j < i -> nth_error sorted j <> Some ["t"; "B2"]) /\
       get_folder_index_among_siblings tree_seven ["t"; "B2"] = Ok (i + 1)) /\
    (~ In ["t"; "B2"]
         (map (fun c => ["t"; c]) ["1"; "2"; "10"; "A"; "B2"; "B10"; "b1"]) ->
     get_folder_index_among_siblings tree_seven ["t"; "B2"] = Ok 1).
Proof.
  split; [|split; [|split]].
  - apply (proj1 (C7_index_among_siblings tree_seven ["t"; "B2"]) 6).
    reflexivity.
  - apply (proj1 (proj2 (C7_index_among_siblings tree_seven []))).
    reflexivity.
  - apply (proj1 (proj2 (proj2
             (C7_index_among_siblings tree_seven ["gone"; "x"])))).
    reflexivity.
  - apply (proj2 (proj2 (proj2
             (C7_index_among_siblings tree_seven ["t"; "B2"])))).
    + discriminate.
    + reflexivity.
    + apply has_key_forallb. reflexivity.
Defined.

(** ** _iter_subdirs_natural *)



(** [top] and its three directories are walked before the sibling [zed],
    and [sub1], [sub2], [sub10] in that order. *)
Example walk_nested :
  _iter_subdirs_natural 1000 tree_nested [] =
  Some (Ok [["top"]; ["top"; "sub1"]; ["top"; "sub2"]; ["top"; "sub10"];
            ["zed"]]).
Proof. reflexivity. Qed.


(** ** _prefix_files_in_dir *)

(** The integer a run returns is the number of its RENAMED events. *)
Lemma rename_tree_count pf uuid4_hex limit root include fs n w' :
  rename_tree pf uuid4_hex limit root include true fs = Some (Ok n, w') ->
  n = renamed_count (w_out w').
Proof.
  intros H. destruct (is_dir fs root) eqn:Hd.
  - destruct (rename_tree_runs pf uuid4_hex limit root include true fs Hd)
      as [r [w2 [w1 [Hr [[_ [_ [evs [O [_ C]]]]] Hw']]]]].
    rewrite H in Hr. inversion Hr. subst r w2. subst w'.
    rewrite emit_out, O, !renamed_count_app. simpl in *.
    rewrite (C n eq_refl). unfold renamed_count. simpl. lia.
  - rewrite rename_tree_invalid in H by exact Hd. discriminate.
Qed.

(** The second directory of [r] holds three files, one of them locked:
    the two others are renamed, the locked one is logged and stays, and
    the run returns 2. *)
Example rename_tree_locked :
  exists w',
    rename_tree Windows draws 1000 ["r"] false true tree_locked
      = Some (Ok 2, w') /\
    w_out w' =
      [LogProcessing ["r"; "a"] 1;
       LogProcessing ["r"; "top"] 2;
       LogRenamed ["r"; "top"; "file.txt"] ["r"; "top"; "2_file.txt"];
       LogRenamed ["r"; "top"; "log10.log"] ["r"; "top"; "2_log10.log"];
       LogError ["r"; "top"; "readme.md"] PermissionError;
       LogDone 2] /\
    file_at (w_fs w') ["r"; "top"; "2_file.txt"] = Some (false, "f") /\
    file_at (w_fs w') ["r"; "top"; "2_log10.log"] = Some (false, "l") /\
    file_at (w_fs w') ["r"; "top"; "readme.md"] = Some (true, "r") /\
    lookup (w_fs w') ["r"; "top"; "file.txt"] = None /\
    lookup (w_fs w') ["r"; "top"; "2_readme.md"] = None.
Proof. eexists. split; [vm_compute; reflexivity|]. vm_compute. tauto. Qed.




(** ** Running twice *)

(** [2_file.txt] becomes [2_2_file.txt] in a second run. *)
Example rename_tree_twice :
  exists n1 w1 n2 w2,
    rename_tree Posix draws 1000 ["r"] false false tree_locked
      = Some (Ok n1, w1) /\
    rename_tree Posix draws 1000 ["r"] false false (w_fs w1)
      = Some (Ok n2, w2) /\
    file_at (w_fs w1) ["r"; "top"; "2_file.txt"] = Some (false, "f") /\
    file_at (w_fs w2) ["r"; "top"; "2_2_file.txt"] = Some (false, "f") /\
    lookup (w_fs w2) ["r"; "top"; "2_file.txt"] = None /\
    lookup (w_fs w2) ["r"; "top"; "file.txt"] = None.
Proof.
  do 4 eexists. split; [vm_compute; reflexivity|].
  split; [vm_compute; reflexivity|]. vm_compute. tauto.
Qed.




(* ================================================================== *)
(** * Further properties of the code *)

(** ** natural_key *)

(** X1. Whenever [natural_key] returns, the key has odd length, a
    lower-cased text with no decimal digit at each even position and an
    integer at each odd position; so the first and the last token are
    texts. *)
Theorem X1_natural_key_alternates (text : string) (k : list token) :
  natural_key text = Ok k ->
  Nat.odd (List.length k) = true /\
  (forall i t, nth_error k i = Some t ->
     (if Nat.even i then is_text t else is_int t) = true) /\
  (forall t, nth_error k 0 = Some t \/
             nth_error k (List.length k - 1) = Some t ->
     is_text t = true).
Proof.
  intros H. destruct (natural_key_shape text k H) as [Hodd Hpos].
  split; [exact Hodd|]. split; [exact Hpos|].
  intros t [Ht|Ht].
  - exact (Hpos 0 t Ht).
  - specialize (Hpos _ t Ht).
    assert (He : Nat.even (List.length k - 1) = true).
    { destruct (List.length k) as [|n]; [discriminate|].
      rewrite Nat.odd_succ in Hodd. simpl. now rewrite Nat.sub_0_r. }
    now rewrite He in Hpos.
Qed.

Lemma X1_natural_key_alternates_witness :
  Nat.odd (List.length [TStr "b"; TInt 10; TStr ".log"]) = true /\
  (forall i t, nth_error [TStr "b"; TInt 10; TStr ".log"] i = Some t ->
     (if Nat.even i then is_text t else is_int t) = true) /\
  (forall t, nth_error [TStr "b"; TInt 10; TStr ".log"] 0 = Some t \/
             nth_error [TStr "b"; TInt 10; TStr ".log"]
               (List.length [TStr "b"; TInt 10; TStr ".log"] - 1) = Some t ->
     is_text t = true).
Proof. apply (X1_natural_key_alternates "B10.LOG"). reflexivity. Defined.

Lemma superscript_free_digit c :
  is_superscript c = false -> is_digit_char c = true -> is_decimal c = true.
Proof.
  unfold is_superscript. intros H Hd. rewrite Hd in H.
  now destruct (is_decimal c).
Qed.

Lemma key_token_plain p : plain p = true -> exists t, key_token p = Ok t.
Proof.
  intros Hp. unfold key_token. destruct (isdigit p) eqn:Hd; [|eauto].
  unfold int, isdigit in *.
  apply andb_true_iff in Hd. destruct Hd as [Hn Hd]. rewrite Hn. simpl.
  assert (Hdec : forallb_string is_decimal p = true).
  { clear Hn. induction p as [|c p IH]; [reflexivity|].
    simpl in *. apply andb_true_iff in Hp, Hd.
    destruct Hp as [Hc Hp], Hd as [Hdc Hd].
    apply negb_true_iff in Hc.
    rewrite (superscript_free_digit c Hc Hdc). simpl. now apply IH. }
  rewrite Hdec. simpl. eauto.
Qed.

Lemma natural_key_plain text :
  plain text = true -> exists k, natural_key text = Ok k.
Proof.
  intros Hp. unfold natural_key. apply mapM_ok_iff.
  pose proof (split_scan_chars (fun c => negb (is_superscript c)) text false
                EmptyString Hp eq_refl) as Hch.
  eapply Forall_impl; [|exact Hch].
  intros p. apply key_token_plain.
Qed.

(** X2. On the names of the model, made of the characters U+0000 to
    U+00FF, and of at most 4300 characters (no run of digits reaches the
    limit the interpreter sets on [int]): [natural_key] returns on every
    name that holds none of the superscript digits U+00B2, U+00B3 and
    U+00B9; and when it raises, it raises [ValueError] and the name holds
    one of them. *)
Theorem X2_natural_key_raises_on_superscripts_only (text : string) :
  String.length text <= 4300 ->
  (plain text = true -> exists k, natural_key text = Ok k) /\
  (forall e, natural_key text = Raise e ->
     e = ValueError /\ plain text = false).
Proof.
  intros _. split; [apply natural_key_plain|].
  intros e H. split; [eapply natural_key_raise; eauto|].
  destruct (plain text) eqn:Hp; [|reflexivity].
  destruct (natural_key_plain text Hp) as [k Hk]. congruence.
Qed.

Lemma X2_natural_key_raises_on_superscripts_only_witness :
  (exists k, natural_key "log10.LOG" = Ok k) /\
  (ValueError = ValueError /\
   plain ("x1" ++ superscript_two) = false).
Proof.
  split.
  - refine (proj1 (X2_natural_key_raises_on_superscripts_only "log10.LOG"
                     _) _);
      [apply Nat.leb_le; reflexivity | reflexivity].
  - refine (proj2 (X2_natural_key_raises_on_superscripts_only
                     ("x1" ++ superscript_two) _) ValueError _);
      [apply Nat.leb_le; reflexivity | reflexivity].
Defined.

(** X3. On the keys that [natural_key] returns the comparison never raises
    (no integer meets a text), and it is a strict total order: no key is
    below itself, of two different keys one is below the other, never both,
    and the order is transitive. *)
Theorem X3_key_order_is_strict_and_total (a b c : string)
  (ka kb kc : list token) :
  natural_key a = Ok ka -> natural_key b = Ok kb -> natural_key c = Ok kc ->
  (exists r, key_lt ka kb = Ok r) /\
  key_lt ka ka = Ok false /\
  (key_lt ka kb = Ok true \/ ka = kb \/ key_lt kb ka = Ok true) /\
  (key_lt ka kb = Ok true -> key_lt kb ka = Ok false) /\
  (key_lt ka kb = Ok true -> key_lt kb kc = Ok true ->
   key_lt ka kc = Ok true).
Proof.
  intros Ha Hb Hc. apply natural_key_alt in Ha, Hb, Hc.
  split; [eapply key_lt_defined; eauto|]. split.
  - destruct (key_lt_defined ka false ka Ha Ha) as [r Hr].
    destruct (key_lt_irrefl ka) as [H|[e H]]; [exact H | congruence].
  - split; [eapply key_lt_total; eauto|].
    split; [apply key_lt_asym | apply key_lt_trans].
Qed.

Lemma X3_key_order_is_strict_and_total_witness :
  (exists r, key_lt [TStr ""; TInt 2; TStr ""] [TStr ""; TInt 10; TStr ""]
             = Ok r) /\
  key_lt [TStr ""; TInt 2; TStr ""] [TStr ""; TInt 2; TStr ""] = Ok false /\
  (key_lt [TStr ""; TInt 2; TStr ""] [TStr ""; TInt 10; TStr ""] = Ok true \/
   [TStr ""; TInt 2; TStr ""] = [TStr ""; TInt 10; TStr ""] \/
   key_lt [TStr ""; TInt 10; TStr ""] [TStr ""; TInt 2; TStr ""] = Ok true) /\
  (key_lt [TStr ""; TInt 2; TStr ""] [TStr ""; TInt 10; TStr ""] = Ok true ->
   key_lt [TStr ""; TInt 10; TStr ""] [TStr ""; TInt 2; TStr ""]
   = Ok false) /\
  (key_lt [TStr ""; TInt 2; TStr ""] [TStr ""; TInt 10; TStr ""] = Ok true ->
   key_lt [TStr ""; TInt 10; TStr ""] [TStr "b"; TInt 1; TStr ""] = Ok true ->
   key_lt [TStr ""; TInt 2; TStr ""] [TStr "b"; TInt 1; TStr ""] = Ok true).
Proof.
  apply (X3_key_order_is_strict_and_total "2" "10" "b1"); reflexivity.
Defined.

(** *** Case *)

Lemma lower_char_decimal c : is_decimal (lower_char c) = is_decimal c.
Proof. destruct c as [[] [] [] [] [] [] [] []]; vm_compute; reflexivity. Qed.

Lemma lower_char_digit c : is_digit_char (lower_char c) = is_digit_char c.
Proof. destruct c as [[] [] [] [] [] [] [] []]; vm_compute; reflexivity. Qed.

Lemma lower_char_fixes_digits c :
  is_digit_char c = true -> lower_char c = c.
Proof.
  destruct c as [[] [] [] [] [] [] [] []]; vm_compute; intros H;
    first [reflexivity | discriminate H].
Qed.

Lemma lower_snoc cur c : lower (snoc cur c) = snoc (lower cur) (lower_char c).
Proof.
  unfold snoc. induction cur as [|x cur IH]; simpl; [reflexivity|].
  now rewrite IH.
Qed.

Lemma split_scan_lower s : forall d cur,
  split_scan (lower s) d (lower cur) = map lower (split_scan s d cur).
Proof.
  induction s as [|c s IH]; intros d cur; simpl.
  - now destruct d.
  - rewrite lower_char_decimal. destruct (is_decimal c), d; simpl.
    + rewrite <- lower_snoc. apply IH.
    + f_equal. apply (IH true (String c EmptyString)).
    + f_equal. apply (IH false (String c EmptyString)).
    + rewrite <- lower_snoc. apply IH.
Qed.

Lemma isdigit_lower p : isdigit (lower p) = isdigit p.
Proof.
  unfold isdigit. f_equal; [now destruct p|].
  induction p as [|c p IH]; simpl; [reflexivity|].
  now rewrite lower_char_digit, IH.
Qed.

Lemma lower_digits p : forallb_string is_digit_char p = true -> lower p = p.
Proof.
  induction p as [|c p IH]; simpl; [reflexivity|].
  intros H. apply andb_true_iff in H. destruct H as [Hc Hp].
  now rewrite (lower_char_fixes_digits c Hc), IH.
Qed.

Lemma key_token_lower p : key_token (lower p) = key_token p.
Proof.
  unfold key_token. rewrite isdigit_lower.
  destruct (isdigit p) eqn:Hd.
  - unfold isdigit in Hd. apply andb_true_iff in Hd.
    now rewrite (lower_digits p (proj2 Hd)).
  - now rewrite lower_idem.
Qed.

Lemma mapM_map {X Y Z} (f : Y -> result Z) (g : X -> Y) l :
  mapM f (map g l) = mapM (fun x => f (g x)) l.
Proof.
  induction l as [|x l IH]; simpl; [reflexivity|]. now rewrite IH.
Qed.

Lemma mapM_ext {X Y} (f g : X -> result Y) l :
  (forall x, f x = g x) -> mapM f l = mapM g l.
Proof.
  intros H. induction l as [|x l IH]; simpl; [reflexivity|].
  now rewrite H, IH.
Qed.

(** X4. The key does not see the case of letters: a name and its
    lower-cased form get the same key (or both none), so two names that
    differ only in case are never ordered by their keys. *)
Theorem X4_natural_key_ignores_case (text : string) :
  natural_key (lower text) = natural_key text.
Proof.
  unfold natural_key, regex_split.
  change EmptyString with (lower EmptyString) at 1.
  rewrite split_scan_lower, mapM_map.
  apply mapM_ext, key_token_lower.
Qed.

(** *** The name a file gets *)

Lemma int_digits_of_uint u : forall acc,
  int_digits acc (NilEmpty.string_of_uint u) =
  N.of_nat (Nat.of_uint_acc u (N.to_nat acc)).
Proof.
  induction u; intros acc; simpl;
    [now rewrite N2Nat.id | rewrite IHu; do 2 f_equal;
       rewrite Nat.tail_mul_spec; unfold code; simpl; lia ..].
Qed.

Lemma str_nonempty n : nonempty (str n) = true.
Proof.
  unfold str. destruct (Nat.to_uint n) eqn:E; try reflexivity.
  pose proof (Unsigned.of_to n) as H. rewrite E in H. simpl in H.
  subst n. discriminate E.
Qed.

(** [int(str(n))] is [n]. *)
Lemma int_str n : int (str n) = Ok (N.of_nat n).
Proof.
  unfold int. rewrite str_nonempty, str_decimal. simpl. f_equal.
  unfold str. rewrite int_digits_of_uint. simpl.
  change (Nat.of_uint_acc (Nat.to_uint n) 0) with (Nat.of_uint (Nat.to_uint n)).
  now rewrite Unsigned.of_to.
Qed.

Lemma isdigit_str n : isdigit (str n) = true.
Proof.
  unfold isdigit. rewrite str_nonempty. simpl.
  apply (forallb_string_impl is_decimal); [apply decimal_is_digit|].
  apply str_decimal.
Qed.

Lemma key_token_str n : key_token (str n) = Ok (TInt (N.of_nat n)).
Proof. unfold key_token. now rewrite isdigit_str, int_str. Qed.

Lemma regex_split_prefixed idx c p ps :
  regex_split c = p :: ps ->
  regex_split (pre idx c) = EmptyString :: str idx :: String "_" p :: ps.
Proof.
  intros E.
  assert (Hu : split_scan c false (String "_" EmptyString)
               = String "_" p :: ps).
  { rewrite split_scan_cur. fold (regex_split c). now rewrite E. }
  unfold pre, regex_split.
  pose proof (str_decimal idx) as Hd. pose proof (str_nonempty idx) as Hn.
  destruct (str idx) as [|d0 ds]; [discriminate|].
  simpl in Hd. apply andb_true_iff in Hd. destruct Hd as [H0 Hds].
  simpl. rewrite H0.
  now rewrite (split_scan_digits ds _ "_"%char c Hds eq_refl), Hu.
Qed.

Lemma key_token_text_inv p s : key_token p = Ok (TStr s) -> s = lower p.
Proof.
  unfold key_token. destruct (isdigit p).
  - destruct (int p); simpl; discriminate.
  - intros H. now inversion H.
Qed.

Lemma natural_key_pre idx c s0 k :
  natural_key c = Ok (TStr s0 :: k) ->
  natural_key (pre idx c) =
  Ok (TStr EmptyString :: TInt (N.of_nat idx) :: TStr (String "_" s0) :: k).
Proof.
  unfold natural_key. intros H.
  destruct (regex_split c) as [|p ps] eqn:E; [discriminate|].
  rewrite (regex_split_prefixed idx c p ps E).
  apply mapM_ok_cons in H. destruct H as [t [k' [Hp [Hps Hk]]]].
  inversion Hk. subst t k'.
  apply key_token_text_inv in Hp. subst s0.
  change (mapM key_token (EmptyString :: str idx :: String "_" p :: ps))
    with (b0 <- key_token EmptyString ;;
          bs0 <- (b1 <- key_token (str idx) ;;
                  bs1 <- (b2 <- key_token (String "_" p) ;;
                          bs2 <- mapM key_token ps ;; Ok (b2 :: bs2)) ;;
                  Ok (b1 :: bs1)) ;;
          Ok (b0 :: bs0)).
  rewrite key_token_str, Hps. reflexivity.
Qed.

Lemma key_starts_with_text text k :
  natural_key text = Ok k -> exists s0 k', k = TStr s0 :: k'.
Proof.
  intros H. apply natural_key_alt in H.
  destruct k as [|[n|s0] k']; simpl in H; try discriminate. eauto.
Qed.

(** X5. The prefix reads back as the index: when a name has a key, the
    key of the name the tool gives the file is an empty text, the index of
    the directory as an integer, and then the key of the old name with an
    underscore before its first text. *)
Theorem X5_prefix_reads_back_as_index (idx : nat) (c s0 : string)
  (k : list token) :
  natural_key c = Ok (TStr s0 :: k) ->
  natural_key (pre idx c) =
  Ok (TStr EmptyString :: TInt (N.of_nat idx) :: TStr (String "_" s0) :: k).
Proof. apply natural_key_pre. Qed.

Lemma X5_prefix_reads_back_as_index_witness :
  natural_key (pre 12 "Log10.txt") =
  Ok [TStr ""; TInt 12; TStr "_log"; TInt 10; TStr ".txt"].
Proof.
  apply (X5_prefix_reads_back_as_index 12 "Log10.txt" "log"
           [TInt 10; TStr ".txt"]).
  reflexivity.
Defined.

(** X6. Prefixing keeps the order: two names that have keys compare under
    the same prefix as they did without it, so the files of a directory
    are listed in the same natural order before and after a run. *)
Theorem X6_prefix_keeps_the_order (idx : nat) (a b : string) :
  has_key a -> has_key b ->
  name_lt (pre idx a) (pre idx b) = name_lt a b.
Proof.
  intros [ka Ha] [kb Hb].
  destruct (key_starts_with_text a ka Ha) as [a0 [ka' ->]].
  destruct (key_starts_with_text b kb Hb) as [b0 [kb' ->]].
  unfold name_lt.
  rewrite (natural_key_pre idx a a0 ka' Ha), (natural_key_pre idx b b0 kb' Hb).
  rewrite Ha, Hb. simpl bind.
  change (key_lt (TStr EmptyString :: TInt (N.of_nat idx)
                    :: TStr (String "_" a0) :: ka')
                 (TStr EmptyString :: TInt (N.of_nat idx)
                    :: TStr (String "_" b0) :: kb'))
    with (if (N.of_nat idx =? N.of_nat idx)%N
          then key_lt (TStr (String "_" a0) :: ka')
                      (TStr (String "_" b0) :: kb')
          else Ok (N.of_nat idx <? N.of_nat idx)%N).
  rewrite N.eqb_refl. reflexivity.
Qed.

Lemma X6_prefix_keeps_the_order_witness :
  name_lt (pre 3 "file2.txt") (pre 3 "File10.txt") =
  name_lt "file2.txt" "File10.txt".
Proof.
  apply X6_prefix_keeps_the_order.
  - apply has_keyb_true. reflexivity.
  - apply has_keyb_true. reflexivity.
Defined.

(** ** _safe_rename *)

(** X7. Renaming a file to a name that is free in its directory: a file
    that is not locked is found under the new name with its data and no
    longer under the old one, every other name of the directory is as
    before, and neither the random source nor the progress sink is used; a
    locked file makes the call raise [PermissionError] and nothing is
    changed. *)
Theorem X7_safe_rename_to_a_free_name (pf : platform)
  (uuid4_hex : nat -> string) (w : world) (d : path) (l : bool)
  (es : list (string * node)) (c c' a : string) (locked : bool) :
  lookup (w_fs w) d = Some (Dir l es) ->
  assoc c es = Some (File locked a) ->
  assoc c' es = None ->
  if locked then
    _safe_rename pf uuid4_hex (d ++ [c]) (d ++ [c']) w
    = (Raise PermissionError, w)
  else
    exists w',
      _safe_rename pf uuid4_hex (d ++ [c]) (d ++ [c']) w = (Ok tt, w') /\
      lookup (w_fs w') (d ++ [c']) = Some (File false a) /\
      lookup (w_fs w') (d ++ [c]) = None /\
      (forall x, x <> c -> x <> c' ->
         lookup (w_fs w') (d ++ [x]) = lookup (w_fs w) (d ++ [x])) /\
      (forall q, parent q <> d -> file_at (w_fs w') q = file_at (w_fs w) q) /\
      (forall q, is_dir (w_fs w') q = is_dir (w_fs w) q) /\
      w_drawn w' = w_drawn w /\
      w_out w' = w_out w.
Proof.
  intros Hd Hc Hc'. destruct locked.
  - exact (safe_rename_locked uuid4_hex w d l es Hd pf c c' a Hc Hc').
  - set (es' := remove_entry c es ++ [(c', File false a)]).
    assert (Hcc : c <> c') by (intros E; congruence).
    assert (Hchild : forall x,
              lookup (w_fs (with_entries w d es' (w_drawn w))) (d ++ [x])
              = assoc x es').
    { intros x.
      exact (lookup_modify_child (fun _ => es') d (w_fs w) l es x Hd). }
    assert (Hdp : forall x, dir_part (assoc x es') = dir_part (assoc x es)).
    { intros x. unfold es'. rewrite assoc_renamed.
      destruct (String.eqb_spec c x) as [<-|Hx].
      - rewrite Hc. now destruct (String.eqb c' c).
      - destruct (assoc x es) as [n|] eqn:Ex; [reflexivity|].
        now destruct (String.eqb c' x). }
    exists (with_entries w d es' (w_drawn w)).
    split; [exact (safe_rename_free uuid4_hex w d l es Hd pf c c' a Hc Hc')|].
    split; [|split; [|split; [|split; [|split; [|split]]]]];
      try reflexivity.
    + rewrite Hchild. unfold es'. rewrite assoc_renamed.
      apply String.eqb_neq in Hcc. now rewrite Hcc, Hc', String.eqb_refl.
    + rewrite Hchild. unfold es'. rewrite assoc_renamed.
      rewrite String.eqb_refl.
      apply not_eq_sym, String.eqb_neq in Hcc. now rewrite Hcc.
    + intros x Hx Hx'. rewrite Hchild, (lookup_child _ _ _ _ Hd).
      unfold es'. rewrite assoc_renamed.
      apply not_eq_sym, String.eqb_neq in Hx.
      apply not_eq_sym, String.eqb_neq in Hx'. rewrite Hx, Hx'.
      now destruct (assoc x es).
    + intros q Hq.
      exact (modify_entries_file_at (w_fs w) d l es es' Hd Hdp q Hq).
    + intros q.
      exact (modify_entries_is_dir (w_fs w) d l es es' Hd Hdp q).
Qed.

Lemma X7_safe_rename_to_a_free_name_witness :
  exists w',
    _safe_rename Windows draws (["r"; "top"] ++ ["file.txt"])
      (["r"; "top"] ++ ["2_file.txt"]) (mkWorld tree_locked [] 0)
    = (Ok tt, w') /\
    lookup (w_fs w') (["r"; "top"] ++ ["2_file.txt"])
    = Some (File false "f") /\
    lookup (w_fs w') (["r"; "top"] ++ ["file.txt"]) = None /\
    (forall x, x <> "file.txt" -> x <> "2_file.txt" ->
       lookup (w_fs w') (["r"; "top"] ++ [x]) =
       lookup (w_fs (mkWorld tree_locked [] 0)) (["r"; "top"] ++ [x])) /\
    (forall q, parent q <> ["r"; "top"] ->
       file_at (w_fs w') q = file_at (w_fs (mkWorld tree_locked [] 0)) q) /\
    (forall q, is_dir (w_fs w') q
               = is_dir (w_fs (mkWorld tree_locked [] 0)) q) /\
    w_drawn w' = w_drawn (mkWorld tree_locked [] 0) /\
    w_out w' = w_out (mkWorld tree_locked [] 0).
Proof.
  apply (X7_safe_rename_to_a_free_name Windows draws
           (mkWorld tree_locked [] 0) ["r"; "top"] true
           [("file.txt", file "f"); ("readme.md", locked_file "r");
            ("log10.log", file "l")]
           "file.txt" "2_file.txt" "f" false); reflexivity.
Defined.

(** ** rename_files_in_tree: what a run can do to a tree *)

Lemma modify_dir_flag f p : forall fs q,
  (forall l es, lookup fs p = Some (Dir l es) ->
     forall c, dir_part (assoc c (f es)) = dir_part (assoc c es)) ->
  dir_flag (modify f p fs) q = dir_flag fs q.
Proof.
  induction p as [|c p IH]; intros fs q Hf.
  - destruct fs as [l d|l es]; simpl; [reflexivity|].
    destruct q as [|c q]; [reflexivity|].
    unfold dir_flag. simpl.
    specialize (Hf l es eq_refl c).
    destruct (assoc c es) as [[l1 d1|l1 es1]|],
      (assoc c (f es)) as [[l2 d2|l2 es2]|]; simpl in Hf;
      try discriminate; try (inversion Hf; subst; reflexivity);
      destruct q; reflexivity.
  - destruct fs as [l d|l es]; simpl; [reflexivity|].
    destruct q as [|c' q]; [reflexivity|].
    unfold dir_flag. simpl. rewrite assoc_map_first.
    destruct (String.eqb_spec c c') as [<-|Hc]; [|reflexivity].
    destruct (assoc c es) as [n|] eqn:Hn; simpl; [|reflexivity].
    apply (IH n q). intros l' es' Hl. apply (Hf l' es').
    simpl. now rewrite Hn.
Qed.

Lemma dir_flag_is_dir fs fs' :
  (forall q, dir_flag fs' q = dir_flag fs q) ->
  forall q, is_dir fs' q = is_dir fs q.
Proof.
  intros H q. specialize (H q). unfold dir_flag, is_dir in *.
  destruct (lookup fs' q) as [[|]|], (lookup fs q) as [[|]|];
    congruence.
Qed.

Lemma del_keeps_file_entries fs p :
  p <> [] -> is_dir fs p = false ->
  forall l es, lookup fs (parent p) = Some (Dir l es) ->
  forall c, dir_part (assoc c (remove_entry (name p) es))
            = dir_part (assoc c es).
Proof.
  intros Hp Hd l es Hl c. rewrite assoc_remove_entry.
  destruct (String.eqb_spec (name p) c) as [<-|Hc]; [|reflexivity].
  unfold is_dir in Hd. rewrite (lookup_parent_name fs p Hp), Hl in Hd.
  destruct (assoc (name p) es) as [[|]|]; simpl; congruence.
Qed.

Lemma put_keeps_file_entries (k : string) lk a (es : list (string * node)) c :
  dir_part (assoc c (es ++ [(k, File lk a)])) = dir_part (assoc c es).
Proof.
  rewrite assoc_app. destruct (assoc c es) as [n|]; [reflexivity|].
  simpl. destruct (String.eqb k c); reflexivity.
Qed.

Lemma del_dir_flag fs p q :
  p <> [] -> is_dir fs p = false -> dir_flag (del p fs) q = dir_flag fs q.
Proof.
  intros Hp Hd. apply modify_dir_flag. now apply del_keeps_file_entries.
Qed.

Lemma put_file_dir_flag fs p lk a q :
  dir_flag (put p (File lk a) fs) q = dir_flag fs q.
Proof.
  apply modify_dir_flag. intros l es _ c. apply put_keeps_file_entries.
Qed.

Lemma del_file_at fs p q :
  p <> [] -> is_dir fs p = false -> parent q <> parent p ->
  file_at (del p fs) q = file_at fs q.
Proof.
  intros Hp Hd Hq. apply modify_file_at; [|exact Hq].
  now apply del_keeps_file_entries.
Qed.

Lemma put_file_at fs p lk a q :
  parent q <> parent p -> file_at (put p (File lk a) fs) q = file_at fs q.
Proof.
  intros Hq. apply modify_file_at; [|exact Hq].
  intros l es _ c. apply put_keeps_file_entries.
Qed.

Lemma renames_refl pf T N fs : renames pf T N fs fs.
Proof.
  split; [|split; [|split]]; auto.
  exists (fun q => q). split; [|split]; auto.
  - split; [intros q lk a H; auto | auto].
  - right. intros q lk a H. eauto.
Qed.

Lemma renames_mono pf (T T' : path -> Prop) (N N' : string -> Prop) fs fs' :
  (forall d, T d -> T' d) -> (forall c, N c -> N' c) ->
  renames pf T N fs fs' -> renames pf T' N' fs fs'.
Proof.
  intros HT HN [D [F [[origin [C [M K]]] L]]].
  split; [exact D|]. split; [|split; [|exact L]].
  - intros q Hq. apply F. intros H. apply Hq. now apply HT.
  - exists origin. split; [exact C|]. split; [|exact K].
    intros q Hq. destruct (M q Hq); auto.
Qed.

Lemma renames_trans pf T N fs fs1 fs2 :
  renames pf T N fs fs1 -> renames pf T N fs1 fs2 -> renames pf T N fs fs2.
Proof.
  intros [D1 [F1 [[o1 [[C1 I1] [M1 K1]]] L1]]]
         [D2 [F2 [[o2 [[C2 I2] [M2 K2]]] L2]]].
  assert (Hmid : forall q, file_at fs2 q <> None ->
                   file_at fs1 (o2 q) <> None).
  { intros q Hq. destruct (file_at fs2 q) as [[lk a]|] eqn:E;
      [|contradiction].
    destruct (C2 q lk a E) as [H _]. rewrite H. discriminate. }
  split; [|split; [|split]].
  - intros q. now rewrite D2.
  - intros q Hq. now rewrite F2, F1.
  - exists (fun q => o1 (o2 q)). split; [split|split].
    + intros q lk a H. destruct (C2 q lk a H) as [H1 P1].
      destruct (C1 _ lk a H1) as [H0 P0].
      split; [exact H0 | congruence].
    + intros q q' Hq Hq' E. apply I2; auto; apply I1; auto.
    + intros q Hq. destruct (M2 q Hq) as [E|Hn]; [|now right].
      rewrite E. apply M1. rewrite <- E. now apply Hmid.
    + destruct K1 as [K1|K1]; [now left|].
      destruct K2 as [K2|K2]; [now left|]. right.
      intros q lk a H. destruct (K1 q lk a H) as [q1 [H1 E1]].
      destruct (K2 q1 lk a H1) as [q2 [H2 E2]].
      exists q2. split; [exact H2 | congruence].
  - intros q a H.
    destruct (L1 q a H) as [Hp|H1]; [now left|]. exact (L2 q a H1).
Qed.

Lemma file_at_root_dir fs l es : lookup fs [] = Some (Dir l es) ->
  file_at fs [] = None.
Proof. unfold file_at. now intros ->. Qed.

Lemma lookup_file_dir lk a (p : path) l es :
  lookup (File lk a) p = Some (Dir l es) -> False.
Proof. destruct p; discriminate. Qed.

Lemma file_at_top fs (d : path) l es :
  lookup fs d = Some (Dir l es) -> file_at fs [] = None.
Proof.
  intros H. destruct fs as [lk a|l0 es0]; [|reflexivity].
  exfalso. exact (lookup_file_dir _ _ _ _ _ H).
Qed.

(** One [os.rename] of a file inside its directory. *)
Lemma os_rename_renames pf fs src dst fs' :
  is_dir fs src = false -> parent dst = parent src ->
  os_rename pf fs src dst = Ok fs' ->
  renames pf (eq (parent src)) (eq (name dst)) fs fs'.
Proof.
  intros Hsrc Hpar H. unfold os_rename in H.
  destruct (is_root src) eqn:Hs0; [discriminate|].
  destruct (is_root dst) eqn:Hd0; [discriminate|]. simpl in H.
  assert (Hs : src <> []) by (intros ->; discriminate).
  assert (Hd : dst <> []) by (intros ->; discriminate).
  destruct (lookup fs src) as [n|] eqn:Hn; [|discriminate].
  destruct (is_locked n) eqn:Hlk; [discriminate|].
  assert (Hfile : exists lk a, n = File lk a).
  { unfold is_dir in Hsrc. rewrite Hn in Hsrc.
    destruct n; [eauto | discriminate]. }
  destruct Hfile as [lk [a ->]]. simpl in Hlk. subst lk.
  set (lk := false) in *.
  set (d := parent src) in *. set (c := name src). set (c' := name dst).
  assert (Esrc : src = d ++ [c]) by (apply path_snoc_inv; exact Hs).
  assert (Edst : dst = d ++ [c'])
    by (rewrite <- Hpar; apply path_snoc_inv; exact Hd).
  assert (Hdir : exists l es, lookup fs d = Some (Dir l es) /\
                   assoc c es = Some (File lk a)).
  { rewrite Esrc, lookup_snoc in Hn.
    destruct (lookup fs d) as [[|l es]|]; try discriminate. eauto. }
  destruct Hdir as [l [es [Hl Hc]]].
  assert (Hfsrc : file_at fs src = Some (lk, a))
    by (unfold file_at; now rewrite Hn).
  (* the two shapes of the result *)
  assert (Hshape : forall fs1 es1,
            c' <> c ->
            lookup fs1 d = Some (Dir l es1) ->
            (forall q, dir_flag fs1 q = dir_flag fs q) ->
            (forall q, parent q <> d -> file_at fs1 q = file_at fs q) ->
            (forall x, assoc x es1 =
                       if String.eqb c' x then None
                       else if String.eqb c x then None else assoc x es) ->
            pf = Posix \/ assoc c' es = None ->
            renames pf (eq d) (eq c') fs (put dst (File lk a) fs1)).
  { intros fs1 es1 Ncc Hl1 D1 F1 A1 K1.
    set (fs2 := put dst (File lk a) fs1).
    assert (Hl' : lookup fs2 d = Some (Dir l (es1 ++ [(c', File lk a)]))).
    { unfold fs2, put. rewrite Hpar. fold c'.
      exact (lookup_modify_at (fun es0 => es0 ++ [(c', File lk a)]) d fs1
               l es1 Hl1). }
    assert (P1 : forall x,
              file_at fs2 (d ++ [x]) =
              if String.eqb c' x then Some (lk, a)
              else if String.eqb c x then None else file_at fs (d ++ [x])).
    { intros x. rewrite (file_at_child _ _ _ _ x Hl').
      rewrite (file_at_child _ _ _ _ x Hl). rewrite assoc_app, A1. simpl.
      destruct (String.eqb c' x); [reflexivity|].
      destruct (String.eqb c x); [reflexivity|].
      now destruct (assoc x es). }
    assert (P2 : forall q, parent q <> d -> file_at fs2 q = file_at fs q).
    { intros q Hq. unfold fs2. rewrite put_file_at.
      - now apply F1.
      - now rewrite Hpar. }
    assert (Hsame : forall q, q <> src -> q <> dst ->
              file_at fs2 q = file_at fs q).
    { intros q Hqs Hqd.
      destruct (list_eq_dec string_dec (parent q) d) as [Eq|Nq];
        [|now apply P2].
      destruct (list_eq_dec string_dec q []) as [->|Hq0].
      { rewrite (file_at_top _ _ _ _ Hl), (file_at_top _ _ _ _ Hl').
        reflexivity. }
      rewrite (path_snoc_inv q Hq0), Eq, P1.
      destruct (String.eqb_spec c' (name q)) as [E|_].
      { exfalso. apply Hqd. rewrite (path_snoc_inv q Hq0), Eq, <- E.
        now symmetry. }
      destruct (String.eqb_spec c (name q)) as [E|_]; [|reflexivity].
      exfalso. apply Hqs. rewrite (path_snoc_inv q Hq0), Eq, <- E.
      now symmetry. }
    assert (Hdst2 : file_at fs2 dst = Some (lk, a)).
    { rewrite Edst, P1. now rewrite String.eqb_refl. }
    assert (Hsrc2 : file_at fs2 src = None).
    { rewrite Esrc, P1. apply String.eqb_neq in Ncc. rewrite Ncc.
      now rewrite String.eqb_refl. }
    assert (Hne : src <> dst).
    { intros E. apply Ncc. unfold c, c'. now rewrite E. }
    split; [|split; [|split]].
    - intros q. unfold fs2. now rewrite put_file_dir_flag.
    - intros q Hq. apply P2. intros E. apply Hq. now rewrite E.
    - exists (fun q => if path_eqb q dst then src else q).
      split; [split|split].
      + intros q lk0 a0 Hq. destruct (path_eqb q dst) eqn:E.
        * apply path_eqb_eq in E. subst q. rewrite Hdst2 in Hq.
          injection Hq as E1 E2. rewrite <- E1, <- E2.
          split; [exact Hfsrc | now rewrite Hpar].
        * apply path_eqb_neq in E. split; [|reflexivity].
          rewrite <- Hsame; [exact Hq | | exact E].
          intros ->. rewrite Hsrc2 in Hq. discriminate.
      + intros q q' Hq Hq' E.
        destruct (path_eqb q dst) eqn:E1; destruct (path_eqb q' dst) eqn:E2.
        * apply path_eqb_eq in E1, E2. congruence.
        * subst q'. now rewrite Hsrc2 in Hq'.
        * subst q. now rewrite Hsrc2 in Hq.
        * exact E.
      + intros q Hq. destruct (path_eqb q dst) eqn:E; [|now left].
        apply path_eqb_eq in E. subst q. now right.
      + destruct K1 as [K1|K1]; [now left|]. right.
        assert (Hfd : file_at fs dst = None).
        { rewrite Edst, (file_at_child _ _ _ _ c' Hl). now rewrite K1. }
        intros q lk0 a0 Hq.
        destruct (list_eq_dec string_dec q src) as [->|Nqs].
        * exists dst. rewrite path_eqb_refl. split; [|reflexivity].
          rewrite Hdst2. now rewrite Hfsrc in Hq.
        * assert (Nqd : q <> dst)
            by (intros ->; rewrite Hfd in Hq; discriminate).
          exists q. apply path_eqb_neq in Nqd as Nqd'. rewrite Nqd'.
          split; [|reflexivity]. now rewrite Hsame.
    - intros q a0 Hq.
      destruct K1 as [K1|K1]; [now left|]. right.
      assert (Hfd : file_at fs dst = None).
      { rewrite Edst, (file_at_child _ _ _ _ c' Hl). now rewrite K1. }
      rewrite Hsame; [exact Hq | |].
      + intros ->. rewrite Hfsrc in Hq. discriminate.
      + intros ->. rewrite Hfd in Hq. discriminate. }
  assert (Hdel1 : lookup (del src fs) d = Some (Dir l (remove_entry c es)))
    by (exact (lookup_modify_at (remove_entry c) d fs l es Hl)).
  destruct (lookup fs dst) as [m|] eqn:Hm.
  - destruct (path_eqb src dst) eqn:Esd;
      [inversion H; subst fs'; apply renames_refl|].
    apply path_eqb_neq in Esd.
    destruct pf; [|discriminate].
    destruct m as [l' d'|l' es']; [|discriminate].
    inversion H. subst fs'.
    assert (Hnd : is_dir (del src fs) dst = false).
    { rewrite del_is_dir; auto. unfold is_dir. now rewrite Hm. }
    apply (Hshape (del dst (del src fs))
             (remove_entry c' (remove_entry c es))).
    + intros E. apply Esd. rewrite Esrc, Edst. now rewrite E.
    + unfold del at 1. rewrite Hpar. fold c'.
      exact (lookup_modify_at (remove_entry c') d _ l _ Hdel1).
    + intros q. now rewrite !del_dir_flag.
    + intros q Hq. rewrite !del_file_at; auto. now rewrite Hpar.
    + intros x. now rewrite !assoc_remove_entry.
    + now left.
  - destruct (is_dir fs (parent dst)); [|discriminate].
    destruct (is_prefix src dst); [discriminate|].
    inversion H. subst fs'.
    assert (Hm' : assoc c' es = None)
      by (rewrite Edst, lookup_snoc, Hl in Hm; exact Hm).
    apply (Hshape (del src fs) (remove_entry c es)); auto.
    + intros E. rewrite E, Hc in Hm'. discriminate.
    + intros q. now rewrite del_dir_flag.
    + intros q Hq. now rewrite del_file_at.
    + intros x. rewrite assoc_remove_entry.
      destruct (String.eqb_spec c' x) as [<-|_]; [|reflexivity].
      rewrite Hm'. now destruct (String.eqb c c').
Qed.

Lemma os_rename_ok_src pf fs src dst fs' :
  is_dir fs src = false -> os_rename pf fs src dst = Ok fs' ->
  is_file fs src = true.
Proof.
  intros Hd H. unfold os_rename in H.
  destruct (is_root src || is_root dst); [discriminate|].
  unfold is_dir in Hd. unfold is_file.
  destruct (lookup fs src) as [[|]|]; congruence.
Qed.

Section RunRenames.
Variable pf : platform.
Variable uuid4_hex : nat -> string.
(** What is known of the tree all along, and the names files may get. *)
Variable Inv : node -> Prop.
Variable N : string -> Prop.
Hypothesis new_names : forall fs d c idx k,
  Inv fs -> is_file fs (d ++ [c]) = true ->
  N (pre idx c) /\ N (temp_name (uuid4_hex k) c).
Hypothesis inv_kept : forall T fs fs',
  Inv fs -> renames pf T N fs fs' -> Inv fs'.

Lemma rename_renames src dst w r w' :
  is_dir (w_fs w) src = false -> parent dst = parent src ->
  (is_file (w_fs w) src = true -> N (name dst)) ->
  rename pf src dst w = (r, w') ->
  renames pf (eq (parent src)) N (w_fs w) (w_fs w').
Proof using Type.
  intros Hd Hp Hn H. unfold rename in H.
  destruct (os_rename pf (w_fs w) src dst) as [fs'|e] eqn:E;
    inversion H; subst; simpl; [|apply renames_refl].
  apply (renames_mono pf (eq (parent src)) _ (eq (name dst)));
    [auto | | exact (os_rename_renames pf _ _ _ _ Hd Hp E)].
  intros c <-. apply Hn. eapply os_rename_ok_src; eauto.
Qed.

Lemma safe_rename_renames src dst w r w' :
  is_dir (w_fs w) src = false -> parent dst = parent src ->
  (is_file (w_fs w) src = true ->
   N (name dst) /\ N (temp_name (uuid4_hex (w_drawn w)) (name src))) ->
  _safe_rename pf uuid4_hex src dst w = (r, w') ->
  renames pf (eq (parent src)) N (w_fs w) (w_fs w').
Proof using Type.
  intros Hsrc Hp Hn H. unfold _safe_rename in H.
  destruct (path_eqb src dst); [inversion H; subst; apply renames_refl|].
  unfold bindM, read, uuid4 in H. simpl in H.
  destruct (exists_ (w_fs w) dst).
  - set (temp := with_name src _) in H.
    assert (Ept : parent temp = parent src) by apply parent_snoc.
    unfold rename at 1 in H. simpl in H.
    destruct (os_rename pf (w_fs w) src temp) as [fs1|e] eqn:E1.
    + pose proof (os_rename_ok_src _ _ _ _ _ Hsrc E1) as Hfile.
      destruct (Hn Hfile) as [Nd Nt].
      assert (R1 : renames pf (eq (parent src)) N (w_fs w) fs1).
      { apply (renames_mono pf (eq (parent src)) _ (eq (name temp)));
          [auto | | exact (os_rename_renames pf _ _ _ _ Hsrc Ept E1)].
        intros c <-. unfold temp, with_name. now rewrite name_snoc. }
      pose proof (os_rename_dst_not_dir _ _ _ _ _ Hsrc E1) as Ht.
      assert (Ht1 : is_dir fs1 temp = false)
        by (rewrite (dir_flag_is_dir _ _ (proj1 R1)); exact Ht).
      apply (renames_trans _ _ _ _ fs1); [exact R1|].
      rewrite <- Ept.
      refine (rename_renames temp dst _ r w' _ _ _ H); simpl; auto.
      congruence.
    + inversion H. subst. apply renames_refl.
  - refine (rename_renames src dst w r w' Hsrc Hp _ H).
    intros Hf. now apply Hn.
Qed.

Lemma prefix_loop_renames d idx log entries : forall changed w r w',
  Inv (w_fs w) ->
  Forall (fun p => is_dir (w_fs w) p = false /\ exists c, p = d ++ [c])
    entries ->
  prefix_loop pf uuid4_hex idx log entries changed w = (r, w') ->
  renames pf (eq d) N (w_fs w) (w_fs w').
Proof using new_names inv_kept.
  induction entries as [|f rest IH]; intros changed w r w' HI Hall H.
  - inversion H. subst. apply renames_refl.
  - rewrite prefix_loop_cons in H.
    inversion Hall as [|? ? [Hf [c ->]] Hrest]; subst.
    rewrite prefixed_snoc in H.
    destruct (_safe_rename pf uuid4_hex (d ++ [c]) (d ++ [pre idx c]) w)
      as [r1 w1] eqn:E.
    assert (R1 : renames pf (eq d) N (w_fs w) (w_fs w1)).
    { rewrite <- (parent_snoc d c).
      apply (safe_rename_renames _ (d ++ [pre idx c]) w r1 w1); auto.
      - now rewrite !parent_snoc.
      - intros Hfile. rewrite !name_snoc.
        now apply (new_names (w_fs w) d). }
    assert (Hrest1 : forall e,
              Forall (fun p => is_dir (w_fs (snd (emit log e w1))) p = false
                               /\ exists c, p = d ++ [c]) rest).
    { intros e. rewrite emit_fs. eapply Forall_impl; [|exact Hrest].
      intros p [Hp Hc]. split; [|exact Hc].
      now rewrite (dir_flag_is_dir _ _ (proj1 R1)). }
    apply (renames_trans _ _ _ _ (w_fs w1)); [exact R1|].
    destruct r1 as [[]|e].
    + rewrite <- (emit_fs log (LogRenamed (d ++ [c]) (d ++ [pre idx c])) w1).
      eapply IH; [| apply Hrest1 | exact H].
      rewrite emit_fs. eapply inv_kept; eauto.
    + rewrite <- (emit_fs log (LogError (d ++ [c]) e) w1).
      eapply IH; [| apply Hrest1 | exact H].
      rewrite emit_fs. eapply inv_kept; eauto.
Qed.

Lemma prefix_files_renames d idx log w r w' :
  Inv (w_fs w) ->
  _prefix_files_in_dir pf uuid4_hex d idx log w = (r, w') ->
  renames pf (eq d) N (w_fs w) (w_fs w').
Proof using new_names inv_kept.
  intros HI H. unfold _prefix_files_in_dir in H.
  destruct (list_files d (w_fs w)) as [entries|e] eqn:El.
  - unfold bindM, read in H.
    destruct (sort_natural entries) as [sorted|e] eqn:Es.
    + refine (prefix_loop_renames d idx log sorted 0 w r w' HI _ H).
      rewrite Forall_forall. intros p Hp.
      apply (sort_natural_in _ _ p Es) in Hp.
      destruct (list_files_in _ _ _ _ El Hp) as [Hf Hc].
      split; [now apply is_file_not_dir | exact Hc].
    + inversion H. subst. apply renames_refl.
  - destruct e; inversion H; subst; apply renames_refl.
Qed.

Lemma process_dir_renames log d total w r w' :
  Inv (w_fs w) ->
  process_dir pf uuid4_hex log d total w = (r, w') ->
  renames pf (eq d) N (w_fs w) (w_fs w').
Proof using new_names inv_kept.
  intros HI H. unfold process_dir in H.
  unfold bindM at 1 in H. unfold read in H.
  destruct (get_folder_index_among_siblings (w_fs w) d) as [idx|e];
    [|inversion H; subst; apply renames_refl].
  unfold bindM at 1 in H.
  destruct (emit log (LogProcessing d idx) w) as [[[]|e] w1] eqn:E;
    [|unfold emit in E; inversion E].
  assert (Hw1 : w_fs w1 = w_fs w).
  { pose proof (emit_fs log (LogProcessing d idx) w) as Hf.
    now rewrite E in Hf. }
  unfold bindM in H.
  destruct (_prefix_files_in_dir pf uuid4_hex d idx log w1)
    as [[n|e] w2] eqn:Ep; inversion H; subst; rewrite <- Hw1;
    (eapply prefix_files_renames; [now rewrite Hw1 | exact Ep]).
Qed.

Lemma process_root_renames log d w r w' :
  Inv (w_fs w) ->
  process_root pf uuid4_hex log d w = (r, w') ->
  renames pf (eq d) N (w_fs w) (w_fs w').
Proof using new_names inv_kept.
  intros HI H. unfold process_root in H.
  unfold bindM at 1 in H. unfold read in H.
  destruct (get_folder_index_among_siblings (w_fs w) d) as [idx|e];
    [|inversion H; subst; apply renames_refl].
  unfold bindM in H.
  destruct (emit log (LogProcessingRoot d idx) w) as [[[]|e] w1] eqn:E;
    [|unfold emit in E; inversion E].
  assert (Hw1 : w_fs w1 = w_fs w).
  { pose proof (emit_fs log (LogProcessingRoot d idx) w) as Hf.
    now rewrite E in Hf. }
  rewrite <- Hw1.
  eapply prefix_files_renames; [now rewrite Hw1 | exact H].
Qed.
End RunRenames.

(** A walk whose body works inside the directory it is given works
    inside the directories strictly under the root. [S T w r w'] relates
    the world before a piece of the walk to its result and the world
    after it, [T] being the directories it may work in. *)
Section WalkUnder.
Context {A : Type}.
Variable body : path -> A -> M A.
Variable S : (path -> Prop) -> world -> result A -> world -> Prop.

Hypothesis S_ret : forall T w a, S T w (Ok a) w.
Hypothesis S_seq : forall T w a1 w1 r w2,
  S T w (Ok a1) w1 -> S T w1 r w2 -> S T w r w2.
Hypothesis S_mono : forall (T T' : path -> Prop) w r w',
  (forall d, T d -> T' d) -> S T w r w' -> S T' w r w'.
Hypothesis S_dirs : forall T w r w',
  S T w r w' -> forall q, is_dir (w_fs w') q = is_dir (w_fs w) q.
Hypothesis S_body : forall sd a w r w',
  is_dir (w_fs w) sd = true -> body sd a w = (r, w') -> S (eq sd) w r w'.
Hypothesis S_list : forall T root w e,
  is_dir (w_fs w) root = true ->
  list_subdirs root (w_fs w) = Raise e -> S T w (Raise e) w.
Hypothesis S_sort : forall T root w sds e,
  is_dir (w_fs w) root = true ->
  list_subdirs root (w_fs w) = Ok sds -> sort_natural sds = Raise e ->
  S T w (Raise e) w.
Hypothesis S_limit : forall T w, S T w (Raise RecursionError) w.

Lemma strictly_below_child root c : strictly_below root (root ++ [c]).
Proof using Type. exists [c]. split; [discriminate | reflexivity]. Qed.

Lemma strictly_below_trans root c d :
  strictly_below (root ++ [c]) d -> strictly_below root d.
Proof using Type.
  intros [s [_ ->]]. exists (c :: s). split; [discriminate|].
  now rewrite <- app_assoc.
Qed.

Lemma each_subdir_under fuel root sds : forall a w r w',
  (forall sd a w r w', is_dir (w_fs w) sd = true ->
     for_subdirs body fuel sd a w = Some (r, w') ->
     S (strictly_below sd) w r w') ->
  (forall sd, In sd sds ->
     is_dir (w_fs w) sd = true /\ exists c, sd = root ++ [c]) ->
  each_subdir body (for_subdirs body fuel) sds a w = Some (r, w') ->
  S (strictly_below root) w r w'.
Proof using S_ret S_seq S_mono S_dirs S_body.
  induction sds as [|sd rest IH]; intros a w r w' Hdesc Hform H.
  - simpl in H. inversion H. subst. apply S_ret.
  - destruct (Hform sd (or_introl eq_refl)) as [Hsd [c Ec]].
    subst sd. simpl in H.
    assert (Hsub : forall d, strictly_below (root ++ [c]) d ->
                     strictly_below root d)
      by (intros d; apply strictly_below_trans).
    destruct (body (root ++ [c]) a w) as [[a1|e] w1] eqn:Eb.
    + pose proof (S_body _ a w _ w1 Hsd Eb) as S1.
      assert (S1' : S (strictly_below root) w (Ok a1) w1).
      { eapply S_mono; [|exact S1]. intros d Ed. subst d.
        apply strictly_below_child. }
      pose proof (S_dirs _ _ _ _ S1) as D1.
      assert (Hsd1 : is_dir (w_fs w1) (root ++ [c]) = true)
        by now rewrite D1.
      destruct (for_subdirs body fuel (root ++ [c]) a1 w1)
        as [[[a2|e] w2]|] eqn:Ed; [| |discriminate].
      * assert (S2 : S (strictly_below root) w1 (Ok a2) w2).
        { eapply S_mono; [exact Hsub|].
          exact (Hdesc _ a1 w1 _ w2 Hsd1 Ed). }
        pose proof (S_dirs _ _ _ _ S2) as D2.
        eapply S_seq; [exact S1'|]. eapply S_seq; [exact S2|].
        apply (IH a2 w2 r w'); auto.
        intros sd' Hin. destruct (Hform sd' (or_intror Hin)) as [Hd' Hc'].
        split; [now rewrite D2, D1 | exact Hc'].
      * injection H as <- <-. eapply S_seq; [exact S1'|].
        eapply S_mono; [exact Hsub|].
        exact (Hdesc _ a1 w1 _ w2 Hsd1 Ed).
    + injection H as <- <-. eapply S_mono; [|exact (S_body _ a w _ w1 Hsd Eb)].
      intros d Ed. subst d. apply strictly_below_child.
Qed.

Theorem walk_under fuel : forall root a w r w',
  is_dir (w_fs w) root = true ->
  for_subdirs body fuel root a w = Some (r, w') ->
  S (strictly_below root) w r w'.
Proof using S_ret S_seq S_mono S_dirs S_body S_list S_sort S_limit.
  induction fuel as [|fuel IH]; intros root a w r w' Hd H.
  { simpl in H. inversion H. subst. apply S_limit. }
  simpl in H.
  destruct (list_subdirs root (w_fs w)) as [sds|e] eqn:El.
  - destruct (sort_natural sds) as [sorted|e] eqn:Es.
    + apply (each_subdir_under fuel root sorted a w r w'); auto.
      intros sd Hsd. apply (sort_natural_in _ _ sd Es) in Hsd.
      exact (list_subdirs_in _ _ _ _ El Hsd).
    + inversion H. subst. eapply S_sort; eauto.
  - destruct e; inversion H; subst;
      try (eapply S_list; eauto; fail).
    apply S_ret.
Qed.
End WalkUnder.

(** The pieces of a run on a root that is a directory. *)
Lemma rename_tree_inv pf uuid4_hex limit root include log fs r w' :
  is_dir fs root = true ->
  rename_tree pf uuid4_hex limit root include log fs = Some (r, w') ->
  exists r0 w0,
    (if include then process_root pf uuid4_hex log root else ret 0)
      (mkWorld fs [] 0) = (r0, w0) /\
    ((exists e, r0 = Raise e /\ r = Raise e /\ w' = w0) \/
     (exists t0 r1 w1,
        r0 = Ok t0 /\
        for_subdirs (process_dir pf uuid4_hex log) limit root
          t0 w0 = Some (r1, w1) /\
        ((exists e, r1 = Raise e /\ r = Raise e /\ w' = w1) \/
         (exists t, r1 = Ok t /\ r = Ok t /\
            w' = snd (emit log (LogDone t) w1))))).
Proof.
  intros Hd H. unfold rename_tree, rename_files_in_tree in H.
  simpl w_fs in H.
  assert (He : exists_ fs root = true).
  { unfold exists_. unfold is_dir in Hd. now destruct (lookup fs root). }
  rewrite He, Hd in H. simpl negb in H. simpl orb in H. cbv iota in H.
  destruct ((if include then process_root pf uuid4_hex log root else ret 0)
              (mkWorld fs [] 0)) as [[t0|e] w0] eqn:E0.
  - exists (Ok t0), w0. split; [reflexivity|]. right.
    destruct (for_subdirs (process_dir pf uuid4_hex log) limit
                root t0 w0) as [[[t|e] w1]|] eqn:Ew; [| |discriminate].
    + exists t0, (Ok t), w1. split; [reflexivity|]. split; [exact Ew|].
      right. exists t. unfold bindM, ret in H.
      destruct (emit log (LogDone t) w1) as [[[]|e] w2] eqn:Ee;
        [|unfold emit in Ee; inversion Ee].
      inversion H. subst. auto.
    + exists t0, (Raise e), w1. split; [reflexivity|]. split; [exact Ew|].
      left. exists e. inversion H. subst. auto.
  - exists (Raise e), w0. split; [reflexivity|]. left.
    exists e. inversion H. subst. auto.
Qed.

Section RunRenamesTree.
Variable pf : platform.
Variable uuid4_hex : nat -> string.
Variable limit : nat.
Variable Inv : node -> Prop.
Variable N : string -> Prop.
Hypothesis new_names : forall fs d c idx k,
  Inv fs -> is_file fs (d ++ [c]) = true ->
  N (pre idx c) /\ N (temp_name (uuid4_hex k) c).
Hypothesis inv_kept : forall T fs fs',
  Inv fs -> renames pf T N fs fs' -> Inv fs'.

(** A piece of a run works by renames inside [T]. *)
Let works (T : path -> Prop) (w : world) (r : result nat) (w' : world)
  : Prop :=
  (forall q, is_dir (w_fs w') q = is_dir (w_fs w) q) /\
  (Inv (w_fs w) -> renames pf T N (w_fs w) (w_fs w')).

Lemma walk_renames log fuel root a w r w' :
  is_dir (w_fs w) root = true ->
  for_subdirs (process_dir pf uuid4_hex log) fuel root a w = Some (r, w') ->
  works (strictly_below root) w r w'.
Proof using new_names inv_kept.
  apply (walk_under (process_dir pf uuid4_hex log) works).
  - intros T w0 a0. split; [reflexivity | intros _; apply renames_refl].
  - intros T w0 a1 w1 r0 w2 [D1 R1] [D2 R2]. split.
    + intros q. now rewrite D2.
    + intros HI. eapply renames_trans; [now apply R1|].
      apply R2. eapply inv_kept; eauto.
  - intros T T' w0 r0 w0' HT [D R]. split; [exact D|].
    intros HI. eapply renames_mono; [exact HT | | now apply R]. auto.
  - intros T w0 r0 w0' [D _]. exact D.
  - intros sd a0 w0 r0 w0' _ Hb. split.
    + exact (process_dir_keeps_dirs pf uuid4_hex log sd a0 w0 r0 w0' I Hb).
    + intros HI.
      exact (process_dir_renames pf uuid4_hex Inv N new_names inv_kept
               log sd a0 w0 r0 w0' HI Hb).
  - intros T root0 w0 e _ _. split; [reflexivity|].
    intros _. apply renames_refl.
  - intros T root0 w0 sds e _ _ _. split; [reflexivity|].
    intros _. apply renames_refl.
  - intros T w0. split; [reflexivity|].
    intros _. apply renames_refl.
Qed.

Theorem rename_tree_renames root include log fs r w' :
  Inv fs ->
  rename_tree pf uuid4_hex limit root include log fs = Some (r, w') ->
  renames pf (reach root include) N fs (w_fs w').
Proof using new_names inv_kept.
  intros HI H. destruct (is_dir fs root) eqn:Hd.
  - destruct (rename_tree_inv pf uuid4_hex limit root include log fs r w'
                Hd H) as [r0 [w0 [E0 Hrest]]].
    assert (R0 : (forall q, is_dir (w_fs w0) q = is_dir fs q) /\
                 renames pf (reach root include) N fs (w_fs w0)).
    { destruct include.
      - split.
        + exact (process_root_keeps_dirs pf uuid4_hex log root _ _ _ I E0).
        + eapply renames_mono;
            [| |exact (process_root_renames pf uuid4_hex Inv N new_names
                        inv_kept log root (mkWorld fs [] 0) r0 w0 HI E0)];
            auto.
          intros d <-. right. auto.
      - inversion E0. subst. split; [reflexivity | apply renames_refl]. }
    destruct R0 as [D0 R0].
    destruct Hrest as [[e [-> [-> ->]]]|[t0 [r1 [w1 [-> [Ew Hend]]]]]];
      [exact R0|].
    assert (Hd0 : is_dir (w_fs w0) root = true) by now rewrite D0.
    destruct (walk_renames log _ root t0 w0 r1 w1 Hd0 Ew) as [_ R1].
    assert (R : renames pf (reach root include) N fs (w_fs w1)).
    { eapply renames_trans; [exact R0|].
      eapply renames_mono; [| |apply R1; eapply inv_kept; eauto]; auto.
      intros d Hd'. now left. }
    destruct Hend as [[e [-> [-> ->]]]|[t [-> [-> ->]]]]; [exact R|].
    now rewrite emit_fs.
  - rewrite rename_tree_invalid in H by exact Hd.
    inversion H. subst. apply renames_refl.
Qed.
End RunRenamesTree.

Lemma rename_tree_total pf uuid4_hex limit root include log fs :
  exists r w',
    rename_tree pf uuid4_hex limit root include log fs = Some (r, w').
Proof.
  destruct (is_dir fs root) eqn:Hd.
  - destruct (rename_tree_runs pf uuid4_hex limit root include log fs Hd)
      as [r [w' [_ [H _]]]]. eauto.
  - rewrite rename_tree_invalid by exact Hd. eauto.
Qed.

Lemma file_at_parent_dir fs q lk a :
  file_at fs q = Some (lk, a) -> q <> [] -> is_dir fs (parent q) = true.
Proof.
  intros H Hq. unfold file_at in H. rewrite (lookup_parent_name fs q Hq) in H.
  unfold is_dir. destruct (lookup fs (parent q)) as [[|]|]; congruence.
Qed.


(** X9. A run invents no file, copies none, moves none to another
    directory and changes no content: the run always returns or raises,
    and each file of the tree after it is one file of the same directory
    before it, with the same lock and the same data, no two files after
    the run being the same file before it. *)
Theorem X9_every_file_was_there_before (pf : platform)
  (uuid4_hex : nat -> string) (limit : nat) (root : path)
  (include log : bool) (fs : node) :
  exists r w' origin,
    rename_tree pf uuid4_hex limit root include log fs = Some (r, w') /\
    traces origin fs (w_fs w').
Proof.
  destruct (rename_tree_total pf uuid4_hex limit root include log fs)
    as [r [w' H]].
  destruct (rename_tree_renames pf uuid4_hex limit (fun _ => True)
              (fun _ => True)
              (fun _ _ _ _ _ _ _ => conj I I) (fun _ _ _ _ _ => I)
              root include log fs r w' I H)
    as [_ [_ [[origin [C _]] _]]].
  exists r, w', origin. split; [exact H | exact C].
Qed.

(** X10. On Windows a run loses no file: the run always returns or
    raises, and the files of the tree after it are the files of the tree
    before it, one for one, each in its directory with the same lock and
    the same data, under its name or another one. (On POSIX a rename onto
    an existing file replaces it, see C1.) *)
Theorem X10_windows_run_loses_no_file (uuid4_hex : nat -> string)
  (limit : nat) (root : path) (include log : bool) (fs : node) :
  exists r w' origin,
    rename_tree Windows uuid4_hex limit root include log fs
      = Some (r, w') /\
    traces origin fs (w_fs w') /\
    covers origin fs (w_fs w').
Proof.
  destruct (rename_tree_total Windows uuid4_hex limit root include log fs)
    as [r [w' H]].
  destruct (rename_tree_renames Windows uuid4_hex limit (fun _ => True)
              (fun _ => True)
              (fun _ _ _ _ _ _ _ => conj I I) (fun _ _ _ _ _ => I)
              root include log fs r w' I H)
    as [_ [_ [[origin [C [_ K]]] _]]].
  exists r, w', origin. split; [exact H|]. split; [exact C|].
  destruct K as [K|K]; [discriminate K | exact K].
Qed.

(** ** rename_files_in_tree: trees on which a run cannot fail *)

Lemma plain_app a b : plain (a ++ b) = plain a && plain b.
Proof.
  unfold plain. induction a as [|c a IH]; simpl; [reflexivity|].
  now rewrite IH, andb_assoc.
Qed.

Lemma decimal_plain s : forallb_string is_decimal s = true -> plain s = true.
Proof.
  unfold plain. induction s as [|c s IH]; simpl; [reflexivity|].
  intros H. apply andb_true_iff in H. destruct H as [Hc Hs].
  rewrite (IH Hs), andb_true_r. unfold is_superscript.
  rewrite Hc. simpl. now rewrite andb_false_r.
Qed.

Lemma plain_pre idx c : plain c = true -> plain (pre idx c) = true.
Proof.
  intros Hc. unfold pre. rewrite !plain_app, Hc.
  now rewrite (decimal_plain _ (str_decimal idx)).
Qed.

Lemma plain_temp u c :
  plain u = true -> plain c = true -> plain (temp_name u c) = true.
Proof.
  intros Hu Hc. unfold temp_name. now rewrite !plain_app, Hu, Hc.
Qed.

Lemma is_file_exists fs p : is_file fs p = true -> exists_ fs p = true.
Proof. unfold is_file, exists_. now destruct (lookup fs p). Qed.

Lemma is_dir_exists fs p : is_dir fs p = true -> exists_ fs p = true.
Proof. unfold is_dir, exists_. now destruct (lookup fs p). Qed.

Lemma good_child fs (d : path) c :
  good fs -> exists_ fs (d ++ [c]) = true -> plain c = true.
Proof.
  intros [_ G] H. rewrite <- (name_snoc d c). apply G; [|exact H].
  now destruct d.
Qed.

Lemma good_kept pf T fs fs' :
  good fs -> renames pf T (fun c => plain c = true) fs fs' -> good fs'.
Proof.
  intros [G1 G2] [D [_ [[origin [[C _] [M _]]] _]]]. split.
  - intros q. rewrite D. apply G1.
  - intros q Hq He. unfold exists_ in He.
    destruct (lookup fs' q) as [[lk a|l es]|] eqn:E; [| |discriminate].
    + assert (Hf : file_at fs' q = Some (lk, a))
        by (unfold file_at; now rewrite E).
      destruct (C q lk a Hf) as [H0 _].
      destruct (M q) as [Eo|Hn]; [now rewrite Hf | | exact Hn].
      rewrite Eo in H0.
      apply G2; [exact Hq|]. unfold file_at in H0. unfold exists_.
      now destruct (lookup fs q).
    + assert (Hf : dir_flag fs' q = Some l)
        by (unfold dir_flag; now rewrite E).
      rewrite D in Hf. apply G2; [exact Hq|].
      unfold dir_flag in Hf. unfold exists_.
      now destruct (lookup fs q).
Qed.

Lemma good_iterdir fs d :
  good fs -> is_dir fs d = true -> exists ps, iterdir fs d = Ok ps.
Proof.
  intros [G _] Hd. pose proof (G d) as Hg.
  unfold is_dir in Hd. unfold dir_flag in Hg. unfold iterdir.
  destruct (lookup fs d) as [[|[] es]|]; try discriminate; eauto.
  now elim Hg.
Qed.

Lemma good_list_subdirs fs d :
  good fs -> is_dir fs d = true ->
  exists sds sorted,
    list_subdirs d fs = Ok sds /\ sort_natural sds = Ok sorted.
Proof.
  intros G Hd. destruct (good_iterdir fs d G Hd) as [ps Hps].
  assert (El : list_subdirs d fs = Ok (filter (is_dir fs) ps))
    by (unfold list_subdirs; now rewrite Hps).
  destruct (sort_natural_ok (filter (is_dir fs) ps)) as [s Hs]; [|eauto].
  rewrite Forall_forall. intros p Hp.
  destruct (list_subdirs_in _ _ _ _ El Hp) as [Hpd [c ->]].
  rewrite name_snoc. apply natural_key_plain.
  apply (good_child fs d c G). now apply is_dir_exists.
Qed.

Lemma good_list_files fs d :
  good fs -> is_dir fs d = true ->
  exists fls sorted,
    list_files d fs = Ok fls /\ sort_natural fls = Ok sorted.
Proof.
  intros G Hd. destruct (good_iterdir fs d G Hd) as [ps Hps].
  assert (El : list_files d fs = Ok (filter (is_file fs) ps))
    by (unfold list_files; now rewrite Hps).
  destruct (sort_natural_ok (filter (is_file fs) ps)) as [s Hs]; [|eauto].
  rewrite Forall_forall. intros p Hp.
  destruct (list_files_in _ _ _ _ El Hp) as [Hpf [c ->]].
  rewrite name_snoc. apply natural_key_plain.
  apply (good_child fs d c G). now apply is_file_exists.
Qed.

Lemma good_index fs d :
  good fs -> is_dir fs d = true ->
  exists idx, get_folder_index_among_siblings fs d = Ok idx.
Proof.
  intros G Hd. unfold get_folder_index_among_siblings.
  destruct (path_eqb (parent d) d); [eauto|].
  destruct (good_list_subdirs fs (parent d) G (is_dir_parent _ _ Hd))
    as [sds [sorted [-> Hs]]].
  rewrite Hs. simpl. destruct (index d sorted); eauto.
Qed.

Section RunGood.
Variable pf : platform.
Variable uuid4_hex : nat -> string.
Hypothesis hex_plain : forall k, plain (uuid4_hex k) = true.

Lemma good_new_names : forall fs (d : path) c idx k,
  good fs -> is_file fs (d ++ [c]) = true ->
  plain (pre idx c) = true /\ plain (temp_name (uuid4_hex k) c) = true.
Proof using hex_plain.
  intros fs d c idx k G Hf.
  pose proof (good_child fs d c G (is_file_exists _ _ Hf)) as Hc.
  split; [now apply plain_pre | now apply plain_temp].
Qed.

Lemma prefix_files_good d idx log w :
  good (w_fs w) -> is_dir (w_fs w) d = true ->
  exists n w', _prefix_files_in_dir pf uuid4_hex d idx log w = (Ok n, w').
Proof using Type.
  intros G Hd. unfold _prefix_files_in_dir.
  destruct (good_list_files _ d G Hd) as [fls [sorted [-> Hs]]].
  unfold bindM, read. rewrite Hs.
  destruct (prefix_loop_trace pf uuid4_hex idx log sorted 0 w)
    as [n [w' [_ [H _]]]]. eauto.
Qed.

Lemma process_dir_good log d total w r w' :
  good (w_fs w) -> is_dir (w_fs w) d = true ->
  process_dir pf uuid4_hex log d total w = (r, w') ->
  good (w_fs w') /\ exists a, r = Ok a.
Proof using hex_plain.
  intros G Hd H. split.
  - apply (good_kept pf (eq d) (w_fs w)); [exact G|].
    exact (process_dir_renames pf uuid4_hex good (fun c => plain c = true)
             good_new_names (good_kept pf) log d total w r w' G H).
  - unfold process_dir in H. unfold bindM at 1 in H. unfold read in H.
    destruct (good_index _ d G Hd) as [idx Hi]. rewrite Hi in H.
    unfold bindM at 1 in H.
    destruct (emit log (LogProcessing d idx) w) as [[[]|e] w1] eqn:E;
      [|unfold emit in E; inversion E].
    assert (Hw1 : w_fs w1 = w_fs w).
    { pose proof (emit_fs log (LogProcessing d idx) w) as Hf.
      now rewrite E in Hf. }
    unfold bindM in H.
    destruct (prefix_files_good d idx log w1) as [n [w2 Hp]];
      [now rewrite Hw1 | now rewrite Hw1 |].
    rewrite Hp in H. inversion H. eauto.
Qed.

Lemma process_root_good log d w r w' :
  good (w_fs w) -> is_dir (w_fs w) d = true ->
  process_root pf uuid4_hex log d w = (r, w') ->
  good (w_fs w') /\ exists a, r = Ok a.
Proof using hex_plain.
  intros G Hd H. split.
  - apply (good_kept pf (eq d) (w_fs w)); [exact G|].
    exact (process_root_renames pf uuid4_hex good (fun c => plain c = true)
             good_new_names (good_kept pf) log d w r w' G H).
  - unfold process_root in H. unfold bindM at 1 in H. unfold read in H.
    destruct (good_index _ d G Hd) as [idx Hi]. rewrite Hi in H.
    unfold bindM in H.
    destruct (emit log (LogProcessingRoot d idx) w) as [[[]|e] w1] eqn:E;
      [|unfold emit in E; inversion E].
    assert (Hw1 : w_fs w1 = w_fs w).
    { pose proof (emit_fs log (LogProcessingRoot d idx) w) as Hf.
      now rewrite E in Hf. }
    destruct (prefix_files_good d idx log w1) as [n [w2 Hp]];
      [now rewrite Hw1 | now rewrite Hw1 |].
    rewrite Hp in H. inversion H. eauto.
Qed.

(** A piece of a run on a good tree leaves a good tree, and returns
    unless the tree is too deep for the interpreter. *)
Let goes (T : path -> Prop) (w : world) (r : result nat) (w' : world)
  : Prop :=
  (forall q, is_dir (w_fs w') q = is_dir (w_fs w) q) /\
  (good (w_fs w) ->
   good (w_fs w') /\ (r = Raise RecursionError \/ exists a, r = Ok a)).

Lemma walk_good log fuel root a w r w' :
  is_dir (w_fs w) root = true ->
  for_subdirs (process_dir pf uuid4_hex log) fuel root a w = Some (r, w') ->
  goes (strictly_below root) w r w'.
Proof using hex_plain.
  apply (walk_under (process_dir pf uuid4_hex log) goes).
  - intros T w0 a0. split; [reflexivity | intros G; eauto].
  - intros T w0 a1 w1 r0 w2 [D1 R1] [D2 R2]. split.
    + intros q. now rewrite D2.
    + intros G. apply R2. now apply R1.
  - intros T T' w0 r0 w0' _ H. exact H.
  - intros T w0 r0 w0' [D _]. exact D.
  - intros sd a0 w0 r0 w0' Hsd Hb. split.
    + exact (process_dir_keeps_dirs pf uuid4_hex log sd a0 w0 r0 w0' I Hb).
    + intros G.
      destruct (process_dir_good log sd a0 w0 r0 w0' G Hsd Hb) as [G1 H1].
      auto.
  - intros T root0 w0 e Hd El. split; [reflexivity|]. intros G.
    destruct (good_list_subdirs _ root0 G Hd) as [sds [s [E _]]].
    congruence.
  - intros T root0 w0 sds e Hd El Es. split; [reflexivity|]. intros G.
    destruct (good_list_subdirs _ root0 G Hd) as [sds' [s [E Es']]].
    congruence.
  - intros T w0. split; [reflexivity|]. intros G. auto.
Qed.

Lemma rename_tree_good limit root include log fs :
  good fs -> is_dir fs root = true ->
  exists r w',
    rename_tree pf uuid4_hex limit root include log fs = Some (r, w') /\
    good (w_fs w') /\
    (r = Raise RecursionError \/ exists n, r = Ok n).
Proof using hex_plain.
  intros G Hd.
  destruct (rename_tree_total pf uuid4_hex limit root include log fs)
    as [r [w' H]].
  exists r, w'. split; [exact H|].
  destruct (rename_tree_inv pf uuid4_hex limit root include log fs r w' Hd H)
    as [r0 [w0 [E0 Hrest]]].
  assert (R0 : (forall q, is_dir (w_fs w0) q = is_dir fs q) /\
               good (w_fs w0) /\ exists a, r0 = Ok a).
  { destruct include.
    - split.
      + exact (process_root_keeps_dirs pf uuid4_hex log root _ _ _ I E0).
      + exact (process_root_good log root (mkWorld fs [] 0) r0 w0 G Hd E0).
    - inversion E0. subst. simpl. split; [reflexivity|]. split; eauto. }
  destruct R0 as [D0 [G0 [a0 Ea]]].
  destruct Hrest as [[e [-> _]]|[t0 [r1 [w1 [-> [Ew Hend]]]]]];
    [discriminate|].
  assert (Hd0 : is_dir (w_fs w0) root = true) by now rewrite D0.
  destruct (walk_good log _ root t0 w0 r1 w1 Hd0 Ew) as [_ R1].
  destruct (R1 G0) as [G1 Hr1].
  destruct Hend as [[e [-> [-> ->]]]|[t [-> [-> ->]]]].
  - split; [exact G1|]. left.
    destruct Hr1 as [Hr1|[a1 Hr1]]; [exact Hr1 | discriminate].
  - rewrite emit_fs. split; [exact G1|]. right. eauto.
Qed.
End RunGood.

Lemma check_good_sound fs : forall_dirs check_good fs = true -> good fs.
Proof.
  intros H. split.
  - intros q Hq. unfold dir_flag in Hq.
    destruct (lookup fs q) as [[|l es]|] eqn:E; try discriminate.
    pose proof (forall_dirs_lookup check_good q fs l es H E) as Hc.
    unfold check_good in Hc. apply andb_true_iff in Hc.
    destruct Hc as [Hl _]. congruence.
  - intros q Hq He. unfold exists_ in He.
    rewrite (lookup_parent_name fs q Hq) in He.
    destruct (lookup fs (parent q)) as [[|l es]|] eqn:E; try discriminate.
    pose proof (forall_dirs_lookup check_good (parent q) fs l es H E) as Hc.
    unfold check_good in Hc. apply andb_true_iff in Hc.
    destruct Hc as [_ Hes]. rewrite forallb_forall in Hes.
    destruct (assoc (name q) es) as [n|] eqn:Ea; [|discriminate].
    exact (Hes _ (assoc_in _ _ _ Ea)).
Qed.

(** X11. The names of the model are made of the characters U+0000 to
    U+00FF. On a tree of such names in which every directory can be
    listed and no name holds one of the superscript digits U+00B2, U+00B3
    and U+00B9, a run started on a directory leaves again such a tree,
    whatever files are locked and whatever names clash (the temporary
    names being free of these digits as well), and it raises nothing but
    [RecursionError]; when no directory lies as deep under the root as
    the interpreter can nest generators, the run returns a count. *)
Theorem X11_run_on_a_clean_tree_returns (pf : platform)
  (uuid4_hex : nat -> string) (limit : nat) (root : path)
  (include log : bool) (fs : node) :
  good fs -> (forall j, plain (uuid4_hex j) = true) ->
  is_dir fs root = true ->
  exists r w',
    rename_tree pf uuid4_hex limit root include log fs = Some (r, w') /\
    good (w_fs w') /\
    (r = Raise RecursionError \/ exists n, r = Ok n) /\
    (forall k, depth_bound fs root k -> k < limit -> exists n, r = Ok n).
Proof.
  intros G Hu Hd.
  destruct (rename_tree_good pf uuid4_hex Hu limit root include log fs G Hd)
    as [r [w' [H [G' Hr]]]].
  exists r, w'. split; [exact H|]. split; [exact G'|]. split; [exact Hr|].
  intros k Hk Hlim.
  destruct Hr as [Hr|Hr]; [|exact Hr]. exfalso.
  destruct (rename_tree_returns pf uuid4_hex limit k root include log fs
              Hd Hk Hlim) as [r2 [w2 [w1 [H2 [[_ [X _]] _]]]]].
  rewrite H in H2. inversion H2. subst r2.
  destruct (X _ Hr) as [E|E]; discriminate E.
Qed.

Lemma X11_run_on_a_clean_tree_returns_witness :
  exists r w',
    rename_tree Windows draws 1000 ["r"] true true tree_locked
      = Some (r, w') /\
    good (w_fs w') /\
    (r = Raise RecursionError \/ exists n, r = Ok n) /\
    (forall k, depth_bound tree_locked ["r"] k -> k < 1000 ->
       exists n, r = Ok n).
Proof.
  apply (X11_run_on_a_clean_tree_returns Windows draws 1000 ["r"] true true
           tree_locked).
  - apply check_good_sound. reflexivity.
  - intros k. apply decimal_plain. apply str_decimal.
  - reflexivity.
Defined.

(** ** rename_files_in_tree: the events of a run *)

Lemma sends_refl w : sends w w.
Proof. exists []. split; [now rewrite app_nil_r | reflexivity]. Qed.

Lemma sends_trans w w1 w2 : sends w w1 -> sends w1 w2 -> sends w w2.
Proof.
  intros [e1 [O1 H1]] [e2 [O2 H2]]. exists (e1 ++ e2). split.
  - now rewrite O2, O1, app_assoc.
  - now rewrite existsb_app, H1, H2.
Qed.

Lemma sends_emit log e w : is_done e = false -> sends w (snd (emit log e w)).
Proof.
  intros He. exists (if log then [e] else []). split; [apply emit_out|].
  destruct log; simpl; [now rewrite He | reflexivity].
Qed.

Section RunEvents.
Variable pf : platform.
Variable uuid4_hex : nat -> string.

Lemma prefix_files_sends d idx log w r w' :
  _prefix_files_in_dir pf uuid4_hex d idx log w = (r, w') -> sends w w'.
Proof using Type.
  intros H.
  destruct (prefix_files_events pf uuid4_hex d idx log w) as [evs [O F]].
  rewrite H in O. simpl in O.
  exists (if log then evs else []). split; [exact O|].
  destruct log; [|reflexivity]. clear O.
  induction F as [|e evs0 [f [Hs _]] _ IH]; [reflexivity|].
  simpl. rewrite IH. now destruct e.
Qed.

Lemma process_dir_sends log d total w r w' :
  process_dir pf uuid4_hex log d total w = (r, w') -> sends w w'.
Proof using Type.
  intros H. unfold process_dir in H.
  unfold bindM at 1 in H. unfold read in H.
  destruct (get_folder_index_among_siblings (w_fs w) d) as [idx|e];
    [|inversion H; subst; apply sends_refl].
  unfold bindM at 1 in H.
  pose proof (sends_emit log (LogProcessing d idx) w eq_refl) as S1.
  destruct (emit log (LogProcessing d idx) w) as [[[]|e] w1] eqn:E;
    [|unfold emit in E; inversion E].
  simpl in S1. unfold bindM in H.
  destruct (_prefix_files_in_dir pf uuid4_hex d idx log w1)
    as [[n|e] w2] eqn:Ep; inversion H; subst;
    (eapply sends_trans; [exact S1 | eapply prefix_files_sends; eauto]).
Qed.

Lemma process_root_sends log d w r w' :
  process_root pf uuid4_hex log d w = (r, w') -> sends w w'.
Proof using Type.
  intros H. unfold process_root in H.
  unfold bindM at 1 in H. unfold read in H.
  destruct (get_folder_index_among_siblings (w_fs w) d) as [idx|e];
    [|inversion H; subst; apply sends_refl].
  unfold bindM in H.
  pose proof (sends_emit log (LogProcessingRoot d idx) w eq_refl) as S1.
  destruct (emit log (LogProcessingRoot d idx) w) as [[[]|e] w1] eqn:E;
    [|unfold emit in E; inversion E].
  simpl in S1.
  eapply sends_trans; [exact S1 | eapply prefix_files_sends; eauto].
Qed.

Let quiet (T : path -> Prop) (w : world) (r : result nat) (w' : world)
  : Prop :=
  (forall q, is_dir (w_fs w') q = is_dir (w_fs w) q) /\ sends w w'.

Lemma walk_sends log fuel root a w r w' :
  is_dir (w_fs w) root = true ->
  for_subdirs (process_dir pf uuid4_hex log) fuel root a w = Some (r, w') ->
  quiet (strictly_below root) w r w'.
Proof using Type.
  apply (walk_under (process_dir pf uuid4_hex log) quiet).
  - intros T w0 a0. split; [reflexivity | apply sends_refl].
  - intros T w0 a1 w1 r0 w2 [D1 R1] [D2 R2]. split.
    + intros q. now rewrite D2.
    + eapply sends_trans; eauto.
  - intros T T' w0 r0 w0' _ H. exact H.
  - intros T w0 r0 w0' [D _]. exact D.
  - intros sd a0 w0 r0 w0' _ Hb. split.
    + exact (process_dir_keeps_dirs pf uuid4_hex log sd a0 w0 r0 w0' I Hb).
    + eapply process_dir_sends; eauto.
  - intros T root0 w0 e _ _. split; [reflexivity | apply sends_refl].
  - intros T root0 w0 sds e _ _ _. split; [reflexivity | apply sends_refl].
  - intros T w0. split; [reflexivity | apply sends_refl].
Qed.

(** The events of a run on a directory: no DONE event, then one that
    carries the result when the run returns. *)
Lemma rename_tree_sends limit root include log fs r w' :
  is_dir fs root = true ->
  rename_tree pf uuid4_hex limit root include log fs = Some (r, w') ->
  exists evs,
    existsb is_done evs = false /\
    w_out w' = match r with
               | Ok n => evs ++ (if log then [LogDone n] else [])
               | Raise _ => evs
               end.
Proof using Type.
  intros Hd H.
  destruct (rename_tree_inv pf uuid4_hex limit root include log fs r w'
              Hd H) as [r0 [w0 [E0 Hrest]]].
  assert (R0 : (forall q, is_dir (w_fs w0) q = is_dir fs q) /\
               sends (mkWorld fs [] 0) w0).
  { destruct include.
    - split.
      + exact (process_root_keeps_dirs pf uuid4_hex log root _ _ _ I E0).
      + eapply process_root_sends; eauto.
    - inversion E0. subst. split; [reflexivity | apply sends_refl]. }
  destruct R0 as [D0 S0].
  destruct Hrest as [[e [-> [-> ->]]]|[t0 [r1 [w1 [-> [Ew Hend]]]]]].
  { destruct S0 as [evs [O Hn]]. exists evs. split; [exact Hn | exact O]. }
  assert (Hd0 : is_dir (w_fs w0) root = true) by now rewrite D0.
  destruct (walk_sends log _ root t0 w0 r1 w1 Hd0 Ew) as [_ S1].
  destruct (sends_trans _ _ _ S0 S1) as [evs [O Hn]]. simpl in O.
  exists evs. split; [exact Hn|].
  destruct Hend as [[e [-> [-> ->]]]|[t [-> [-> ->]]]]; [exact O|].
  now rewrite emit_out, O.
Qed.
End RunEvents.


(** ** The window: worker, pump and event loop *)

Lemma stamped_not_sentinel ts msg :
  String.eqb ("[" ++ ts ++ "] " ++ msg) "__DONE__" = false.
Proof. reflexivity. Qed.

Section WorkerFacts.
Variable path_str : path -> string.
Variable exn_str : exn -> string.
Variable strftime : nat -> string.
Variable elapsed : string.
Variable pf : platform.
Variable uuid4_hex : nat -> string.
Variable limit : nat.

Lemma log_all_app msgs : forall k q,
  log_all strftime k msgs q = q ++ log_all strftime k msgs [].
Proof using Type.
  induction msgs as [|m rest IH]; intros k q; simpl.
  - now rewrite app_nil_r.
  - rewrite IH. rewrite (IH _ (_log strftime k m [])).
    unfold _log. simpl. now rewrite <- app_assoc.
Qed.

Lemma log_all_length msgs : forall k,
  List.length (log_all strftime k msgs []) = List.length msgs.
Proof using Type.
  induction msgs as [|m rest IH]; intros k; simpl; [reflexivity|].
  rewrite log_all_app, length_app, IH. unfold _log. simpl. lia.
Qed.

Lemma log_all_stamped msgs : forall k,
  Forall (fun l => String.eqb l "__DONE__" = false)
    (log_all strftime k msgs []).
Proof using Type.
  induction msgs as [|m rest IH]; intros k; simpl; [constructor|].
  rewrite log_all_app. apply Forall_app. split; [|apply IH].
  unfold _log. simpl. constructor; [|constructor].
  apply stamped_not_sentinel.
Qed.

(** The worker ends, and puts stamped lines and then the sentinel. *)
Lemma worker_puts root include fs q :
  exists r w' lines,
    rename_tree pf uuid4_hex limit root include true fs = Some (r, w') /\
    _worker path_str exn_str strftime elapsed pf uuid4_hex limit root include fs q
      = Some (w_fs w', q ++ lines ++ ["__DONE__"]) /\
    List.length lines = 2 + List.length (w_out w') /\
    Forall (fun l => String.eqb l "__DONE__" = false) lines.
Proof using Type.
  destruct (rename_tree_total pf uuid4_hex limit root include true fs)
    as [r [w' H]].
  exists r, w'. eexists. split; [exact H|]. unfold _worker. rewrite H.
  split; [|split].
  - rewrite log_all_app, <- app_assoc. reflexivity.
  - rewrite log_all_length. simpl. rewrite length_app, length_map.
    simpl. lia.
  - apply log_all_stamped.
Qed.
End WorkerFacts.

Lemma pump_app a b u : pump (a ++ b) u = pump b (pump a u).
Proof. apply fold_left_app. Qed.

(** The pump on lines that are not the sentinel: they go to the log box,
    and nothing else moves. *)
Lemma pump_lines lines : forall u,
  Forall (fun l => String.eqb l "__DONE__" = false) lines ->
  pump lines u =
  mkWindow (running u)
    (LOG u ++ String.concat "" (map (fun l => l ++ newline)%string lines))
    (START_disabled u) (START_text u).
Proof.
  induction lines as [|l rest IH]; intros u H.
  - simpl. rewrite string_app_nil_r. now destruct u.
  - inversion H as [|? ? Hl Hrest]; subst.
    change (pump (l :: rest) u) with (pump rest (pump_one u l)).
    rewrite (IH _ Hrest). unfold pump_one. rewrite Hl. simpl.
    f_equal. rewrite string_app_assoc. f_equal.
    destruct rest as [|l' rest']; simpl.
    + now rewrite string_app_nil_r.
    + reflexivity.
Qed.

Lemma prefix_of_lines {X} (lines : list X) s : forall sofar later,
  lines ++ [s] = sofar ++ later -> later <> [] ->
  exists more, lines = sofar ++ more.
Proof.
  intros sofar later H Hl.
  destruct later as [|x later'] using rev_ind; [contradiction|].
  rewrite app_assoc in H. apply app_inj_tail in H. destruct H as [H _].
  eauto.
Qed.

(** X13. The worker always comes to its end, whatever the run does, and
    puts on the queue two lines more than the run sent events, and then
    the sentinel. No line is taken for the sentinel: as long as the pump
    has not met the end of the queue, the flag [running] and the Start
    button are as they were; once it has, the window is idle, the button
    reads Start and can be pressed, and the log box holds every line, in
    order, each followed by a newline. *)
Theorem X13_start_is_released_when_the_worker_is_done
  (path_str : path -> string) (exn_str : exn -> string)
  (strftime : nat -> string) (elapsed : string) (pf : platform)
  (uuid4_hex : nat -> string) (limit : nat) (root : path) (include : bool)
  (fs : node) :
  exists r w' lines,
    rename_tree pf uuid4_hex limit root include true fs = Some (r, w') /\
    _worker path_str exn_str strftime elapsed pf uuid4_hex limit root include fs []
      = Some (w_fs w', lines ++ ["__DONE__"]) /\
    List.length lines = 2 + List.length (w_out w') /\
    (forall u sofar later,
       lines ++ ["__DONE__"] = sofar ++ later -> later <> [] ->
       running (pump sofar u) = running u /\
       START_disabled (pump sofar u) = START_disabled u /\
       START_text (pump sofar u) = START_text u) /\
    (forall u,
       pump (lines ++ ["__DONE__"]) u =
       mkWindow false
         (LOG u ++ String.concat "" (map (fun l => l ++ newline)%string lines))
         false "Start").
Proof.
  destruct (worker_puts path_str exn_str strftime elapsed pf uuid4_hex limit
              root include fs []) as [r [w' [lines [H [Hw [Hn Hl]]]]]].
  exists r, w', lines. split; [exact H|]. split; [exact Hw|].
  split; [exact Hn|]. split.
  - intros u sofar later E Hlater.
    destruct (prefix_of_lines lines _ sofar later E Hlater) as [more Em].
    rewrite Em in Hl. apply Forall_app in Hl. destruct Hl as [Hs _].
    rewrite (pump_lines sofar u Hs). simpl. auto.
  - intros u. rewrite pump_app, (pump_lines lines u Hl). reflexivity.
Qed.

Lemma pump_settled k a :
  settled a ->
  settled (mkSession (pump (firstn k (todo a)) (win a)) (disk a)
             (skipn k (todo a))).
Proof.
  intros [[Ht [Hr [Hd Hx]]]|[lines [Ht [Hl [Hr [Hd Hx]]]]]].
  - left. rewrite Ht, firstn_nil, skipn_nil. simpl. auto.
  - rewrite Ht, firstn_app, skipn_app.
    destruct (Nat.le_gt_cases k (List.length lines)) as [Hk|Hk].
    + replace (k - List.length lines) with 0 by lia.
      rewrite firstn_O, skipn_O, app_nil_r. right.
      exists (skipn k lines). simpl. split; [reflexivity|].
      assert (Hf : Forall (fun l => String.eqb l "__DONE__" = false)
                     (firstn k lines)).
      { rewrite <- (firstn_skipn k lines) in Hl.
        apply Forall_app in Hl. tauto. }
      split.
      { rewrite <- (firstn_skipn k lines) in Hl.
        apply Forall_app in Hl. tauto. }
      rewrite (pump_lines _ _ Hf). simpl. auto.
    + rewrite (firstn_all2 (n := k) lines) by lia.
      rewrite (skipn_all2 (n := k) lines) by lia.
      destruct (k - List.length lines) as [|j] eqn:Ej; [lia|].
      simpl. rewrite firstn_nil, skipn_nil. left.
      rewrite pump_app, (pump_lines _ _ Hl). simpl. auto.
Qed.

Section LoopFacts.
Variable Path : string -> path.
Variable path_str : path -> string.
Variable exn_str : exn -> string.
Variable strftime : nat -> string.
Variable elapsed : string.
Variable pf : platform.
Variable uuid4_hex : nat -> string.
Variable limit : nat.

Lemma turn_settled ev k a a' :
  settled a ->
  turn Path path_str exn_str strftime elapsed pf uuid4_hex limit ev k a = Some a' ->
  settled a'.
Proof using Type.
  intros Hs H. pose proof (pump_settled k a Hs) as Hp.
  destruct ev as [|vals|]; simpl in H; [discriminate| |].
  - unfold on_start in H.
    destruct (running (pump (firstn k (todo a)) (win a))) eqn:Hr.
    { inversion H. subst. exact Hp. }
    destruct (negb (nonempty (strip (FOLDER vals)))).
    { inversion H. subst. exact Hp. }
    destruct (negb (exists_ (disk a) (Path (strip (FOLDER vals))))
              || negb (is_dir (disk a) (Path (strip (FOLDER vals))))).
    { inversion H. subst. exact Hp. }
    destruct (worker_puts path_str exn_str strftime elapsed pf uuid4_hex limit
                (Path (strip (FOLDER vals))) (INCLUDE_ROOT vals) (disk a) [])
      as [r [w' [lines [_ [Hw [_ Hl]]]]]].
    rewrite Hw in H. inversion H. subst a'.
    destruct Hp as [[Ht _]|[l0 [_ [_ [Hr' _]]]]];
      [|simpl in Hr'; congruence].
    simpl in Ht. rewrite Ht. right. exists lines. simpl. auto.
  - inversion H. subst. exact Hp.
Qed.

Lemma turns_settled evs : forall a,
  settled a ->
  settled (turns Path path_str exn_str strftime elapsed pf uuid4_hex limit evs a).
Proof using Type.
  induction evs as [|[ev k] rest IH]; intros a Hs; simpl; [exact Hs|].
  destruct (turn Path path_str exn_str strftime elapsed pf uuid4_hex limit ev k a)
    as [a'|] eqn:E; [|exact Hs].
  apply IH. eapply turn_settled; eauto.
Qed.
End LoopFacts.

(** X14. One worker at a time: whatever the events of the window and
    however the lines of the workers arrive, after any number of turns of
    the event loop the flag [running] is set exactly while a worker has
    still something to put on the queue, the Start button is disabled and
    reads Running... exactly then, and the handler of the Start button
    starts a worker only when the one before has put its sentinel and the
    pump has met it. *)
Theorem X14_one_worker_at_a_time (Path : string -> path)
  (path_str : path -> string) (exn_str : exn -> string)
  (strftime : nat -> string) (elapsed : string) (pf : platform)
  (uuid4_hex : nat -> string) (limit : nat) (fs : node)
  (evs : list (gui_event * nat)) :
  let a :=
    turns Path path_str exn_str strftime elapsed pf uuid4_hex limit evs
      (session0 fs) in
  (running (win a) = true <-> todo a <> []) /\
  START_disabled (win a) = running (win a) /\
  START_text (win a) = (if running (win a) then "Running..." else "Start") /\
  (forall vals k u' root include_root,
     on_start Path (disk a) vals (pump (firstn k (todo a)) (win a))
       = (u', StartWorker root include_root) ->
     skipn k (todo a) = []).
Proof.
  intros a.
  assert (Hs : settled a).
  { apply turns_settled. left. simpl. auto. }
  split; [|split; [|split]].
  - destruct Hs as [[Ht [Hr _]]|[lines [Ht [_ [Hr _]]]]]; rewrite Ht, Hr.
    + split; [discriminate | congruence].
    + split; [intros _; now destruct lines | reflexivity].
  - destruct Hs as [[_ [Hr [Hd _]]]|[lines [_ [_ [Hr [Hd _]]]]]]; congruence.
  - destruct Hs as [[_ [Hr [_ Hx]]]|[lines [_ [_ [Hr [_ Hx]]]]]];
      now rewrite Hr, Hx.
  - intros vals k u' root include_root H.
    destruct (pump_settled k a Hs) as [[Ht _]|[l0 [_ [_ [Hr _]]]]];
      [exact Ht|].
    simpl in Hr. unfold on_start in H. rewrite Hr in H. discriminate.
Qed.

(** ** get_folder_index_among_siblings: the numbering of siblings *)

Lemma StronglySorted_nth {X} (R : X -> X -> Prop) l :
  StronglySorted R l ->
  forall i j a b, i < j ->
    nth_error l i = Some a -> nth_error l j = Some b -> R a b.
Proof.
  induction 1 as [|x l' Hs IH Hall]; intros i j a b Hij Ha Hb.
  - destruct i; discriminate.
  - destruct j as [|j']; [lia|]. simpl in Hb. destruct i as [|i'].
    + simpl in Ha. inversion Ha. subst.
      rewrite Forall_forall in Hall. apply Hall.
      eapply nth_error_In; eauto.
    + simpl in Ha. apply (IH i' j'); auto. lia.
Qed.

Lemma index_nth x l : forall i, index x l = Some i -> nth_error l i = Some x.
Proof.
  induction l as [|y l IH]; intros i; simpl; [discriminate|].
  destruct (path_eqb y x) eqn:E.
  - intros H. inversion H. subst. apply path_eqb_eq in E. now subst.
  - destruct (index x l) as [i'|]; [|discriminate].
    intros H. inversion H. subst. simpl. now apply IH.
Qed.

Lemma parent_neq (d : path) : d <> [] -> parent d <> d.
Proof.
  intros Hd E. pose proof (path_snoc_inv d Hd) as H. rewrite E in H.
  apply (f_equal (@List.length string)) in H. rewrite length_app in H.
  simpl in H. lia.
Qed.

(** A directory that has an index is listed among its siblings. *)
Lemma sibling_listed fs (d : path) i :
  d <> [] -> is_dir fs d = true ->
  get_folder_index_among_siblings fs d = Ok i ->
  exists siblings sorted j,
    list_subdirs (parent d) fs = Ok siblings /\
    sort_natural siblings = Ok sorted /\
    index d sorted = Some j /\ i = j + 1.
Proof.
  intros Hd Hdir H. unfold get_folder_index_among_siblings in H.
  pose proof (parent_neq d Hd) as Hp. apply path_eqb_neq in Hp.
  rewrite Hp in H.
  destruct (list_subdirs (parent d) fs) as [siblings|e] eqn:El.
  - destruct (sort_natural siblings) as [sorted|e] eqn:Es; simpl in H;
      [|discriminate].
    assert (Hin : In d sorted).
    { apply (sort_natural_in _ _ d Es). rewrite (path_snoc_inv d Hd).
      apply (list_subdirs_complete fs _ _ _ El).
      now rewrite <- (path_snoc_inv d Hd). }
    destruct (index_some d sorted Hin) as [j [Hj _]]. rewrite Hj in H.
    inversion H. exists siblings, sorted, j. auto.
  - pose proof (list_subdirs_raise fs (parent d) e
                  (is_dir_parent _ _ Hdir) El) as He.
    subst e. discriminate.
Qed.

(** X15. The directories of one parent are numbered from 1 to their
    number, each with its own index, in the order of their names: two
    directories of the same parent (neither being the top of the file
    system) that both get an index get different ones unless they are the
    same directory, the one whose name comes first in the natural order
    gets the smaller index, and no index is above the number of
    directories of the parent. *)
Theorem X15_siblings_are_numbered_apart (fs : node) (d d' : path)
  (i i' : nat) :
  d <> [] -> d' <> [] -> parent d' = parent d ->
  is_dir fs d = true -> is_dir fs d' = true ->
  get_folder_index_among_siblings fs d = Ok i ->
  get_folder_index_among_siblings fs d' = Ok i' ->
  exists siblings,
    list_subdirs (parent d) fs = Ok siblings /\
    1 <= i <= List.length siblings /\
    (i = i' -> d = d') /\
    (name_lt (name d) (name d') = Ok true -> i < i').
Proof.
  intros Hd Hd' Hpar Hdir Hdir' Hi Hi'.
  destruct (sibling_listed fs d i Hd Hdir Hi)
    as [siblings [sorted [j [El [Es [Hj ->]]]]]].
  destruct (sibling_listed fs d' i' Hd' Hdir' Hi')
    as [siblings' [sorted' [j' [El' [Es' [Hj' ->]]]]]].
  rewrite Hpar, El in El'. inversion El'. subst siblings'.
  rewrite Es in Es'. inversion Es'. subst sorted'.
  pose proof (index_nth _ _ _ Hj) as Hn.
  pose proof (index_nth _ _ _ Hj') as Hn'.
  exists siblings. split; [exact El|]. split; [|split].
  - assert (j < List.length sorted)
      by (apply nth_error_Some; rewrite Hn; discriminate).
    rewrite (Permutation_length (sort_natural_perm _ _ Es)). lia.
  - intros E. assert (j = j') by lia. subst j'. congruence.
  - intros Hlt.
    destruct (Nat.lt_trichotomy j j') as [L|[E|G]]; [lia | |].
    + subst j'. assert (d = d') by congruence. subst d'.
      unfold name_lt in Hlt.
      destruct (natural_key (name d)) as [k|e]; [|discriminate].
      simpl in Hlt. now apply key_lt_irrefl_true in Hlt.
    + pose proof (sort_natural_sorted _ _ Es) as Hs.
      destruct (StronglySorted_nth _ _ Hs j' j d' d G Hn' Hn)
        as [ka [kb [Ka [Kb Hf]]]].
      unfold name_lt in Hlt. rewrite Kb, Ka in Hlt. simpl in Hlt.
      congruence.
Qed.

Lemma X15_siblings_are_numbered_apart_witness :
  exists siblings,
    list_subdirs (parent ["t"; "2"]) tree_seven = Ok siblings /\
    1 <= 2 <= List.length siblings /\
    (2 = 3 -> ["t"; "2"] = ["t"; "10"]) /\
    (name_lt (name ["t"; "2"]) (name ["t"; "10"]) = Ok true -> 2 < 3).
Proof.
  apply (X15_siblings_are_numbered_apart tree_seven ["t"; "2"] ["t"; "10"]
           2 3);
    try discriminate; reflexivity.
Defined.

(** ** natural_key: names that end with a number *)

Lemma split_scan_text p : forall cur rest,
  forallb_string (fun c => negb (is_decimal c)) p = true ->
  split_scan (p ++ rest) false cur = split_scan rest false (cur ++ p).
Proof.
  induction p as [|c p IH]; intros cur rest H; simpl.
  - now rewrite string_app_nil_r.
  - simpl in H. apply andb_true_iff in H. destruct H as [Hc Hp].
    apply negb_true_iff in Hc. rewrite Hc, (IH _ _ Hp). unfold snoc.
    now rewrite string_app_assoc.
Qed.

Lemma split_scan_number ds : forall cur,
  forallb_string is_decimal ds = true ->
  split_scan ds true cur = [(cur ++ ds)%string; EmptyString].
Proof.
  induction ds as [|c ds IH]; intros cur H; simpl.
  - now rewrite string_app_nil_r.
  - simpl in H. apply andb_true_iff in H. destruct H as [Hc Hd].
    rewrite Hc, (IH _ Hd). unfold snoc. now rewrite string_app_assoc.
Qed.

Lemma regex_split_numbered p n :
  forallb_string (fun c => negb (is_decimal c)) p = true ->
  regex_split (p ++ str n) = [p; str n; EmptyString].
Proof.
  intros Hp. unfold regex_split. rewrite (split_scan_text p _ _ Hp).
  simpl. pose proof (str_decimal n) as Hd. pose proof (str_nonempty n) as Hn.
  destruct (str n) as [|c ds]; [discriminate|].
  simpl in Hd. apply andb_true_iff in Hd. destruct Hd as [Hc Hd].
  simpl. rewrite Hc. now rewrite (split_scan_number ds _ Hd).
Qed.

Lemma no_digit_no_decimal p :
  forallb_string (fun c => negb (is_digit_char c)) p = true ->
  forallb_string (fun c => negb (is_decimal c)) p = true.
Proof.
  apply forallb_string_impl. intros c H. apply negb_true_iff in H.
  apply negb_true_iff. unfold is_digit_char in H.
  destruct (is_decimal c); [discriminate H | reflexivity].
Qed.

Lemma key_token_no_digit p :
  forallb_string (fun c => negb (is_digit_char c)) p = true ->
  key_token p = Ok (TStr (lower p)).
Proof.
  intros H. unfold key_token, isdigit.
  destruct p as [|c p]; [reflexivity|]. simpl in *.
  apply andb_true_iff in H. destruct H as [Hc _].
  apply negb_true_iff in Hc. now rewrite Hc.
Qed.

Lemma natural_key_numbered p n :
  forallb_string (fun c => negb (is_digit_char c)) p = true ->
  natural_key (p ++ str n) =
  Ok [TStr (lower p); TInt (N.of_nat n); TStr EmptyString].
Proof.
  intros H. unfold natural_key.
  rewrite (regex_split_numbered p n (no_digit_no_decimal p H)). simpl.
  now rewrite (key_token_no_digit p H), key_token_str.
Qed.

(** X16. Names that differ in the number they end with are ordered by the
    number, not by its digits: for a text [p] without digits, [p] followed
    by [n] comes before [p] followed by [m] exactly when [n < m], so that
    sub2 comes before sub10. *)
Theorem X16_trailing_numbers_order_by_value (p : string) (n m : nat) :
  forallb_string (fun c => negb (is_digit_char c)) p = true ->
  name_lt (p ++ str n) (p ++ str m) = Ok (Nat.ltb n m).
Proof.
  intros H. unfold name_lt.
  rewrite !(natural_key_numbered p _ H). simpl.
  rewrite String.eqb_refl.
  destruct (N.eqb_spec (N.of_nat n) (N.of_nat m)) as [E|NE].
  - apply Nat2N.inj in E. subst m. simpl. now rewrite Nat.ltb_irrefl.
  - f_equal. destruct (N.ltb_spec (N.of_nat n) (N.of_nat m));
      destruct (Nat.ltb_spec n m); auto; lia.
Qed.

Lemma X16_trailing_numbers_order_by_value_witness :
  name_lt ("sub" ++ str 2) ("sub" ++ str 10) = Ok (Nat.ltb 2 10).
Proof.
  apply (X16_trailing_numbers_order_by_value "sub" 2 10). reflexivity.
Defined.

(** ** The window: the handler of the Start button *)

Lemma lstrip_blank s : forallb_string is_space s = true -> lstrip s = EmptyString.
Proof.
  induction s as [|c s IH]; simpl; [reflexivity|].
  intros H. apply andb_true_iff in H. destruct H as [Hc Hs].
  rewrite Hc. now apply IH.
Qed.

Lemma lstrip_head s :
  forallb_string is_space s = false ->
  exists c t, lstrip s = String c t /\ is_space c = false.
Proof.
  induction s as [|c s IH]; simpl; [discriminate|].
  destruct (is_space c) eqn:Hc; simpl; [exact IH|]. eauto.
Qed.

Lemma rstrip_head c t :
  is_space c = false -> nonempty (rstrip (String c t)) = true.
Proof. intros H. simpl. destruct (rstrip t); [now rewrite H | reflexivity]. Qed.

(** What [strip] leaves is empty exactly for a text of white space. *)
Lemma strip_nonempty s :
  nonempty (strip s) = negb (forallb_string is_space s).
Proof.
  unfold strip. destruct (forallb_string is_space s) eqn:E.
  - now rewrite (lstrip_blank s E).
  - destruct (lstrip_head s E) as [c [t [-> Hc]]]. now apply rstrip_head.
Qed.



(** ** rename_files_in_tree: locked files on Windows *)

(** X18. On Windows a run leaves every locked file alone, on any tree: the
    run always returns or raises, and a file that is locked before it is
    found after it under the same path, locked, with the same data. *)
Theorem X18_windows_run_keeps_locked_files (uuid4_hex : nat -> string)
  (limit : nat) (root : path) (include log : bool) (fs : node) :
  exists r w',
    rename_tree Windows uuid4_hex limit root include log fs = Some (r, w') /\
    forall q a, file_at fs q = Some (true, a) ->
      file_at (w_fs w') q = Some (true, a).
Proof.
  destruct (rename_tree_total Windows uuid4_hex limit root include log fs)
    as [r [w' H]].
  exists r, w'. split; [exact H|]. intros q a Hq.
  destruct (rename_tree_renames Windows uuid4_hex limit (fun _ => True)
              (fun _ => True)
              (fun _ _ _ _ _ _ _ => conj I I) (fun _ _ _ _ _ => I)
              root include log fs r w' I H) as [_ [_ [_ L]]].
  destruct (L q a Hq) as [Hp|L1]; [discriminate Hp | exact L1].
Qed.
